(** * Radial positioning: gap interpolation and orientation propagation

    A shallow embedding of [scripts/step05_interpolation.py] and
    [scripts/step06_orientation_propagation.py], with the conversion and
    the plot of [step09_latlong.py] and [step07_display_comparison.py].

    Numbers.  The scripts compute on IEEE doubles.  Here a number is an
    exact rational ([Qc], canonical fractions, so that numeric equality is
    Leibniz equality) and arithmetic is exact: the literal [0.01] is the
    fraction 1/100 and [%] is the exact floored modulo.  Where a property
    depends on rounding, the operations are rounded by [round_b64]
    ([float_mod], [kappa_trend_b64]), and the routines of SciPy whose
    rounding is not reconstructed are parameters: the library record
    [numlib], and the filter of [interpolate_step_with].

    Items.  An item is a JSON object; the keys the scripts read or write are
    the fields of the record [item], each an [option] whose [None] means
    the key is absent.  Values that are present have the type the producer
    gives them (numbers are numbers, the status is a string).

    Aliasing.  Python holds the items of a step in one list and hands
    references to them to segments and sequences.  The list is the store,
    and a reference is an index into it.

    Files.  [json.load] and [json.dump] are not modelled: a stage is the
    pass over the loaded data, and says nothing of what [json.dump] then
    does with the values of NumPy and SciPy. *)

From Stdlib Require Import String List ZArith QArith Qcanon Qcabs Qround Qpower Lia Lqa Bool Arith
  Permutation.
From Stdlib Require Import Sorted.
From Stdlib Require Floats.
Import ListNotations.

Local Open Scope string_scope.
Local Open Scope list_scope.
Local Open Scope Qc_scope.

(* [Qcabs] is written by name; the brackets are kept for lists. *)
Disable Notation "[ q ]" : Qc_scope.

(** ** Rational arithmetic helpers *)

Definition Qc_of_Z (z : Z) : Qc := Q2Qc (inject_Z z).
Definition Qc_of_nat (n : nat) : Qc := Qc_of_Z (Z.of_nat n).

Definition Qcltb (x y : Qc) : bool :=
  match x ?= y with Lt => true | _ => false end.

(** Python's [a % m] on numbers, for a positive modulus: [a - m*floor(a/m)]. *)
Definition py_mod (a m : Qc) : Qc := a - m * Qc_of_Z (Qfloor (this a / this m)).

(** ** The Kappa trend (step06, lines 76-78) *)

Definition kappa_trend (kappa_slope kappa_intercept : Qc) (x : Qc) : Qc :=
  let kappa_interp := kappa_slope * x + kappa_intercept in
  py_mod (kappa_interp + Qc_of_Z 180) (Qc_of_Z 360) - Qc_of_Z 180.

(** ** Binary64 arithmetic

    Where a property depends on rounding, an operation on doubles is the
    exact operation followed by [round_b64], rounding to the nearest double
    with ties to the even significand.  A double is [m * 2^e] with
    [|m| < 2^53] and [e >= -1074]; the exponent is not bounded above here,
    so overflow to infinity is not modelled, and neither are nan and the
    sign of zero. *)
Definition pow2 (e : Z) : Q := ((2 # 1) ^ e)%Q.

Definition round_half_even (q : Q) : Z :=
  let f := Qfloor q in
  match (q - inject_Z f ?= 1 # 2)%Q with
  | Lt => f
  | Eq => if Z.even f then f else (f + 1)%Z
  | Gt => (f + 1)%Z
  end.

(** [floor (log2 q)] for [0 < q]. *)
Definition ilog2 (q : Q) : Z :=
  let k := (Z.log2 (Qnum q) - Z.log2 (Z.pos (Qden q)))%Z in
  if Qle_bool (pow2 k) q then k else (k - 1)%Z.

(** The exponent of the unit in the last place: 53 significant bits, and
    [2^-1074] for the subnormal numbers. *)
Definition ulp_exponent (q : Q) : Z := Z.max (ilog2 q - 52) (-1074).

Definition round_magnitude (q : Q) : Q :=
  let ulp := pow2 (ulp_exponent q) in
  (inject_Z (round_half_even (q / ulp)) * ulp)%Q.

Definition round_b64_Q (q : Q) : Q :=
  if Qle_bool 0 q then round_magnitude q else (- round_magnitude (- q))%Q.

Definition round_b64 (x : Qc) : Qc := Q2Qc (round_b64_Q (this x)).

(** C's [fmod], which is exact: [a - m * trunc (a / m)]. *)
Definition fmod (a m : Qc) : Qc :=
  let q := (this a / this m)%Q in
  a - m * Qc_of_Z (if Qle_bool 0 q then Qfloor q else Qceiling q).

(** [a % m] on doubles ([float_rem] in CPython, [npy_divmod] in NumPy): the
    remainder of [fmod], to which [m] is added when it is not zero and its
    sign is not that of [m]; only that addition rounds. *)
Definition float_mod (a m : Qc) : Qc :=
  let r := fmod a m in
  if Qc_eq_bool r 0 then r
  else if Bool.eqb (Qcltb m 0) (Qcltb r 0) then r
  else round_b64 (r + m).

(** Lines 76-78 on doubles. *)
Definition kappa_trend_b64 (kappa_slope kappa_intercept : Qc) (x : Qc) : Qc :=
  let kappa_interp := round_b64 (round_b64 (kappa_slope * x) + kappa_intercept) in
  round_b64 (float_mod (round_b64 (kappa_interp + Qc_of_Z 180)) (Qc_of_Z 360) - Qc_of_Z 180).

(** The fraction that a double of the kernel stands for, to compare
    [round_b64] with the arithmetic of the machine. *)
Definition Q_of_double (f : PrimFloat.float) : option Q :=
  match FloatOps.Prim2SF f with
  | SpecFloat.S754_zero _ => Some 0%Q
  | SpecFloat.S754_finite s m e =>
      Some ((if s then - inject_Z (Z.pos m) else inject_Z (Z.pos m)) * pow2 e)%Q
  | _ => None
  end.

(** Whether the kernel's result of an operation on two doubles is the
    rounded exact result. *)
Definition agree (op : PrimFloat.float -> PrimFloat.float -> PrimFloat.float)
    (exact : Q -> Q -> Q) (xy : PrimFloat.float * PrimFloat.float) : bool :=
  match Q_of_double (fst xy), Q_of_double (snd xy), Q_of_double (op (fst xy) (snd xy)) with
  | Some x, Some y, Some z => Qeq_bool z (round_b64_Q (exact x y))
  | _, _, _ => false
  end.

(** The double that Python reads from the literal [-180.00000000000003]:
    [-(180 + 2^-45)]. *)
Definition just_below_minus_180 : Qc := Q2Qc (-6333186975989761 # 35184372088832).

(** ** Exceptions *)

Inductive exn : Type :=
| KeyError (key : string)
| TypeError
| ValueError
| RuntimeError.

Inductive result (A : Type) : Type :=
| Ok (a : A)
| Raise (e : exn).
Arguments Ok {A} a.
Arguments Raise {A} e.

Definition bind {A B : Type} (m : result A) (k : A -> result B) : result B :=
  match m with
  | Ok a => k a
  | Raise e => Raise e
  end.

Notation "x <- m ;; k" := (bind m (fun x => k))
  (at level 61, m at next level, right associativity).

(** [d[key]] on a field: [KeyError] when the key is absent. *)
Definition getitem {A : Type} (key : string) (field : option A) : result A :=
  match field with
  | Some v => Ok v
  | None => Raise (KeyError key)
  end.

Fixpoint mapM {A B : Type} (f : A -> result B) (l : list A) : result (list B) :=
  match l with
  | [] => Ok []
  | a :: l' => b <- f a ;; bs <- mapM f l' ;; Ok (b :: bs)
  end.

(** ** Data model *)

Record item : Type := mk_item {
  ImageNumber : option Z;
  Timestamp : option string;
  Sequence : option string;
  Calibration_Status : option string;
  Angular_position : option Qc;
  Omega : option Qc;
  Phi : option Qc;
  Kappa : option Qc;
  item_X : option Qc;
  item_Y : option Qc;
  item_Z : option Qc
}.

Record step_info : Type := mk_step {
  items : list item;
  axis_center : option (Qc * Qc);
  calculated_radius : option Qc;
  calculated_z : option Qc
}.

(** A JSON object of steps, in insertion order. *)
Definition dataset : Type := list (string * step_info).

Definition status_is (s : string) (it : item) : bool :=
  match Calibration_Status it with
  | Some s' => String.eqb s' s
  | None => false
  end.

(** [status in ["original", "visually calibrated"]] *)
Definition is_anchor (it : item) : bool :=
  status_is "original" it || status_is "visually calibrated" it.

Definition is_uncalibrated (it : item) : bool := status_is "uncalibrated" it.

(** [status in ["visually calibrated", "estimated"]] *)
Definition is_correctable (it : item) : bool :=
  status_is "visually calibrated" it || status_is "estimated" it.

(** The store: [update_nth i f l] mutates the object that reference [i]
    designates; the scripts only hold references taken from the list. *)
Fixpoint update_nth {A : Type} (i : nat) (f : A -> A) (l : list A) : list A :=
  match l, i with
  | [], _ => []
  | a :: l', O => f a :: l'
  | a :: l', S i' => a :: update_nth i' f l'
  end.

(** ** Gap interpolation (step05) *)

(** *** Sorting (lines 29-37) *)

(** The sort key [(int(ImageNumber), parsed_ts or datetime.max)]; the second
    component is [None] for [datetime.max]. *)
Definition sort_key : Type := (Z * option Z)%type.

Definition ts_leb (a b : option Z) : bool :=
  match a, b with
  | _, None => true
  | None, Some _ => false
  | Some x, Some y => (x <=? y)%Z
  end.

Definition key_leb (a b : sort_key) : bool :=
  ((fst a <? fst b)%Z) || (((fst a =? fst b)%Z) && ts_leb (snd a) (snd b)).

(** Stable insertion: [x] goes before the first element whose key is not
    smaller, so equal keys keep their input order, as [list.sort] does. *)
Fixpoint insert_by_key {A : Type} (x : sort_key * A) (l : list (sort_key * A)) : list (sort_key * A) :=
  match l with
  | [] => [x]
  | y :: l' => if key_leb (fst x) (fst y) then x :: y :: l' else y :: insert_by_key x l'
  end.

Definition sort_by_key {A : Type} (l : list (sort_key * A)) : list (sort_key * A) :=
  fold_right insert_by_key [] l.

(** *** Segment scan (lines 39-52) *)

(** A closed segment: the two anchors and the run, all references.  In the
    scan [prev_calibrated] is [None] or an anchor, a non-empty dict and hence
    true as a condition; [current_segment] is true when it is not empty. *)
Definition segment : Type := (nat * nat * list nat)%type.

Fixpoint scan (l : list item) (i : nat) (prev_calibrated : option nat)
    (current_segment : list nat) (uncalibrated_segments : list segment) : list segment :=
  match l with
  | [] => uncalibrated_segments
  | it :: l' =>
      if is_anchor it then
        match prev_calibrated, current_segment with
        | Some p, _ :: _ =>
            scan l' (S i) (Some i) [] (uncalibrated_segments ++ [(p, i, current_segment)])
        | _, _ => scan l' (S i) (Some i) current_segment uncalibrated_segments
        end
      else if is_uncalibrated it then
        scan l' (S i) prev_calibrated (current_segment ++ [i]) uncalibrated_segments
      else scan l' (S i) prev_calibrated current_segment uncalibrated_segments
  end.

Definition find_segments (l : list item) : list segment := scan l 0 None [] [].

(** What the scan guarantees about the references it hands out. *)
Definition uncalibrated_at (l : list item) (i : nat) : Prop :=
  exists it, nth_error l i = Some it /\ is_uncalibrated it = true.

Definition anchor_at (l : list item) (i : nat) : Prop :=
  exists it, nth_error l i = Some it /\ is_anchor it = true.

(** All run references of a list of segments. *)
Definition runs (segs : list segment) : list nat := flat_map snd segs.

(** The invariant of the scan at position [i] of the list [full], and what
    it yields for the closed segments. *)
Definition scan_inv (full : list item) (i : nat) (prev : option nat)
    (cur : list nat) (acc : list segment) : Prop :=
  (forall j, In j (runs acc ++ cur) -> (j < i)%nat /\ uncalibrated_at full j) /\
  (forall p, prev = Some p -> anchor_at full p) /\
  (forall s e run, In (s, e, run) acc -> anchor_at full s /\ anchor_at full e) /\
  NoDup (runs acc ++ cur).

Definition segments_ok (full : list item) (segs : list segment) : Prop :=
  (forall j, In j (runs segs) -> uncalibrated_at full j) /\
  (forall s e run, In (s, e, run) segs -> anchor_at full s /\ anchor_at full e) /\
  NoDup (runs segs).

(** *** Angles of a segment (lines 64-72) *)

(** [np.linspace(start, stop, num)] for [num > 1]: [i*step + start] with
    [step = (stop - start)/(num - 1)], the last sample set to [stop]. *)
Definition np_linspace (start stop : Qc) (num : nat) : list Qc :=
  let step := (stop - start) / Qc_of_nat (num - 1) in
  let y := map (fun i => Qc_of_nat i * step + start) (seq 0 num) in
  match num with
  | O => []
  | S O => y
  | _ => removelast y ++ [stop]
  end.

(** The slice [[1:-1]]. *)
Definition slice_1_m1 {A : Type} (l : list A) : list A := removelast (tl l).

Definition np_full (n : nat) (v : Qc) : list Qc := repeat v n.

(** [theta_values] before smoothing; only reached with [0.01 <= |a - b|]. *)
Definition theta_values_raw (start_theta end_theta : Qc) (n : nat) : list Qc :=
  let num_steps := (n + 1)%nat in
  if Qcltb (Qcabs (start_theta - end_theta)) 1 then np_full n start_theta
  else slice_1_m1 (np_linspace start_theta end_theta (num_steps + 1)).

(** [savgol_filter(x, 3, 2)] with the default mode [interp], as SciPy
    documents it: each sample is replaced by the value at its position of
    the least-squares polynomial of degree 2 fitted to the window of 3
    samples centred on it; the first and last sample take the value of the
    polynomial fitted to the first, respectively last, 3 samples.  With 3
    points and degree 2 the least-squares polynomial is the interpolating
    one, written here in Newton form on the abscissae 0, 1, 2. *)
Definition quadratic_fit (y0 y1 y2 : Qc) (t : Qc) : Qc :=
  y0 + (y1 - y0) * t + ((y2 - y1 - y1 + y0) / Qc_of_Z 2) * (t * (t - 1)).

Fixpoint savgol_rest (x : list Qc) : list Qc :=
  match x with
  | a :: ((b :: c :: r) as x') =>
      match r with
      | [] => [quadratic_fit a b c 1; quadratic_fit a b c (Qc_of_Z 2)]
      | _ :: _ => quadratic_fit a b c 1 :: savgol_rest x'
      end
  | _ => []
  end.

(** Shorter inputs make SciPy raise [ValueError]; line 71 guards the call,
    so the last case is never reached. *)
Definition savgol_filter_3_2 (x : list Qc) : list Qc :=
  match x with
  | a :: b :: c :: _ => quadratic_fit a b c 0 :: savgol_rest x
  | _ => x
  end.

Definition smooth_theta (theta_values : list Qc) : list Qc :=
  if (3 <=? length theta_values)%nat then savgol_filter_3_2 theta_values
  else theta_values.

Definition theta_values_of (start_theta end_theta : Qc) (n : nat) : list Qc :=
  smooth_theta (theta_values_raw start_theta end_theta n).

(** Lines 64-72 with the filter of line 72 as a parameter.
    [savgol_filter_3_2] is the filter in exact arithmetic; the installed
    SciPy works on doubles, with coefficients it obtains from a
    least-squares solver, and what it returns is a function of the array
    that is not reconstructed here.  [filter x] stands for
    [savgol_filter(x, 3, 2)] as it is computed: line 71 guards the call, so
    it returns, and it returns an array as long as [x]. *)
Definition theta_values_with (filter : list Qc -> list Qc)
    (start_theta end_theta : Qc) (n : nat) : list Qc :=
  let theta_values := theta_values_raw start_theta end_theta n in
  if (3 <=? length theta_values)%nat then filter theta_values else theta_values.

(** ** Numerical collaborators

    NumPy and SciPy routines whose results are not rational or whose
    algorithm is not part of this repository, and the projector
    [processing.angular_transform.angle_to_xy], which the repository keeps
    outside [scripts/].  Routines that can raise return a [result]. *)
Record numlib : Type := mk_numlib {
  angle_to_xy : Qc -> Qc -> Qc * Qc * Qc;
  strptime : string -> option Z;
  savgol_filter : list Qc -> nat -> nat -> result (list Qc);
  np_std : list Qc -> Qc;
  np_pi : Qc;
  np_sin : Qc -> Qc;
  np_radians : Qc -> Qc;
  np_degrees : Qc -> Qc;
  np_unwrap : list Qc -> list Qc;
  np_polyfit_1 : list Qc -> list Qc -> result (Qc * Qc);
  curve_fit : (Qc -> Qc -> Qc -> Qc -> Qc -> Qc) -> list Qc -> list Qc ->
              Qc * Qc * Qc * Qc -> nat -> result (Qc * Qc * Qc * Qc);
  UnivariateSpline : list Qc -> list Qc -> nat -> Qc -> result (Qc -> Qc)
}.

Definition np_sum (l : list Qc) : Qc := fold_right Qcplus 0 l.

(** [np.mean]; on an empty array NumPy gives nan, the fraction here is 0. *)
Definition np_mean (l : list Qc) : Qc := np_sum l / Qc_of_nat (length l).

Definition Qcmax (a b : Qc) : Qc := if Qcltb a b then b else a.
Definition Qcmin (a b : Qc) : Qc := if Qcltb b a then b else a.

(** [max(l)] and [min(l)]; only called on arrays of at least 3 samples. *)
Definition py_max (l : list Qc) : Qc := fold_right Qcmax (hd 0 l) l.
Definition py_min (l : list Qc) : Qc := fold_right Qcmin (hd 0 l) l.

Section Pipeline.

Variable L : numlib.

(** *** Gap interpolation, continued *)

(** Lines 30-34: a missing, empty or unparseable timestamp gives [None]. *)
Definition parsed_ts (it : item) : option Z :=
  match Timestamp it with
  | Some s => if String.eqb s "" then None else strptime L s
  | None => None
  end.

Definition item_sort_key (it : item) : result sort_key :=
  n <- getitem "ImageNumber" (ImageNumber it) ;;
  Ok (n, parsed_ts it).

(** Line 37: the keys of all items are computed, then the list is sorted. *)
Definition sort_items (l : list item) : result (list item) :=
  keyed <- mapM (fun it => k <- item_sort_key it ;; Ok (k, it)) l ;;
  Ok (map snd (sort_by_key keyed)).

(** Lines 76-82. *)
Definition set_estimated (interpolated_theta radius z_value : Qc) (it : item) : item :=
  let '(x, y, _) := angle_to_xy L interpolated_theta radius in
  {| ImageNumber := ImageNumber it;
     Timestamp := Timestamp it;
     Sequence := Sequence it;
     Calibration_Status := Some "estimated";
     Angular_position := Some interpolated_theta;
     Omega := Omega it;
     Phi := Phi it;
     Kappa := Kappa it;
     item_X := Some x;
     item_Y := Some y;
     item_Z := Some z_value |}.

(** Lines 74-82: [for i, item in enumerate(segment_items)]. *)
Fixpoint assign (radius z_value : Qc) (segment_items : list nat)
    (theta_values : list Qc) (store : list item) : list item :=
  match segment_items, theta_values with
  | i :: segment_items', theta :: theta_values' =>
      assign radius z_value segment_items' theta_values'
        (update_nth i (set_estimated theta radius z_value) store)
  | _, _ => store
  end.

(** [d.get("Angular position")] on the object behind a reference. *)
Definition theta_at (store : list item) (i : nat) : option Qc :=
  match nth_error store i with
  | Some it => Angular_position it
  | None => None
  end.

(** Lines 55-82, one segment. *)
Definition process_segment (radius z_value : Qc) (store : list item) (seg : segment) : list item :=
  let '(start_calibrated, end_calibrated, segment_items) := seg in
  match theta_at store start_calibrated, theta_at store end_calibrated with
  | Some start_theta, Some end_theta =>
      if Qcltb (Qcabs (start_theta - end_theta)) (Q2Qc (1 # 100)) then store
      else assign radius z_value segment_items
             (theta_values_of start_theta end_theta (length segment_items)) store
  | _, _ => store
  end.

(** Lines 16-87, one step whose axis centre, when present, carries both
    coordinates; lines 24-25, which read them, are in [interpolate_raw_step]
    below. *)
Definition interpolate_step (info : step_info) : result step_info :=
  match axis_center info, calculated_radius info, calculated_z info with
  | Some _, Some radius, Some z_value =>
      sorted <- sort_items (items info) ;;
      Ok {| items := fold_left (process_segment radius z_value) (find_segments sorted) sorted;
            axis_center := axis_center info;
            calculated_radius := calculated_radius info;
            calculated_z := calculated_z info |}
  | _, _, _ => Ok info
  end.

Definition interpolate_positions (sequences_data : dataset) : result dataset :=
  mapM (fun kv => info <- interpolate_step (snd kv) ;; Ok (fst kv, info)) sequences_data.

(** A step as the JSON file has it: [axis_center] is an object, and its
    keys ["x"] and ["y"] may be absent. *)
Record raw_step : Type := mk_raw_step {
  raw_items : list item;
  raw_axis_center : option (option Qc * option Qc);
  raw_calculated_radius : option Qc;
  raw_calculated_z : option Qc
}.

Definition raw_dataset : Type := list (string * raw_step).

(** Lines 16-87 with lines 24-25: [step_info["axis_center"]["x"]] and
    [["y"]] are read without a guard, before the items are looked at; the
    two values are not used afterwards. *)
Definition interpolate_raw_step (step_info : raw_step) : result raw_step :=
  match raw_axis_center step_info, raw_calculated_radius step_info,
        raw_calculated_z step_info with
  | Some (x, y), Some radius, Some z_value =>
      center_x <- getitem "x" x ;;
      center_y <- getitem "y" y ;;
      info <- interpolate_step {| items := raw_items step_info;
                                  axis_center := Some (center_x, center_y);
                                  calculated_radius := Some radius;
                                  calculated_z := Some z_value |} ;;
      Ok {| raw_items := items info;
            raw_axis_center := raw_axis_center step_info;
            raw_calculated_radius := raw_calculated_radius step_info;
            raw_calculated_z := raw_calculated_z step_info |}
  | _, _, _ => Ok step_info
  end.

Definition interpolate_raw_positions (sequences_data : raw_dataset) : result raw_dataset :=
  mapM (fun kv => step <- interpolate_raw_step (snd kv) ;; Ok (fst kv, step)) sequences_data.

(** Lines 55-82 and 16-87 with the filter of line 72 as a parameter;
    [process_segment] and [interpolate_step] are the instances at
    [savgol_filter_3_2]. *)
Definition process_segment_with (filter : list Qc -> list Qc) (radius z_value : Qc)
    (store : list item) (seg : segment) : list item :=
  let '(start_calibrated, end_calibrated, segment_items) := seg in
  match theta_at store start_calibrated, theta_at store end_calibrated with
  | Some start_theta, Some end_theta =>
      if Qcltb (Qcabs (start_theta - end_theta)) (Q2Qc (1 # 100)) then store
      else assign radius z_value segment_items
             (theta_values_with filter start_theta end_theta (length segment_items)) store
  | _, _ => store
  end.

Definition interpolate_step_with (filter : list Qc -> list Qc) (info : step_info)
    : result step_info :=
  match axis_center info, calculated_radius info, calculated_z info with
  | Some _, Some radius, Some z_value =>
      sorted <- sort_items (items info) ;;
      Ok {| items := fold_left (process_segment_with filter radius z_value)
                               (find_segments sorted) sorted;
            axis_center := axis_center info;
            calculated_radius := calculated_radius info;
            calculated_z := calculated_z info |}
  | _, _, _ => Ok info
  end.

(** The interpolator with the smoothing pass of lines 70-72 removed. *)
Definition process_segment_unsmoothed (radius z_value : Qc) (store : list item) (seg : segment) : list item :=
  let '(start_calibrated, end_calibrated, segment_items) := seg in
  match theta_at store start_calibrated, theta_at store end_calibrated with
  | Some start_theta, Some end_theta =>
      if Qcltb (Qcabs (start_theta - end_theta)) (Q2Qc (1 # 100)) then store
      else assign radius z_value segment_items
             (theta_values_raw start_theta end_theta (length segment_items)) store
  | _, _ => store
  end.

Definition interpolate_step_unsmoothed (info : step_info) : result step_info :=
  match axis_center info, calculated_radius info, calculated_z info with
  | Some _, Some radius, Some z_value =>
      sorted <- sort_items (items info) ;;
      Ok {| items := fold_left (process_segment_unsmoothed radius z_value) (find_segments sorted) sorted;
            axis_center := axis_center info;
            calculated_radius := calculated_radius info;
            calculated_z := calculated_z info |}
  | _, _, _ => Ok info
  end.

(** *** Trend fitting (step06, lines 7-83) *)

Definition trend : Type := Qc -> Qc.

Definition sinusoidal (x A B C D : Qc) : Qc := A * np_sin L (B * x + C) + D.

(** Lines 7-27.  Only [RuntimeError] is caught. *)
Definition fit_sinusoidal_trend (angular_positions values : list Qc) : result trend :=
  if (length angular_positions <? 3)%nat then Ok (fun _ => np_mean values)
  else
    let p0 := (np_std L values,
               Qc_of_Z 2 * np_pi L / (py_max angular_positions - py_min angular_positions + 1),
               0, np_mean values) in
    match curve_fit L sinusoidal angular_positions values p0 5000 with
    | Ok (A, B, C, D) => Ok (fun x => sinusoidal x A B C D)
    | Raise RuntimeError => UnivariateSpline L angular_positions values 3 (Q2Qc (1 # 2))
    | Raise e => Raise e
    end.

(** One anchor sample: angular position, Omega, Phi, Kappa. *)
Definition sample : Type := (Qc * (Qc * Qc * Qc))%type.

(** Lines 43-46 read one column after the other, so a missing
    ["Angular position"] anywhere is reported before a missing ["Omega"]. *)
Definition read_columns (sequence_items : list item) : result (list sample) :=
  angular_positions <- mapM (fun it => getitem "Angular position" (Angular_position it)) sequence_items ;;
  omega_values <- mapM (fun it => getitem "Omega" (Omega it)) sequence_items ;;
  phi_values <- mapM (fun it => getitem "Phi" (Phi it)) sequence_items ;;
  kappa_values <- mapM (fun it => getitem "Kappa" (Kappa it)) sequence_items ;;
  Ok (combine angular_positions (combine (combine omega_values phi_values) kappa_values)).

(** Lines 49-53: [argsort] on the angular positions, applied to all four
    columns.  NumPy promises no order among equal angular positions; the
    insertion keeps their input order, one of the orders it may give. *)
Fixpoint insert_sample (x : sample) (l : list sample) : list sample :=
  match l with
  | [] => [x]
  | y :: l' => if Qcltb (fst y) (fst x) then y :: insert_sample x l' else x :: y :: l'
  end.

Definition sort_samples (l : list sample) : list sample := fold_right insert_sample [] l.

(** Lines 56-60: [np.unique(..., return_index=True)] on the sorted column
    keeps the first sample of each run of equal angular positions. *)
Fixpoint unique_samples (l : list sample) : list sample :=
  match l with
  | [] => []
  | x :: l' =>
      x :: match l' with
           | [] => []
           | y :: _ => if Qc_eq_bool (fst x) (fst y) then tl (unique_samples l') else unique_samples l'
           end
  end.

(** Lines 36-83. *)
Definition compute_sinusoidal_offsets (sequence_items : list item)
    : result (option (trend * trend * trend)) :=
  if (length sequence_items <? 3)%nat then Ok None
  else
    columns <- read_columns sequence_items ;;
    let columns := unique_samples (sort_samples columns) in
    let angular_positions := map fst columns in
    let omega_values := map (fun s => fst (fst (snd s))) columns in
    let phi_values := map (fun s => snd (fst (snd s))) columns in
    let kappa_values := map (fun s => snd (snd s)) columns in
    let n := length angular_positions in
    let window_size := if (3 <? n)%nat then Nat.min 11 n else n in
    let poly_order := if (3 <? window_size)%nat then 3%nat else 1%nat in
    omega_values_smooth <- savgol_filter L omega_values window_size poly_order ;;
    phi_values_smooth <- savgol_filter L phi_values window_size poly_order ;;
    let kappa_values := map (np_degrees L) (np_unwrap L (map (np_radians L) kappa_values)) in
    line <- np_polyfit_1 L angular_positions kappa_values ;;
    let '(kappa_slope, kappa_intercept) := line in
    omega_trend <- fit_sinusoidal_trend angular_positions omega_values_smooth ;;
    phi_trend <- fit_sinusoidal_trend angular_positions phi_values_smooth ;;
    Ok (Some (omega_trend, phi_trend, kappa_trend kappa_slope kappa_intercept)).

(** *** Orientation correction (step06, lines 86-95) *)

Definition set_orientation (omega phi kappa : Qc) (it : item) : item :=
  {| ImageNumber := ImageNumber it;
     Timestamp := Timestamp it;
     Sequence := Sequence it;
     Calibration_Status := Calibration_Status it;
     Angular_position := Angular_position it;
     Omega := Some omega;
     Phi := Some phi;
     Kappa := Some kappa;
     item_X := item_X it;
     item_Y := item_Y it;
     item_Z := item_Z it |}.

Fixpoint apply_orientation_correction (sequence_items : list nat)
    (omega_trend phi_trend kappa_trend : trend) (store : list item) : result (list item) :=
  match sequence_items with
  | [] => Ok store
  | i :: sequence_items' =>
      match nth_error store i with
      | Some it =>
          if is_correctable it then
            x <- getitem "Angular position" (Angular_position it) ;;
            apply_orientation_correction sequence_items' omega_trend phi_trend kappa_trend
              (update_nth i (set_orientation (omega_trend x) (phi_trend x) (kappa_trend x)) store)
          else apply_orientation_correction sequence_items' omega_trend phi_trend kappa_trend store
      | None => apply_orientation_correction sequence_items' omega_trend phi_trend kappa_trend store
      end
  end.

(** The body of the loop on one item that carries an angular position. *)
Definition corrected (omega_trend phi_trend kappa_trend : trend) (it : item) : item :=
  if is_correctable it then
    match Angular_position it with
    | Some x => set_orientation (omega_trend x) (phi_trend x) (kappa_trend x) it
    | None => it
    end
  else it.

(** *** Sequences of a step (step06, lines 104-122) *)

(** [item.get("Sequence", "Unknown")] *)
Definition seq_id (it : item) : string :=
  match Sequence it with
  | Some s => s
  | None => "Unknown"
  end.

(** [sequences[seq_id].append(item)], creating the entry at the end of the
    dict when the key is new. *)
Fixpoint group_add (k : string) (i : nat) (sequences : list (string * list nat)) : list (string * list nat) :=
  match sequences with
  | [] => [(k, [i])]
  | (k', l) :: sequences' =>
      if String.eqb k' k then (k', l ++ [i]) :: sequences'
      else (k', l) :: group_add k i sequences'
  end.

Fixpoint group_from (l : list item) (i : nat) (sequences : list (string * list nat)) : list (string * list nat) :=
  match l with
  | [] => sequences
  | it :: l' => group_from l' (S i) (group_add (seq_id it) i sequences)
  end.

Definition group_sequences (l : list item) : list (string * list nat) := group_from l 0 [].

(** The objects behind a list of references. *)
Definition deref (store : list item) (refs : list nat) : list item :=
  flat_map (fun i => match nth_error store i with Some it => [it] | None => [] end) refs.

(** Lines 117-122, one sequence.  Unpacking [None] into three names is a
    [TypeError]. *)
Definition process_sequence (store : list item) (sequence_items : list nat) : result (list item) :=
  let originals := filter (status_is "original") (deref store sequence_items) in
  if (length originals <? 3)%nat then Ok store
  else
    r <- compute_sinusoidal_offsets originals ;;
    match r with
    | Some (omega_trend, phi_trend, kappa_trend) =>
        apply_orientation_correction sequence_items omega_trend phi_trend kappa_trend store
    | None => Raise TypeError
    end.

Fixpoint process_sequences (sequences : list (string * list nat)) (store : list item) : result (list item) :=
  match sequences with
  | [] => Ok store
  | (_, sequence_items) :: sequences' =>
      store' <- process_sequence store sequence_items ;;
      process_sequences sequences' store'
  end.

Definition propagate_step (l : list item) : result (list item) :=
  process_sequences (group_sequences l) l.

Definition propagate_orientation (data : dataset) : result dataset :=
  mapM (fun kv =>
          l <- propagate_step (items (snd kv)) ;;
          Ok (fst kv, {| items := l;
                         axis_center := axis_center (snd kv);
                         calculated_radius := calculated_radius (snd kv);
                         calculated_z := calculated_z (snd kv) |}))
       data.

(** The two stages in sequence. *)
Definition pipeline (data : dataset) : result dataset :=
  data' <- interpolate_positions data ;;
  propagate_orientation data'.

(** The same on steps as the JSON file has them.  Orientation propagation
    reads the items of a step only. *)
Definition propagate_raw_orientation (data : raw_dataset) : result raw_dataset :=
  mapM (fun kv =>
          l <- propagate_step (raw_items (snd kv)) ;;
          Ok (fst kv, {| raw_items := l;
                         raw_axis_center := raw_axis_center (snd kv);
                         raw_calculated_radius := raw_calculated_radius (snd kv);
                         raw_calculated_z := raw_calculated_z (snd kv) |}))
       data.

Definition raw_pipeline (data : raw_dataset) : result raw_dataset :=
  data' <- interpolate_raw_positions data ;;
  propagate_raw_orientation data'.

(** A step whose axis centre, when present, has both coordinates. *)
Definition raw_of (info : step_info) : raw_step :=
  {| raw_items := items info;
     raw_axis_center := match axis_center info with
                        | Some (x, y) => Some (Some x, Some y)
                        | None => None
                        end;
     raw_calculated_radius := calculated_radius info;
     raw_calculated_z := calculated_z info |}.

Definition raw_data_of (data : dataset) : raw_dataset :=
  map (fun kv => (fst kv, raw_of (snd kv))) data.

(** ** Status transitions

    [status_step a b]: item [b] has the status of [a], or [a] was
    uncalibrated and [b] is estimated. *)
Definition status_step (a b : item) : Prop :=
  Calibration_Status b = Calibration_Status a \/
  (Calibration_Status a = Some "uncalibrated" /\ Calibration_Status b = Some "estimated").

(** [same_object a b]: [b] carries the image number, the timestamp and the
    sequence identifier of [a], the keys that tell the items of a step
    apart and that neither stage writes. *)
Definition same_object (a b : item) : Prop :=
  ImageNumber b = ImageNumber a /\ Timestamp b = Timestamp a /\ Sequence b = Sequence a.

(** ** Presence of a key *)
Definition has {A : Type} (o : option A) : bool :=
  match o with
  | Some _ => true
  | None => false
  end.

(** ** Where an exception comes from

    The keys that the two scripts read without a guard. *)
Definition unguarded_key (e : exn) : Prop :=
  e = KeyError "ImageNumber" \/ e = KeyError "x" \/ e = KeyError "y" \/
  e = KeyError "Angular position" \/ e = KeyError "Omega" \/
  e = KeyError "Phi" \/ e = KeyError "Kappa".

(** An exception that a numerical routine raises and that no handler
    catches: any of the filter, the line fit and the spline, and any of the
    sinusoidal fit but [RuntimeError]. *)
Definition library_raises (e : exn) : Prop :=
  (exists x w p, savgol_filter L x w p = Raise e) \/
  (exists x y, np_polyfit_1 L x y = Raise e) \/
  (exists f x y p0 maxfev, curve_fit L f x y p0 maxfev = Raise e /\ e <> RuntimeError) \/
  (exists x y k s, UnivariateSpline L x y k s = Raise e).

(** ** Sort keys of items

    The key line 37 computes for an item that has an image number. *)
Definition key_of (it : item) : sort_key :=
  (match ImageNumber it with Some n => n | None => 0%Z end, parsed_ts it).

Definition ts_eqb (a b : option Z) : bool :=
  match a, b with
  | None, None => true
  | Some x, Some y => (x =? y)%Z
  | _, _ => false
  end.

Definition key_eqb (a b : sort_key) : bool :=
  ((fst a =? fst b)%Z) && ts_eqb (snd a) (snd b).

Definition keyed_le {A : Type} (x y : sort_key * A) : Prop := key_leb (fst x) (fst y) = true.

(** ** What gap interpolation may do to an item

    [interpolated_from radius z a b]: [b] is [a], or [a] was uncalibrated
    and [b] is [a] with the five fields of lines 78-82 written. *)
Definition interpolated_from (radius z_value : Qc) (a b : item) : Prop :=
  b = a \/
  (is_uncalibrated a = true /\ exists theta, b = set_estimated theta radius z_value a).

(** The keys gap interpolation never writes. *)
Definition same_identity (a b : item) : Prop :=
  ImageNumber b = ImageNumber a /\ Timestamp b = Timestamp a /\
  Sequence b = Sequence a /\
  Omega b = Omega a /\ Phi b = Phi a /\ Kappa b = Kappa a.

Definition has_context (info : step_info) : Prop :=
  axis_center info <> None /\ calculated_radius info <> None /\ calculated_z info <> None.

Definition has_raw_context (step : raw_step) : Prop :=
  raw_axis_center step <> None /\ raw_calculated_radius step <> None /\
  raw_calculated_z step <> None.

(** The two coordinates of the axis centre, when the object is there. *)
Definition center_x_of (step : raw_step) : option Qc :=
  match raw_axis_center step with Some (x, _) => x | None => None end.
Definition center_y_of (step : raw_step) : option Qc :=
  match raw_axis_center step with Some (_, y) => y | None => None end.

(** ** Shape of a closed segment

    [segment_shape full (s, e, run)]: [s] and [e] are consecutive anchors
    and every run reference lies between them, or before [s] when [s] is the
    first anchor of the list. *)
Definition no_anchor_between (full : list item) (lo hi : nat) : Prop :=
  forall a, (lo < a)%nat -> (a < hi)%nat -> ~ anchor_at full a.

Definition first_anchor (full : list item) (s : nat) : Prop :=
  forall a, (a < s)%nat -> ~ anchor_at full a.

Definition run_place (full : list item) (s e j : nat) : Prop :=
  ((s < j)%nat /\ (j < e)%nat) \/ ((j < s)%nat /\ first_anchor full s).

Definition segment_shape (full : list item) (seg : segment) : Prop :=
  let '(s, e, run) := seg in
  (s < e)%nat /\ no_anchor_between full s e /\ run <> [] /\
  forall j, In j run -> run_place full s e j.

(** The invariant of the scan that gives the shape. *)
Definition scan_shape_inv (full : list item) (i : nat) (prev : option nat)
    (cur : list nat) (acc : list segment) : Prop :=
  (forall j, In j cur ->
     (j < i)%nat /\
     match prev with
     | Some p => (p < j)%nat \/ ((j < p)%nat /\ first_anchor full p)
     | None => True
     end) /\
  match prev with
  | Some p => (p < i)%nat /\ no_anchor_between full p i
  | None => first_anchor full i
  end /\
  Forall (segment_shape full) acc.

(** ** Sequences as a partition of the references

    The references, from [start] on, of the items of [l] whose sequence
    identifier is [k], in list order. *)
Definition indices_of (k : string) (l : list item) (start : nat) : list nat :=
  map fst (filter (fun p => String.eqb (seq_id (snd p)) k)
                  (combine (seq start (length l)) l)).

(** [sequences.get(k, [])] *)
Fixpoint lookup_refs (k : string) (sequences : list (string * list nat)) : list nat :=
  match sequences with
  | [] => []
  | (k', l) :: sequences' => if String.eqb k' k then l else lookup_refs k sequences'
  end.

(** An invariant of the grouping: distinct keys, no empty entry. *)
Definition groups_ok (sequences : list (string * list nat)) : Prop :=
  NoDup (map fst sequences) /\ Forall (fun kv => snd kv <> []) sequences.

(** ** What orientation propagation may do to an item

    [reoriented a b]: [b] is [a], or [a] is visually calibrated or estimated
    and [b] is [a] with Omega, Phi and Kappa written. *)
Definition reoriented (a b : item) : Prop :=
  b = a \/
  (is_correctable a = true /\ exists omega phi kappa, b = set_orientation omega phi kappa a).

(** ** Order of the anchor samples *)
Definition sample_le (a b : sample) : Prop := fst a <= fst b.
Definition sample_lt (a b : sample) : Prop := fst a < fst b.

(** ** Shape of a dataset: names, contexts and item counts of its steps *)
Definition same_shape (s s' : string * step_info) : Prop :=
  fst s' = fst s /\
  axis_center (snd s') = axis_center (snd s) /\
  calculated_radius (snd s') = calculated_radius (snd s) /\
  calculated_z (snd s') = calculated_z (snd s) /\
  length (items (snd s')) = length (items (snd s)).

(** ** Geographic coordinates (step09)

    [step09_latlong.py] reads the same JSON items through other keys: the
    record [geo_item] adds them to the pose keys of [item].  A camera
    position, when present, is a list of numbers. *)
Record geo_item : Type := mk_geo_item {
  pose : item;
  Filename : option string;
  camera_position_t : option (list Qc);
  Latitude : option Qc;
  Longitude : option Qc
}.

Record geo_step : Type := mk_geo_step {
  geo_items : list geo_item;
  geo_axis_center : option (Qc * Qc);
  geo_calculated_radius : option Qc
}.

Definition geo_dataset : Type := list (string * geo_step).

(** Lines 6-12. *)
Definition xy_to_latlon (x y center_lat center_lon scale_factor : Qc) : Qc * Qc :=
  let lat := center_lat + y * scale_factor in
  let lon := center_lon + x * scale_factor in
  (lat, lon).

(** The default of [reference_degree]. *)
Definition reference_degree_default : Qc := Qc_of_Z 111000.

(** Lines 14-18.  A radius is true as a condition unless it is zero.  With
    a zero [reference_degree] and a non-zero radius Python raises
    [ZeroDivisionError] where the quotient here is 0; the script only calls
    with the default. *)
Definition estimate_scale_factor (radius_meters reference_degree : Qc) : Qc :=
  if Qc_eq_bool radius_meters 0 then Q2Qc (1 # 100000)
  else radius_meters / reference_degree.

(** Lines 33-37: [x, y = item["camera_position_t"][:2]] raises [ValueError]
    when the slice has fewer than two entries. *)
Definition add_latlon_item (center_lat center_lon scale_factor : Qc) (it : geo_item)
    : result geo_item :=
  match camera_position_t it with
  | Some t =>
      match firstn 2 t with
      | [x; y] =>
          let '(lat, lon) := xy_to_latlon x y center_lat center_lon scale_factor in
          Ok {| pose := pose it;
                Filename := Filename it;
                camera_position_t := camera_position_t it;
                Latitude := Some lat;
                Longitude := Some lon |}
      | _ => Raise ValueError
      end
  | None => Ok it
  end.

(** Lines 28-30: the axis centre is read and not used. *)
Definition step_scale_factor (step : geo_step) : Qc :=
  let radius := match geo_calculated_radius step with Some r => r | None => 1 end in
  estimate_scale_factor radius reference_degree_default.

(** Lines 27-37, one step. *)
Definition add_latlon_step (center_lat center_lon : Qc) (step : geo_step) : result geo_step :=
  let scale_factor := step_scale_factor step in
  l <- mapM (add_latlon_item center_lat center_lon scale_factor) (geo_items step) ;;
  Ok {| geo_items := l;
        geo_axis_center := geo_axis_center step;
        geo_calculated_radius := geo_calculated_radius step |}.

Definition add_latlon_to_json (sequences_data : geo_dataset) (center_lat center_lon : Qc)
    : result geo_dataset :=
  mapM (fun kv => step <- add_latlon_step center_lat center_lon (snd kv) ;; Ok (fst kv, step))
       sequences_data.

(** A cell of the CSV file. *)
Inductive cell : Type :=
| CStr (s : string)
| CNum (q : Qc).

Definition csv_header : list cell :=
  [ CStr "#Image"; CStr "X"; CStr "Y"; CStr "Z"; CStr "Omega"; CStr "Phi"; CStr "Kappa";
    CStr "SigmaHoriz"; CStr "SigmaVert"; CStr "Latitude"; CStr "Longitude" ].

(** [item["camera_position_t"][n] if "camera_position_t" in item else 0.0];
    [None] stands for the [IndexError] of a position that is too short. *)
Definition coordinate (n : nat) (it : geo_item) : option Qc :=
  match camera_position_t it with
  | Some t => nth_error t n
  | None => Some 0
  end.

Definition get_or_zero (field : option Qc) : Qc :=
  match field with
  | Some v => v
  | None => 0
  end.

(** Lines 56-69, one row; [None] when [IndexError] is raised. *)
Definition export_row (it : geo_item) : option (list cell) :=
  let filename := match Filename it with Some f => f | None => "Unknown" end in
  match coordinate 0 it, coordinate 1 it, coordinate 2 it with
  | Some x, Some y, Some z =>
      Some [ CStr filename; CNum x; CNum y; CNum z;
             CNum (get_or_zero (Omega (pose it)));
             CNum (get_or_zero (Phi (pose it)));
             CNum (get_or_zero (Kappa (pose it)));
             CNum 1; CNum (Q2Qc (3 # 10));
             CNum (get_or_zero (Latitude it));
             CNum (get_or_zero (Longitude it)) ]
  | _, _, _ => None
  end.

Fixpoint export_rows (l : list geo_item) : option (list (list cell)) :=
  match l with
  | [] => Some []
  | it :: l' =>
      match export_row it with
      | Some row =>
          match export_rows l' with
          | Some rows => Some (row :: rows)
          | None => None
          end
      | None => None
      end
  end.

(** All items of a dataset, step after step. *)
Definition all_geo_items (sequences_data : geo_dataset) : list geo_item :=
  flat_map (fun kv => geo_items (snd kv)) sequences_data.

(** Lines 44-69: the rows written when the export returns. *)
Definition export_csv_with_latlon (sequences_data : geo_dataset) : option (list (list cell)) :=
  match export_rows (all_geo_items sequences_data) with
  | Some rows => Some (csv_header :: rows)
  | None => None
  end.

(** A camera position with fewer than [n] coordinates. *)
Definition short_position (n : nat) (it : geo_item) : Prop :=
  exists t, camera_position_t it = Some t /\ (length t < n)%nat.

(** [located center_lat center_lon s a b]: what lines 33-37 make of item
    [a] with scale factor [s]. *)
Definition located (center_lat center_lon scale_factor : Qc) (a b : geo_item) : Prop :=
  pose b = pose a /\ Filename b = Filename a /\
  camera_position_t b = camera_position_t a /\
  match camera_position_t a with
  | None => b = a
  | Some t =>
      exists x y rest,
        t = x :: y :: rest /\
        Latitude b = Some (center_lat + y * scale_factor) /\
        Longitude b = Some (center_lon + x * scale_factor)
  end.

Definition located_step (center_lat center_lon : Qc) (s s' : string * geo_step) : Prop :=
  fst s' = fst s /\
  geo_axis_center (snd s') = geo_axis_center (snd s) /\
  geo_calculated_radius (snd s') = geo_calculated_radius (snd s) /\
  Forall2 (located center_lat center_lon (step_scale_factor (snd s)))
          (geo_items (snd s)) (geo_items (snd s')).

(** ** Comparison plot (step07)

    What [visualize_camera_positions] hands to Plotly: the subplot titles
    and, per trace, the arguments of [go.Scatter] and the row it is added
    to.  The layout is fixed (height 900, width 800, legend shown). *)
Record trace : Type := mk_trace {
  trace_x : list Qc;
  trace_y : list Qc;
  trace_color : string;
  trace_name : string;
  trace_row : nat
}.

Record figure : Type := mk_figure {
  subplot_titles : list string;
  traces : list trace
}.

(** Lines 35-39, in insertion order. *)
Definition status_colors : list (string * string) :=
  [ ("original", "red"); ("visually calibrated", "blue"); ("estimated", "green") ].

(** Line 42: the five keys are all present. *)
Definition plottable (it : item) : bool :=
  has (Angular_position it) && has (Omega it) && has (Phi it) && has (Kappa it)
  && has (Calibration_Status it).

(** Lines 41-50: the list that the loop builds under [status] from the
    values of one key. *)
Definition bucket (field : item -> option Qc) (status : string) (l : list item) : list Qc :=
  flat_map (fun it =>
              if plottable it && status_is status it
              then match field it with Some v => [v] | None => [] end
              else [])
           l.

(** Lines 64-79, the three traces of one status. *)
Definition status_traces (l : list item) (sc : string * string) : list trace :=
  let '(status, color) := sc in
  match bucket Angular_position status l with
  | [] => []
  | _ :: _ =>
      [ {| trace_x := bucket Angular_position status l; trace_y := bucket Omega status l;
           trace_color := color; trace_name := "Omega (" ++ status ++ ")"; trace_row := 1 |};
        {| trace_x := bucket Angular_position status l; trace_y := bucket Phi status l;
           trace_color := color; trace_name := "Phi (" ++ status ++ ")"; trace_row := 2 |};
        {| trace_x := bucket Angular_position status l; trace_y := bucket Kappa status l;
           trace_color := color; trace_name := "Kappa (" ++ status ++ ")"; trace_row := 3 |} ]
  end.

(** Line 52: [any(angular_positions.values())]. *)
Definition has_data (l : list item) : bool :=
  existsb (fun sc => match bucket Angular_position (fst sc) l with [] => false | _ => true end)
          status_colors.

(** Line 26: a step is skipped when a non-empty selection does not name it. *)
Definition selected (selected_sequences : option (list string)) (step_name : string) : bool :=
  match selected_sequences with
  | Some (_ :: _ as names) => existsb (String.eqb step_name) names
  | _ => true
  end.

(** Lines 25-83, the figure of one step, if any. *)
Definition step_figure (selected_sequences : option (list string))
    (kv : string * step_info) : list figure :=
  let '(step_name, step_info) := kv in
  if negb (selected selected_sequences step_name) then []
  else if negb (has_data (items step_info)) then []
  else [ {| subplot_titles :=
              [ "Omega vs Angular Position (" ++ step_name ++ ")";
                "Phi vs Angular Position (" ++ step_name ++ ")";
                "Kappa vs Angular Position (" ++ step_name ++ ")" ]%string;
            traces := flat_map (status_traces (items step_info)) status_colors |} ].

(** Lines 5-89: the first figure, or [None]. *)
Definition visualize_camera_positions (json_data : dataset)
    (selected_sequences : option (list string)) : option figure :=
  hd_error (flat_map (step_figure selected_sequences) json_data).

(** An item that reaches a trace. *)
Definition plotted (it : item) : bool :=
  plottable it && existsb (fun sc => status_is (fst sc) it) status_colors.

Definition only_plotted (kv : string * step_info) : string * step_info :=
  (fst kv, {| items := filter plotted (items (snd kv));
              axis_center := axis_center (snd kv);
              calculated_radius := calculated_radius (snd kv);
              calculated_z := calculated_z (snd kv) |}).

(** A trace that Plotly can draw: as many ordinates as abscissae, at least
    one point, one of the three rows. *)
Definition drawable (t : trace) : Prop :=
  length (trace_x t) = length (trace_y t) /\ trace_x t <> [] /\
  (1 <= trace_row t)%nat /\ (trace_row t <= 3)%nat.

(** ** Sample data *)

(** An instance of the collaborators, for evaluating the pipeline on
    concrete data: the sinusoidal fit never converges, so the spline branch
    is taken, and the spline is the constant mean. *)
Definition sample_lib : numlib :=
  {| angle_to_xy := fun theta radius => (radius * theta, radius - theta, 0);
     strptime := fun _ => None;
     savgol_filter := fun x _ _ => Ok x;
     np_std := fun _ => 1;
     np_pi := Q2Qc (22 # 7);
     np_sin := fun x => x;
     np_radians := fun x => x;
     np_degrees := fun x => x;
     np_unwrap := fun l => l;
     np_polyfit_1 := fun _ ys => Ok (0, np_mean ys);
     curve_fit := fun _ _ _ _ _ => Raise RuntimeError;
     UnivariateSpline := fun _ ys _ _ => Ok (fun _ => np_mean ys) |}.

(** The same, with a sinusoidal fit that refuses with [TypeError], as
    SciPy's least squares does, to fit its four parameters to fewer than
    four samples. *)
Definition strict_lib : numlib :=
  {| angle_to_xy := angle_to_xy sample_lib;
     strptime := strptime sample_lib;
     savgol_filter := savgol_filter sample_lib;
     np_std := np_std sample_lib;
     np_pi := np_pi sample_lib;
     np_sin := np_sin sample_lib;
     np_radians := np_radians sample_lib;
     np_degrees := np_degrees sample_lib;
     np_unwrap := np_unwrap sample_lib;
     np_polyfit_1 := np_polyfit_1 sample_lib;
     curve_fit := fun _ xs _ _ _ =>
                    if (length xs <? 4)%nat then Raise TypeError else Raise RuntimeError;
     UnivariateSpline := UnivariateSpline sample_lib |}.

(** An item with image number, sequence and status only. *)
Definition bare_item (n : Z) (sequence status : string) : item :=
  {| ImageNumber := Some n; Timestamp := None; Sequence := Some sequence;
     Calibration_Status := Some status; Angular_position := None;
     Omega := None; Phi := None; Kappa := None;
     item_X := None; item_Y := None; item_Z := None |}.

(** A calibrated item: angular position and orientation present. *)
Definition posed_item (n : Z) (sequence status : string) (theta : Q) (omega phi kappa : Z) : item :=
  {| ImageNumber := Some n; Timestamp := None; Sequence := Some sequence;
     Calibration_Status := Some status; Angular_position := Some (Q2Qc theta);
     Omega := Some (Qc_of_Z omega); Phi := Some (Qc_of_Z phi); Kappa := Some (Qc_of_Z kappa);
     item_X := None; item_Y := None; item_Z := None |}.

Definition step_of (l : list item) : step_info :=
  {| items := l; axis_center := Some (0, 0);
     calculated_radius := Some (Qc_of_Z 10); calculated_z := Some (Qc_of_Z 5) |}.

(** What is compared on concrete outputs: image number, status, angular
    position as a fraction. *)
Definition summary (it : item) : option Z * option string * option Q :=
  (ImageNumber it, Calibration_Status it, option_map this (Angular_position it)).

(** An uncalibrated item before the first anchor of its step. *)
Definition leading_run_items : list item :=
  [ bare_item 1 "A" "uncalibrated";
    posed_item 2 "A" "original" 0 1 2 3;
    posed_item 3 "A" "original" 90 1 2 3 ].

(** A segment whose anchors are half a unit apart. *)
Definition degenerate_items : list item :=
  [ posed_item 1 "A" "original" 0 1 2 3;
    bare_item 2 "A" "uncalibrated";
    posed_item 3 "A" "original" (1 # 2) 1 2 3 ].

(** Sequence A has three originals, sequence B two. *)
Definition two_sequences_items : list item :=
  [ posed_item 1 "A" "original" 0 1 2 3;
    posed_item 2 "B" "original" 10 4 5 6;
    posed_item 3 "A" "original" 20 1 2 3;
    posed_item 4 "B" "estimated" 30 0 0 0;
    posed_item 5 "A" "visually calibrated" 40 0 0 0;
    posed_item 6 "B" "original" 50 4 5 6;
    posed_item 7 "A" "original" 60 1 2 3 ].

(** Three originals of one sequence, the second without angular position. *)
Definition missing_angle_items : list item :=
  [ posed_item 1 "A" "original" 0 1 2 3;
    bare_item 2 "A" "original";
    posed_item 3 "A" "original" 90 1 2 3 ].

(** The end-to-end scenario: originals at 0 and 90, two items between, and
    a third original so that the sequence is fitted. *)
Definition scenario_data : dataset :=
  [ ("S1", step_of [ posed_item 1 "A" "original" 0 1 2 3;
                     bare_item 2 "A" "uncalibrated";
                     bare_item 3 "A" "uncalibrated";
                     posed_item 4 "A" "original" 90 1 2 3;
                     posed_item 5 "A" "original" 120 1 2 3 ]) ].

(** Three items out of order. *)
Definition unsorted_items : list item :=
  [ bare_item 3 "A" "uncalibrated";
    bare_item 1 "A" "original";
    bare_item 2 "A" "uncalibrated" ].

(** The closing anchor of the segment has no angular position. *)
Definition skipped_items : list item :=
  [ posed_item 1 "A" "original" 0 1 2 3;
    bare_item 2 "A" "uncalibrated";
    bare_item 3 "A" "original" ].

(** Originals at 0 and 90 with two uncalibrated items between, and an
    uncalibrated item after the last anchor. *)
Definition end_to_end_items : list item :=
  [ posed_item 1 "A" "original" 0 1 2 3;
    bare_item 2 "A" "uncalibrated";
    bare_item 3 "A" "uncalibrated";
    posed_item 4 "A" "original" 90 1 2 3;
    bare_item 5 "A" "uncalibrated" ].

(** Anchors at 7 and 7.5 with three uncalibrated items between. *)
Definition band_items : list item :=
  [ posed_item 1 "A" "original" 7 1 2 3;
    bare_item 2 "A" "uncalibrated";
    bare_item 3 "A" "uncalibrated";
    bare_item 4 "A" "uncalibrated";
    posed_item 5 "A" "original" (15 # 2) 1 2 3 ].

(** A filter that returns the first sample [2^-49] lower, two units in the
    last place of a double between 4 and 8, and the other samples as they
    are: for 7 the double 6.999999999999998. *)
Definition first_sample_low (x : list Qc) : list Qc :=
  match x with
  | [] => []
  | a :: r => (a - Q2Qc (1 # 562949953421312)) :: r
  end.

(** A step without axis centre, and a JSON step whose axis centre has no
    [x]. *)
Definition no_center_step : step_info :=
  {| items := unsorted_items; axis_center := None;
     calculated_radius := Some (Qc_of_Z 10); calculated_z := Some (Qc_of_Z 5) |}.

Definition no_x_step : raw_step :=
  {| raw_items := unsorted_items; raw_axis_center := Some (None, Some 0);
     raw_calculated_radius := Some (Qc_of_Z 10); raw_calculated_z := Some (Qc_of_Z 5) |}.

(** Items as step09 sees them. *)
Definition geo_of (name : string) (position : option (list Q)) : geo_item :=
  {| pose := bare_item 1 "A" "original";
     Filename := Some name;
     camera_position_t := option_map (map Q2Qc) position;
     Latitude := None;
     Longitude := None |}.

Definition geo_sample_step : geo_step :=
  {| geo_items := [ geo_of "a.jpg" (Some [1; 2; 3]%Q); geo_of "b.jpg" None ];
     geo_axis_center := Some (0, 0);
     geo_calculated_radius := Some (Qc_of_Z 111) |}.

Definition geo_sample : geo_dataset := [ ("S1", geo_sample_step) ].

(** * Properties *)

(** ** Arithmetic on canonical fractions *)

Lemma Qcltb_lt (x y : Qc) : Qcltb x y = true <-> x < y.
Proof.
  unfold Qcltb. rewrite Qclt_alt.
  destruct (x ?= y); split; intro H; congruence.
Qed.

Lemma Qcltb_ge (x y : Qc) : Qcltb x y = false <-> y <= x.
Proof.
  split; intro H.
  - apply Qcnot_lt_le. intro Hlt. apply Qcltb_lt in Hlt. congruence.
  - destruct (Qcltb x y) eqn:E; [|reflexivity].
    apply Qcltb_lt in E. exfalso. exact (Qcle_not_lt _ _ H E).
Qed.

(** Moving a statement on [Qc] to the underlying fractions. *)
Lemma this_plus (x y : Qc) : (this (x + y) == this x + this y)%Q.
Proof. exact (Qred_correct _). Qed.
Lemma this_mult (x y : Qc) : (this (x * y) == this x * this y)%Q.
Proof. exact (Qred_correct _). Qed.
Lemma this_opp (x : Qc) : (this (- x) == - this x)%Q.
Proof. exact (Qred_correct _). Qed.
Lemma this_minus (x y : Qc) : (this (x - y) == this x - this y)%Q.
Proof. unfold Qcminus. rewrite this_plus, this_opp. reflexivity. Qed.
Lemma this_inv (x : Qc) : (this (/ x) == / this x)%Q.
Proof. exact (Qred_correct _). Qed.
Lemma this_div (x y : Qc) : (this (x / y) == this x / this y)%Q.
Proof. unfold Qcdiv. rewrite this_mult, this_inv. reflexivity. Qed.
Lemma this_of_Z (z : Z) : (this (Qc_of_Z z) == inject_Z z)%Q.
Proof. exact (Qred_correct _). Qed.
Lemma this_Q2Qc (q : Q) : (this (Q2Qc q) == q)%Q.
Proof. exact (Qred_correct _). Qed.

Ltac to_Q :=
  unfold Qclt, Qcle in *;
  repeat (first [ rewrite this_minus in * | rewrite this_div in *
                | rewrite this_plus in * | rewrite this_mult in *
                | rewrite this_opp in * | rewrite this_inv in *
                | rewrite this_of_Z in * | rewrite this_Q2Qc in * ]).

Lemma py_mod_bounds (a m : Qc) : 0 < m -> 0 <= py_mod a m /\ py_mod a m < m.
Proof.
  intro Hm. unfold py_mod.
  assert (Hm' : (0 < this m)%Q) by exact Hm.
  pose proof (Qfloor_le (this a / this m)) as Hlo.
  pose proof (Qlt_floor (this a / this m)) as Hhi.
  set (f := Qfloor (this a / this m)) in *.
  rewrite inject_Z_plus in Hhi. change (inject_Z 1) with 1%Q in Hhi.
  assert (Hm0 : ~ (this m == 0)%Q).
  { intro H0. rewrite H0 in Hm'. exact (Qlt_irrefl _ Hm'). }
  assert (Ediv : (this a / this m * this m == this a)%Q) by (field; exact Hm0).
  assert (Hlo' : (inject_Z f * this m <= this a)%Q).
  { rewrite <- Ediv. apply Qmult_le_compat_r; [exact Hlo | apply Qlt_le_weak; exact Hm']. }
  assert (Hhi' : (this a < (inject_Z f + 1) * this m)%Q).
  { rewrite <- Ediv. apply Qmult_lt_compat_r; [exact Hm' | exact Hhi]. }
  clearbody f. clear Hlo Hhi Ediv Hm0.
  split; to_Q; change (this 0) with 0%Q; nra.
Qed.

Lemma Qc_of_nat_lt (i j : nat) : (i < j)%nat -> Qc_of_nat i < Qc_of_nat j.
Proof.
  intro H. unfold Qc_of_nat. to_Q. rewrite <- Zlt_Qlt. lia.
Qed.

Lemma Qc_of_nat_S_neq_0 (n : nat) : Qc_of_nat (S n) <> 0.
Proof.
  apply not_eq_sym, Qclt_not_eq.
  change 0 with (Qc_of_nat 0). apply Qc_of_nat_lt. lia.
Qed.

Lemma Qc_of_Z_2_neq_0 : Qc_of_Z 2 <> 0.
Proof. intro H. apply (f_equal this) in H. vm_compute in H. discriminate H. Qed.

(** ** Few samples: the constant mean *)

(** C10.  With fewer than 3 sample points the Omega/Phi fit returns, without
    calling the sinusoidal fit or the spline (so whatever they would do), a
    constant function whose value is the mean of the values: their sum
    divided by their number, hence the value itself for one value and half
    the sum for two.  (For no value at all NumPy's mean is nan, which no
    fraction stands for; the statement leaves that value open.) *)
Theorem fit_sinusoidal_trend_few_samples (angular_positions values : list Qc) :
  (length angular_positions < 3)%nat ->
  exists t : trend,
    fit_sinusoidal_trend angular_positions values = Ok t /\
    (forall x y, t x = t y) /\
    (values <> [] ->
     forall x, t x * Qc_of_nat (length values) = fold_right Qcplus 0 values) /\
    (forall a, values = [a] -> forall x, t x = a) /\
    (forall a b, values = [a; b] -> forall x, t x = (a + b) / Qc_of_Z 2).
Proof.
  intro H. unfold fit_sinusoidal_trend.
  apply Nat.ltb_lt in H. rewrite H.
  exists (fun _ : Qc => np_mean values).
  split; [reflexivity|]. split; [reflexivity|]. split; [|split].
  - intros Hne x. unfold np_mean, np_sum.
    destruct values as [|v values]; [congruence|].
    field. apply Qc_of_nat_S_neq_0.
  - intros a -> x. unfold np_mean, np_sum. simpl.
    change (Qc_of_nat 1) with 1. field. apply Q_apart_0_1.
  - intros a b -> x. unfold np_mean, np_sum. simpl.
    change (Qc_of_nat 2) with (Qc_of_Z 2). field. exact Qc_of_Z_2_neq_0.
Qed.

(** ** Smoothing with window 3 and order 2 *)

Lemma quadratic_fit_0 (a b c : Qc) : quadratic_fit a b c 0 = a.
Proof. unfold quadratic_fit, Qcdiv. ring. Qed.

Lemma quadratic_fit_1 (a b c : Qc) : quadratic_fit a b c 1 = b.
Proof. unfold quadratic_fit, Qcdiv. ring. Qed.

Lemma quadratic_fit_2 (a b c : Qc) : quadratic_fit a b c (Qc_of_Z 2) = c.
Proof.
  unfold quadratic_fit.
  replace (Qc_of_Z 2) with (1 + 1) by (apply Qc_is_canon; reflexivity).
  field. intro H. apply (f_equal this) in H. vm_compute in H. discriminate H.
Qed.

Lemma savgol_rest_tl (r : list Qc) :
  forall a b c, savgol_rest (a :: b :: c :: r) = b :: c :: r.
Proof.
  induction r as [|d r IH]; intros a b c.
  - simpl. rewrite quadratic_fit_1, quadratic_fit_2. reflexivity.
  - change (savgol_rest (a :: b :: c :: d :: r))
      with (quadratic_fit a b c 1 :: savgol_rest (b :: c :: d :: r)).
    rewrite IH, quadratic_fit_1. reflexivity.
Qed.

Lemma savgol_filter_3_2_id (x : list Qc) : savgol_filter_3_2 x = x.
Proof.
  destruct x as [|a [|b [|c r]]]; try reflexivity.
  unfold savgol_filter_3_2. rewrite savgol_rest_tl, quadratic_fit_0. reflexivity.
Qed.

Lemma smooth_theta_id (x : list Qc) : smooth_theta x = x.
Proof.
  unfold smooth_theta. destruct (3 <=? length x)%nat; [apply savgol_filter_3_2_id | reflexivity].
Qed.

Lemma theta_values_of_raw (a b : Qc) (n : nat) :
  theta_values_of a b n = theta_values_raw a b n.
Proof. apply smooth_theta_id. Qed.

Lemma process_segment_unsmoothed_eq (radius z_value : Qc) (store : list item) (seg : segment) :
  process_segment radius z_value store seg = process_segment_unsmoothed radius z_value store seg.
Proof.
  destruct seg as [[s e] run]. unfold process_segment, process_segment_unsmoothed.
  destruct (theta_at store s) as [a|]; [|reflexivity].
  destruct (theta_at store e) as [b|]; [|reflexivity].
  rewrite theta_values_of_raw. reflexivity.
Qed.

Lemma fold_left_ext_eq {A B : Type} (f g : A -> B -> A) (l : list B) :
  (forall a b, f a b = g a b) -> forall a, fold_left f l a = fold_left g l a.
Proof.
  intro H. induction l as [|b l IH]; intro a; simpl; [reflexivity|].
  rewrite H. apply IH.
Qed.

(** C9.  On the uniformly spaced interior angles of a non-degenerate segment
    with at least 3 run items the smoothing pass (window 3, order 2) is the
    identity, and the interpolator with the pass equals the interpolator
    without it on every step. *)
Theorem smoothing_changes_nothing :
  (forall (th0 th1 : Qc) (n : nat),
      1 <= Qcabs (th0 - th1) -> (3 <= n)%nat ->
      savgol_filter_3_2 (theta_values_raw th0 th1 n) = theta_values_raw th0 th1 n /\
      theta_values_of th0 th1 n = theta_values_raw th0 th1 n) /\
  (forall info : step_info, interpolate_step info = interpolate_step_unsmoothed info).
Proof.
  split.
  - intros th0 th1 n _ _. split; [apply savgol_filter_3_2_id | apply theta_values_of_raw].
  - intro info. unfold interpolate_step, interpolate_step_unsmoothed.
    destruct (axis_center info); [|reflexivity].
    destruct (calculated_radius info) as [radius|]; [|reflexivity].
    destruct (calculated_z info) as [z_value|]; [|reflexivity].
    destruct (sort_items (items info)) as [sorted|e]; [|reflexivity].
    simpl. f_equal. f_equal.
    apply fold_left_ext_eq. intros. apply process_segment_unsmoothed_eq.
Qed.

(** ** Interior points of a non-degenerate segment *)

Lemma seq_snoc (start len : nat) :
  seq start (S len) = seq start len ++ [(start + len)%nat].
Proof. apply seq_S. Qed.

Lemma np_linspace_interior (a b : Qc) (n : nat) :
  slice_1_m1 (np_linspace a b (n + 1 + 1))
  = map (fun i => Qc_of_nat i * ((b - a) / Qc_of_nat (S n)) + a) (seq 1 n).
Proof.
  unfold np_linspace, slice_1_m1.
  replace (n + 1 + 1 - 1)%nat with (S n) by lia.
  replace (n + 1 + 1)%nat with (S (S n)) by lia.
  rewrite (seq_snoc 0 (S n)), map_app. simpl map at 2.
  rewrite removelast_last.
  change (seq 0 (S n)) with (0%nat :: seq 1 n).
  simpl map. simpl tl. apply removelast_last.
Qed.

Lemma theta_values_raw_spaced (th0 th1 : Qc) (n : nat) :
  1 <= Qcabs (th0 - th1) ->
  theta_values_raw th0 th1 n
  = map (fun i => Qc_of_nat i * ((th1 - th0) / Qc_of_nat (S n)) + th0) (seq 1 n).
Proof.
  intro H. unfold theta_values_raw.
  apply Qcltb_ge in H. rewrite H. apply np_linspace_interior.
Qed.

Lemma nth_map_seq (f : nat -> Qc) (start n i : nat) :
  (i < n)%nat -> nth i (map f (seq start n)) 0 = f (start + i)%nat.
Proof.
  intro H. rewrite (nth_indep _ 0 (f 0%nat)) by (rewrite length_map, length_seq; exact H).
  rewrite map_nth, seq_nth by exact H. reflexivity.
Qed.

(** The step of the partition times the number of subintervals is the span. *)
Lemma partition_step (th0 th1 : Qc) (n : nat) :
  Qc_of_nat (S n) * ((th1 - th0) / Qc_of_nat (S n)) = th1 - th0.
Proof. field. apply Qc_of_nat_S_neq_0. Qed.

Lemma step_pos (d span N : Qc) : 0 < N -> N * d = span -> 0 < span -> 0 < d.
Proof.
  intros HN E Hs. subst span.
  destruct (Qclt_le_dec 0 d) as [Hd|Hd]; [exact Hd|exfalso].
  to_Q. change (this 0) with 0%Q in *. nra.
Qed.

Lemma point_increasing (d a : Qc) (i j : nat) :
  0 < d -> (i < j)%nat -> Qc_of_nat i * d + a < Qc_of_nat j * d + a.
Proof.
  intros Hd Hij. apply Qc_of_nat_lt in Hij.
  to_Q. change (this 0) with 0%Q in *. nra.
Qed.

Lemma point_decreasing (d a : Qc) (i j : nat) :
  d < 0 -> (i < j)%nat -> Qc_of_nat j * d + a < Qc_of_nat i * d + a.
Proof.
  intros Hd Hij. apply Qc_of_nat_lt in Hij.
  to_Q. change (this 0) with 0%Q in *. nra.
Qed.

Lemma step_neg (d span N : Qc) : 0 < N -> N * d = span -> span < 0 -> d < 0.
Proof.
  intros HN E Hs. subst span.
  destruct (Qclt_le_dec d 0) as [Hd|Hd]; [exact Hd|exfalso].
  to_Q. change (this 0) with 0%Q in *. nra.
Qed.

Lemma Qc_of_nat_0_mult (d a : Qc) : Qc_of_nat 0 * d + a = a.
Proof. change (Qc_of_nat 0) with 0. ring. Qed.

Lemma partition_end (th0 th1 : Qc) (n : nat) :
  Qc_of_nat (S n) * ((th1 - th0) / Qc_of_nat (S n)) + th0 = th1.
Proof. rewrite partition_step. ring. Qed.

Lemma Qc_of_nat_S_pos (n : nat) : 0 < Qc_of_nat (S n).
Proof. change 0 with (Qc_of_nat 0). apply Qc_of_nat_lt. lia. Qed.

(** C4.  In a segment with [|th0 - th1| >= 1] and a run of [n] items the
    angles before smoothing are the [n] interior points of the uniform
    partition of [[th0, th1]] into [n+1] subintervals: point [i] (from 0) is
    [th0 + (i+1)(th1 - th0)/(n+1)]; they lie strictly between the endpoints
    and are strictly increasing when [th0 < th1], strictly decreasing when
    [th1 < th0]. *)
Theorem interior_points_uniform (th0 th1 : Qc) (n : nat) :
  1 <= Qcabs (th0 - th1) ->
  let ths := theta_values_raw th0 th1 n in
  length ths = n /\
  (forall i, (i < n)%nat ->
     nth i ths 0 = th0 + Qc_of_nat (S i) * (th1 - th0) / Qc_of_nat (S n)) /\
  (th0 < th1 ->
     (forall i, (i < n)%nat -> th0 < nth i ths 0 /\ nth i ths 0 < th1) /\
     (forall i j, (i < j)%nat -> (j < n)%nat -> nth i ths 0 < nth j ths 0)) /\
  (th1 < th0 ->
     (forall i, (i < n)%nat -> th1 < nth i ths 0 /\ nth i ths 0 < th0) /\
     (forall i j, (i < j)%nat -> (j < n)%nat -> nth j ths 0 < nth i ths 0)).
Proof.
  intros H ths. unfold ths. rewrite (theta_values_raw_spaced _ _ n H).
  set (d := (th1 - th0) / Qc_of_nat (S n)).
  assert (Hnth : forall i, (i < n)%nat ->
            nth i (map (fun k => Qc_of_nat k * d + th0) (seq 1 n)) 0
            = Qc_of_nat (S i) * d + th0).
  { intros i Hi. rewrite nth_map_seq by exact Hi. reflexivity. }
  assert (Hend : Qc_of_nat (S n) * d + th0 = th1) by apply partition_end.
  assert (Hstep : Qc_of_nat (S n) * d = th1 - th0) by apply partition_step.
  split; [rewrite length_map, length_seq; reflexivity|].
  split.
  { intros i Hi. rewrite Hnth by exact Hi. unfold d.
    field. apply Qc_of_nat_S_neq_0. }
  split.
  - intro Hlt.
    assert (Hd : 0 < d).
    { apply (step_pos _ _ _ (Qc_of_nat_S_pos n) Hstep).
      to_Q. change (this 0) with 0%Q. lra. }
    split.
    + intros i Hi. rewrite Hnth by exact Hi. split.
      * rewrite <- (Qc_of_nat_0_mult d th0) at 1. apply point_increasing; [exact Hd|lia].
      * rewrite <- Hend at 1. apply point_increasing; [exact Hd|lia].
    + intros i j Hij Hj. rewrite !Hnth by lia. apply point_increasing; [exact Hd|lia].
  - intro Hlt.
    assert (Hd : d < 0).
    { apply (step_neg _ _ _ (Qc_of_nat_S_pos n) Hstep).
      to_Q. change (this 0) with 0%Q. lra. }
    split.
    + intros i Hi. rewrite Hnth by exact Hi. split.
      * rewrite <- Hend at 1. apply point_decreasing; [exact Hd|lia].
      * rewrite <- (Qc_of_nat_0_mult d th0) at 2. apply point_decreasing; [exact Hd|lia].
    + intros i j Hij Hj. rewrite !Hnth by lia. apply point_decreasing; [exact Hd|lia].
Qed.

(** ** The store *)

Lemma length_update_nth {A : Type} (f : A -> A) (l : list A) :
  forall i, length (update_nth i f l) = length l.
Proof.
  induction l as [|a l IH]; intros [|i]; simpl; try reflexivity.
  rewrite IH. reflexivity.
Qed.

Lemma nth_error_update_nth {A : Type} (f : A -> A) (l : list A) :
  forall i j,
    nth_error (update_nth i f l) j
    = if Nat.eqb i j then option_map f (nth_error l j) else nth_error l j.
Proof.
  induction l as [|a l IH]; intros i j.
  - destruct i; simpl; destruct j; simpl; try reflexivity;
      match goal with |- context [if ?b then _ else _] => destruct b end; reflexivity.
  - destruct i as [|i]; destruct j as [|j]; simpl; try reflexivity.
    apply IH.
Qed.

Lemma nth_error_update_nth_same {A : Type} (f : A -> A) (l : list A) (i : nat) :
  nth_error (update_nth i f l) i = option_map f (nth_error l i).
Proof. rewrite nth_error_update_nth, Nat.eqb_refl. reflexivity. Qed.

Lemma nth_error_update_nth_other {A : Type} (f : A -> A) (l : list A) (i j : nat) :
  i <> j -> nth_error (update_nth i f l) j = nth_error l j.
Proof.
  intro H. rewrite nth_error_update_nth.
  apply Nat.eqb_neq in H. rewrite H. reflexivity.
Qed.

Lemma Forall_update_nth {A : Type} (P : A -> Prop) (f : A -> A) (l : list A) :
  (forall a, P a -> P (f a)) -> forall i, Forall P l -> Forall P (update_nth i f l).
Proof.
  intro Hf. induction l as [|a l IH]; intros [|i] H; simpl; try exact H.
  - inversion H; subst. constructor; auto.
  - inversion H; subst. constructor; auto.
Qed.

(** ** The orientation corrector *)

Section Corrector.

Variables omega_trend phi_trend kappa_trend : trend.

Let fix_item := corrected omega_trend phi_trend kappa_trend.

Lemma corrected_idem (it : item) : fix_item (fix_item it) = fix_item it.
Proof.
  unfold fix_item, corrected.
  destruct (is_correctable it) eqn:Hc; [|rewrite Hc; reflexivity].
  destruct (Angular_position it) as [x|] eqn:Hx; [|rewrite Hc, Hx; reflexivity].
  unfold is_correctable, status_is in *. simpl. rewrite Hc, Hx. reflexivity.
Qed.

Lemma corrected_status (it : item) : Calibration_Status (fix_item it) = Calibration_Status it.
Proof.
  unfold fix_item, corrected.
  destruct (is_correctable it); [|reflexivity].
  destruct (Angular_position it); reflexivity.
Qed.

Lemma apply_orientation_correction_spec (sequence_items : list nat) :
  forall store store',
    apply_orientation_correction sequence_items omega_trend phi_trend kappa_trend store = Ok store' ->
    forall i, nth_error store' i
              = if existsb (Nat.eqb i) sequence_items
                then option_map fix_item (nth_error store i)
                else nth_error store i.
Proof.
  induction sequence_items as [|i0 rest IH]; intros store store' H i.
  - simpl in H. inversion H; subst. reflexivity.
  - simpl in H. simpl existsb.
    destruct (nth_error store i0) as [it0|] eqn:E0.
    + destruct (is_correctable it0) eqn:Hc.
      * destruct (Angular_position it0) as [x|] eqn:Hx; simpl in H; [|discriminate H].
        rewrite (IH _ _ H i). rewrite nth_error_update_nth.
        rewrite (Nat.eqb_sym i0 i).
        destruct (Nat.eqb i i0) eqn:Ei.
        -- apply Nat.eqb_eq in Ei. subst i0. rewrite E0. simpl.
           assert (Efix : set_orientation (omega_trend x) (phi_trend x) (kappa_trend x) it0
                          = fix_item it0).
           { unfold fix_item, corrected. rewrite Hc, Hx. reflexivity. }
           rewrite Efix. destruct (existsb (Nat.eqb i) rest); [|reflexivity].
           simpl. rewrite corrected_idem. reflexivity.
        -- reflexivity.
      * rewrite (IH _ _ H i).
        destruct (Nat.eqb i i0) eqn:Ei; [|reflexivity].
        apply Nat.eqb_eq in Ei. subst i0. rewrite E0. simpl.
        assert (Efix : fix_item it0 = it0).
        { unfold fix_item, corrected. rewrite Hc. reflexivity. }
        rewrite Efix. destruct (existsb (Nat.eqb i) rest); reflexivity.
    + rewrite (IH _ _ H i).
      destruct (Nat.eqb i i0) eqn:Ei; [|reflexivity].
      apply Nat.eqb_eq in Ei. subst i0. rewrite E0.
      destruct (existsb (Nat.eqb i) rest); reflexivity.
Qed.

Lemma existsb_eqb_In (i : nat) (l : list nat) : existsb (Nat.eqb i) l = true <-> In i l.
Proof.
  rewrite existsb_exists. split.
  - intros [j [Hj E]]. apply Nat.eqb_eq in E. subst j. exact Hj.
  - intro H. exists i. split; [exact H | apply Nat.eqb_refl].
Qed.

Lemma existsb_eqb_not_In (i : nat) (l : list nat) : existsb (Nat.eqb i) l = false <-> ~ In i l.
Proof.
  rewrite <- existsb_eqb_In. destruct (existsb (Nat.eqb i) l); split; intro H; congruence.
Qed.

Lemma apply_orientation_correction_total (sequence_items : list nat) :
  forall store,
    Forall (fun it => is_correctable it = true -> Angular_position it <> None) store ->
    exists store',
      apply_orientation_correction sequence_items omega_trend phi_trend kappa_trend store = Ok store'.
Proof.
  induction sequence_items as [|i0 rest IH]; intros store Hall.
  - exists store. reflexivity.
  - simpl. destruct (nth_error store i0) as [it0|] eqn:E0; [|apply IH; exact Hall].
    destruct (is_correctable it0) eqn:Hc; [|apply IH; exact Hall].
    assert (Hin : In it0 store) by (eapply nth_error_In; exact E0).
    rewrite Forall_forall in Hall. pose proof (Hall _ Hin Hc) as Hx.
    destruct (Angular_position it0) as [x|]; [|congruence]. simpl.
    apply IH. apply Forall_update_nth.
    + intros a Ha Hca. simpl. apply Ha. exact Hca.
    + apply Forall_forall. exact Hall.
Qed.

Lemma apply_orientation_correction_length (sequence_items : list nat) :
  forall store store',
    apply_orientation_correction sequence_items omega_trend phi_trend kappa_trend store = Ok store' ->
    length store' = length store.
Proof.
  induction sequence_items as [|i0 rest IH]; intros store store' H.
  - simpl in H. inversion H. reflexivity.
  - simpl in H. destruct (nth_error store i0) as [it0|]; [|apply IH; exact H].
    destruct (is_correctable it0); [|apply IH; exact H].
    destruct (Angular_position it0) as [x|]; simpl in H; [|discriminate H].
    rewrite (IH _ _ H). apply length_update_nth.
Qed.

Lemma apply_orientation_correction_reads (sequence_items : list nat) :
  forall store store',
    apply_orientation_correction sequence_items omega_trend phi_trend kappa_trend store = Ok store' ->
    forall i it, In i sequence_items -> nth_error store i = Some it ->
      is_correctable it = true -> Angular_position it <> None.
Proof.
  induction sequence_items as [|i0 rest IH]; intros store store' H i it Hin Hi Hc.
  - destruct Hin.
  - simpl in H. destruct (Nat.eq_dec i0 i) as [->|Hne].
    + rewrite Hi, Hc in H.
      destruct (Angular_position it); [discriminate | discriminate H].
    + destruct Hin as [->|Hin]; [congruence|].
      destruct (nth_error store i0) as [it0|]; [|exact (IH _ _ H i it Hin Hi Hc)].
      destruct (is_correctable it0); [|exact (IH _ _ H i it Hin Hi Hc)].
      destruct (Angular_position it0) as [x|]; simpl in H; [|discriminate H].
      apply (IH _ _ H i it Hin); [|exact Hc].
      rewrite nth_error_update_nth_other by exact Hne. exact Hi.
Qed.

Lemma is_correctable_status (it : item) :
  is_correctable it = true <->
  (Calibration_Status it = Some "visually calibrated" \/
   Calibration_Status it = Some "estimated").
Proof.
  unfold is_correctable, status_is. destruct (Calibration_Status it) as [s|].
  - rewrite orb_true_iff, !String.eqb_eq. split.
    + intros [->| ->]; [left | right]; reflexivity.
    + intros [[= ->]|[= ->]]; [left | right]; reflexivity.
  - split; [discriminate | intros [H|H]; discriminate H].
Qed.

Lemma not_correctable_status (it : item) :
  is_correctable it = false <->
  (Calibration_Status it <> Some "visually calibrated" /\
   Calibration_Status it <> Some "estimated").
Proof.
  pose proof (is_correctable_status it) as H.
  destruct (is_correctable it); split.
  - discriminate.
  - intros [H1 H2]. destruct (proj1 H eq_refl); contradiction.
  - intros _. split; intro E; [assert (F : false = true) by (apply H; left; exact E)
                              |assert (F : false = true) by (apply H; right; exact E)];
      discriminate F.
  - reflexivity.
Qed.

(** C8.  When the corrector returns, an item of the sequence whose status is
    visually calibrated or estimated has Omega, Phi and Kappa equal to the
    values of the three trends at its angular position, and its eight other
    fields as they were; every other item of the store (outside the
    sequence, or of any other status, or without a status) is the item it
    was.  The corrector returns whenever the items it corrects carry an
    angular position. *)
Theorem corrector_touches_only_correctable (sequence_items : list nat) (store : list item) :
  (Forall (fun it =>
             Calibration_Status it = Some "visually calibrated" \/
             Calibration_Status it = Some "estimated" ->
             Angular_position it <> None) store ->
   exists store',
     apply_orientation_correction sequence_items omega_trend phi_trend kappa_trend store = Ok store') /\
  (forall store',
     apply_orientation_correction sequence_items omega_trend phi_trend kappa_trend store = Ok store' ->
     length store' = length store /\
     forall i it, nth_error store i = Some it ->
       (In i sequence_items ->
        Calibration_Status it = Some "visually calibrated" \/
        Calibration_Status it = Some "estimated" ->
        exists x it',
          Angular_position it = Some x /\
          nth_error store' i = Some it' /\
          Omega it' = Some (omega_trend x) /\
          Phi it' = Some (phi_trend x) /\
          Kappa it' = Some (kappa_trend x) /\
          ImageNumber it' = ImageNumber it /\
          Timestamp it' = Timestamp it /\
          Sequence it' = Sequence it /\
          Calibration_Status it' = Calibration_Status it /\
          Angular_position it' = Angular_position it /\
          item_X it' = item_X it /\ item_Y it' = item_Y it /\ item_Z it' = item_Z it) /\
       (~ In i sequence_items \/
        (Calibration_Status it <> Some "visually calibrated" /\
         Calibration_Status it <> Some "estimated") ->
        nth_error store' i = Some it)).
Proof.
  split.
  - intro Hall. apply apply_orientation_correction_total.
    eapply Forall_impl; [|exact Hall]. intros it Hit Hc. apply Hit.
    apply is_correctable_status. exact Hc.
  - intros store' H. split; [eapply apply_orientation_correction_length; exact H|].
    intros i it Hi.
    pose proof (apply_orientation_correction_spec _ _ _ H i) as Hspec.
    rewrite Hi in Hspec. split.
    + intros Hin Hst. apply is_correctable_status in Hst.
      pose proof (apply_orientation_correction_reads _ _ _ H i it Hin Hi Hst) as Hx.
      destruct (Angular_position it) as [x|] eqn:Ex; [|congruence].
      exists x, (set_orientation (omega_trend x) (phi_trend x) (kappa_trend x) it).
      split; [reflexivity|]. split.
      * apply existsb_eqb_In in Hin. rewrite Hin in Hspec. rewrite Hspec. simpl.
        unfold fix_item, corrected. rewrite Hst, Ex. reflexivity.
      * simpl. rewrite Ex. repeat split; reflexivity.
    + intros [Hnin|Hst].
      * apply existsb_eqb_not_In in Hnin. rewrite Hnin in Hspec. exact Hspec.
      * apply not_correctable_status in Hst.
        rewrite Hspec. destruct (existsb (Nat.eqb i) sequence_items); [|reflexivity].
        simpl. unfold fix_item, corrected. rewrite Hst. reflexivity.
Qed.

End Corrector.

(** ** Sequences are processed independently *)

Lemma map_status_ext (store store' : list item) :
  (forall i, option_map Calibration_Status (nth_error store' i)
             = option_map Calibration_Status (nth_error store i)) ->
  map Calibration_Status store' = map Calibration_Status store.
Proof.
  intro H. apply nth_error_ext. intro i. rewrite !nth_error_map. apply H.
Qed.

Lemma process_sequence_frame (store store' : list item) (sequence_items : list nat) :
  process_sequence store sequence_items = Ok store' ->
  (forall i, ~ In i sequence_items -> nth_error store' i = nth_error store i) /\
  map Calibration_Status store' = map Calibration_Status store.
Proof.
  unfold process_sequence.
  destruct (length (filter (status_is "original") (deref store sequence_items)) <? 3)%nat.
  { intro H. inversion H; subst. split; reflexivity. }
  destruct (compute_sinusoidal_offsets _) as [[[[o p] k]|]|e]; simpl; try discriminate.
  intro H. split.
  - intros i Hi. rewrite (apply_orientation_correction_spec _ _ _ _ _ _ H i).
    apply existsb_eqb_not_In in Hi. rewrite Hi. reflexivity.
  - apply map_status_ext. intro i.
    rewrite (apply_orientation_correction_spec _ _ _ _ _ _ H i).
    destruct (existsb (Nat.eqb i) sequence_items); [|reflexivity].
    destruct (nth_error store i); [|reflexivity].
    simpl. rewrite corrected_status. reflexivity.
Qed.

Lemma process_sequences_frame (sequences : list (string * list nat)) :
  forall store store',
    process_sequences sequences store = Ok store' ->
    (forall i, ~ In i (flat_map snd sequences) -> nth_error store' i = nth_error store i) /\
    map Calibration_Status store' = map Calibration_Status store.
Proof.
  induction sequences as [|[k l] rest IH]; intros store store' H.
  - simpl in H. inversion H; subst. split; reflexivity.
  - simpl in H. destruct (process_sequence store l) as [store1|e] eqn:E1; simpl in H; [|discriminate H].
    destruct (process_sequence_frame _ _ _ E1) as [F1 S1].
    destruct (IH _ _ H) as [F2 S2]. split.
    + intros i Hi. simpl in Hi. rewrite in_app_iff in Hi.
      rewrite F2 by tauto. apply F1. tauto.
    + rewrite S2. exact S1.
Qed.

Lemma process_sequences_app (s1 s2 : list (string * list nat)) :
  forall store,
    process_sequences (s1 ++ s2) store
    = store' <- process_sequences s1 store ;; process_sequences s2 store'.
Proof.
  induction s1 as [|[k l] s1 IH]; intro store; simpl; [reflexivity|].
  destruct (process_sequence store l) as [store1|e]; simpl; [apply IH | reflexivity].
Qed.

Lemma deref_ext (store store' : list item) (refs : list nat) :
  (forall i, In i refs -> nth_error store' i = nth_error store i) ->
  deref store' refs = deref store refs.
Proof.
  intro H. unfold deref. induction refs as [|i refs IH]; simpl; [reflexivity|].
  rewrite H by (left; reflexivity). f_equal. apply IH.
  intros j Hj. apply H. right. exact Hj.
Qed.

(** The grouping hands every reference to exactly one sequence. *)
Lemma group_add_refs (k : string) (i : nat) (sequences : list (string * list nat)) :
  Permutation (flat_map snd (group_add k i sequences)) (i :: flat_map snd sequences).
Proof.
  induction sequences as [|[k' l] rest IH]; simpl; [reflexivity|].
  destruct (String.eqb k' k); simpl.
  - rewrite <- app_assoc. simpl.
    apply Permutation_sym, Permutation_middle.
  - rewrite IH. apply Permutation_sym.
    change (i :: l ++ flat_map snd rest) with ((i :: l) ++ flat_map snd rest).
    rewrite <- (Permutation_middle l (flat_map snd rest) i). reflexivity.
Qed.

Lemma group_from_refs (l : list item) :
  forall i sequences,
    Permutation (flat_map snd (group_from l i sequences))
                (seq i (length l) ++ flat_map snd sequences).
Proof.
  induction l as [|it l IH]; intros i sequences; simpl; [reflexivity|].
  rewrite IH, group_add_refs. apply Permutation_sym, Permutation_middle.
Qed.

Lemma group_sequences_NoDup (l : list item) : NoDup (flat_map snd (group_sequences l)).
Proof.
  unfold group_sequences.
  apply (Permutation_NoDup (Permutation_sym (group_from_refs l 0 []))).
  simpl. rewrite app_nil_r. apply seq_NoDup.
Qed.

Lemma NoDup_app_disjoint {A : Type} (l1 l2 : list A) :
  NoDup (l1 ++ l2) -> forall a, In a l1 -> ~ In a l2.
Proof.
  induction l1 as [|x l1 IH]; intros H a Ha; [destruct Ha|].
  simpl in H. apply NoDup_cons_iff in H. destruct H as [Hx Hnd].
  destruct Ha as [->|Ha].
  - intro Hin. apply Hx. apply in_or_app. right. exact Hin.
  - apply IH; assumption.
Qed.

Lemma NoDup_app_disjoint_r {A : Type} (l1 l2 : list A) :
  NoDup (l1 ++ l2) -> forall a, In a l2 -> ~ In a l1.
Proof.
  intros H a H2 H1. exact (NoDup_app_disjoint _ _ H a H1 H2).
Qed.

Lemma process_sequence_skip (store : list item) (sequence_items : list nat) :
  (length (filter (status_is "original") (deref store sequence_items)) < 3)%nat ->
  process_sequence store sequence_items = Ok store.
Proof.
  intro H. unfold process_sequence. apply Nat.ltb_lt in H. rewrite H. reflexivity.
Qed.

(** C7.  A sequence of a step with fewer than 3 original items is skipped:
    nothing is fitted, nothing is raised, and whatever its status every one
    of its items is after the stage the item it was before; the stage does
    to the other sequences of the step what it would do without it. *)
Theorem few_originals_sequence_untouched (l : list item)
    (pre post : list (string * list nat)) (sid : string) (sequence_items : list nat) :
  group_sequences l = pre ++ (sid, sequence_items) :: post ->
  (length (filter (status_is "original") (deref l sequence_items)) < 3)%nat ->
  process_sequence l sequence_items = Ok l /\
  propagate_step l = process_sequences (pre ++ post) l /\
  (forall l', propagate_step l = Ok l' ->
     forall i, In i sequence_items -> nth_error l' i = nth_error l i).
Proof.
  intros Hg Hfew.
  pose proof (group_sequences_NoDup l) as Hnd. rewrite Hg in Hnd.
  rewrite flat_map_app in Hnd. simpl in Hnd.
  assert (Hpre : forall i, In i sequence_items -> ~ In i (flat_map snd pre)).
  { intros i Hi. apply (NoDup_app_disjoint_r _ _ Hnd). apply in_or_app. left. exact Hi. }
  assert (Hpost : forall i, In i sequence_items -> ~ In i (flat_map snd post)).
  { intros i Hi. apply NoDup_app_remove_l in Hnd.
    exact (NoDup_app_disjoint _ _ Hnd i Hi). }
  assert (Heq : propagate_step l = process_sequences (pre ++ post) l).
  { unfold propagate_step. rewrite Hg, !process_sequences_app.
    destruct (process_sequences pre l) as [store1|e] eqn:E1; simpl; [|reflexivity].
    destruct (process_sequences_frame _ _ _ E1) as [F1 _].
    rewrite process_sequence_skip; [reflexivity|].
    rewrite (deref_ext l store1); [exact Hfew|].
    intros i Hi. apply F1. apply Hpre. exact Hi. }
  split; [apply process_sequence_skip; exact Hfew|].
  split; [exact Heq|].
  intros l' Hl' i Hi. rewrite Heq in Hl'.
  destruct (process_sequences_frame _ _ _ Hl') as [F _].
  apply F. rewrite flat_map_app, in_app_iff.
  intros [H|H]; [exact (Hpre i Hi H) | exact (Hpost i Hi H)].
Qed.

(** ** The segment scan *)

Lemma runs_snoc (acc : list segment) (p i : nat) (cur : list nat) :
  runs (acc ++ [(p, i, cur)]) ++ [] = runs acc ++ cur.
Proof.
  unfold runs. rewrite flat_map_app. simpl. rewrite !app_nil_r. reflexivity.
Qed.

Lemma nth_error_middle (pre l : list item) (it : item) :
  nth_error (pre ++ it :: l) (length pre) = Some it.
Proof.
  rewrite nth_error_app2 by lia. rewrite Nat.sub_diag. reflexivity.
Qed.

Lemma scan_ok (l : list item) :
  forall pre i prev cur acc,
    i = length pre ->
    scan_inv (pre ++ l) i prev cur acc ->
    segments_ok (pre ++ l) (scan l i prev cur acc).
Proof.
  induction l as [|it l IH]; intros pre i prev cur acc Hi Hinv.
  - simpl. destruct Hinv as (Hb & _ & Ha & Hnd).
    split; [|split; [exact Ha | exact (NoDup_app_remove_r _ _ Hnd)]].
    intros j Hj. apply Hb. apply in_or_app. left. exact Hj.
  - assert (Efull : pre ++ it :: l = (pre ++ [it]) ++ l)
      by (rewrite <- app_assoc; reflexivity).
    assert (Hlen : S i = length (pre ++ [it]))
      by (rewrite length_app; simpl; lia).
    assert (Hit : nth_error (pre ++ it :: l) i = Some it)
      by (subst i; apply nth_error_middle).
    destruct Hinv as (Hb & Hp & Ha & Hnd).
    assert (Hb' : forall j, In j (runs acc ++ cur) ->
                   (j < S i)%nat /\ uncalibrated_at (pre ++ it :: l) j).
    { intros j Hj. destruct (Hb j Hj). split; [lia | assumption]. }
    simpl scan. destruct (is_anchor it) eqn:Hanc.
    + assert (Hai : anchor_at (pre ++ it :: l) i) by (exists it; split; assumption).
      assert (Hp' : forall p, Some i = Some p -> anchor_at (pre ++ it :: l) p)
        by (intros p [= <-]; exact Hai).
      destruct prev as [p|].
      * destruct cur as [|c cs].
        -- rewrite Efull. apply (IH _ _ _ _ _ Hlen). rewrite <- Efull.
           split; [exact Hb'|]. split; [exact Hp'|]. split; [exact Ha | exact Hnd].
        -- rewrite Efull. apply (IH _ _ _ _ _ Hlen). rewrite <- Efull.
           unfold scan_inv. rewrite runs_snoc.
           split; [exact Hb'|]. split; [exact Hp'|]. split; [|exact Hnd].
           intros s e run Hin. apply in_app_or in Hin. destruct Hin as [Hin|[Hin|[]]].
           ++ exact (Ha _ _ _ Hin).
           ++ inversion Hin; subst. split; [apply Hp; reflexivity | exact Hai].
      * rewrite Efull. apply (IH _ _ _ _ _ Hlen). rewrite <- Efull.
        destruct cur; (split; [exact Hb'|]; split; [exact Hp'|]; split; [exact Ha | exact Hnd]).
    + destruct (is_uncalibrated it) eqn:Hunc.
      * rewrite Efull. apply (IH _ _ _ _ _ Hlen). rewrite <- Efull.
        unfold scan_inv. rewrite app_assoc.
        split; [|split; [exact Hp|]; split; [exact Ha|]].
        -- intros j Hj. apply in_app_or in Hj. destruct Hj as [Hj|[<-|[]]].
           ++ exact (Hb' j Hj).
           ++ split; [lia | exists it; split; assumption].
        -- apply NoDup_app; [exact Hnd | repeat constructor; intros [] |].
           intros j Hj [E|[]]. subst j. destruct (Hb i Hj). lia.
      * rewrite Efull. apply (IH _ _ _ _ _ Hlen). rewrite <- Efull.
        split; [exact Hb'|]. split; [exact Hp|]. split; [exact Ha | exact Hnd].
Qed.

Lemma find_segments_ok (l : list item) : segments_ok l (find_segments l).
Proof.
  unfold find_segments. apply (scan_ok l [] 0 None [] []); [reflexivity|].
  split; [intros j []|]. split; [intros p [=]|]. split; [intros s e run []|constructor].
Qed.

(** ** Statuses through gap interpolation *)

Lemma is_uncalibrated_status (it : item) :
  is_uncalibrated it = true <-> Calibration_Status it = Some "uncalibrated".
Proof.
  unfold is_uncalibrated, status_is. destruct (Calibration_Status it) as [s|].
  - rewrite String.eqb_eq. split; [intros ->; reflexivity | intros [= ->]; reflexivity].
  - split; discriminate.
Qed.

Lemma Forall2_update_nth_r {A B : Type} (R : A -> B -> Prop) (f : B -> B) :
  forall (l : list A) (l' : list B) (i : nat),
    Forall2 R l l' ->
    (forall a b, nth_error l i = Some a -> R a (f b)) ->
    Forall2 R l (update_nth i f l').
Proof.
  intros l l' i H. revert i. induction H as [|a b l l' Hab H IH]; intros i Hf.
  - destruct i; constructor.
  - destruct i as [|i]; simpl.
    + constructor; [apply Hf; reflexivity | exact H].
    + constructor; [exact Hab | apply IH; intros a' b' Ha'; apply Hf; exact Ha'].
Qed.

Lemma set_estimated_status (theta radius z_value : Qc) (it : item) :
  Calibration_Status (set_estimated theta radius z_value it) = Some "estimated".
Proof.
  unfold set_estimated. destruct (angle_to_xy L theta radius) as [[x y] w]. reflexivity.
Qed.

Lemma assign_status (base : list item) (radius z_value : Qc) (run : list nat) :
  (forall j, In j run -> uncalibrated_at base j) ->
  forall thetas store,
    Forall2 status_step base store ->
    Forall2 status_step base (assign radius z_value run thetas store).
Proof.
  induction run as [|i run IH]; intros Hrun thetas store H; [exact H|].
  destruct thetas as [|theta thetas]; [exact H|]. simpl.
  apply IH; [intros j Hj; apply Hrun; right; exact Hj|].
  apply Forall2_update_nth_r; [exact H|].
  intros a b Ha. right. rewrite set_estimated_status. split; [|reflexivity].
  destruct (Hrun i (or_introl eq_refl)) as [it [Hit Hu]].
  rewrite Hit in Ha. inversion Ha; subst. apply is_uncalibrated_status. exact Hu.
Qed.

Lemma process_segment_status (base : list item) (radius z_value : Qc) (seg : segment) :
  (forall j, In j (snd seg) -> uncalibrated_at base j) ->
  forall store,
    Forall2 status_step base store ->
    Forall2 status_step base (process_segment radius z_value store seg).
Proof.
  destruct seg as [[s e] run]. simpl. intros Hrun store H.
  unfold process_segment.
  destruct (theta_at store s); [|exact H].
  destruct (theta_at store e); [|exact H].
  destruct (Qcltb _ _); [exact H|].
  apply assign_status; assumption.
Qed.

Lemma fold_process_segment_status (base : list item) (radius z_value : Qc) (segs : list segment) :
  (forall j, In j (runs segs) -> uncalibrated_at base j) ->
  forall store,
    Forall2 status_step base store ->
    Forall2 status_step base (fold_left (process_segment radius z_value) segs store).
Proof.
  induction segs as [|seg segs IH]; intros Hrun store H; [exact H|].
  simpl. apply IH.
  - intros j Hj. apply Hrun. unfold runs. simpl. apply in_or_app. right. exact Hj.
  - apply process_segment_status; [|exact H].
    intros j Hj. apply Hrun. unfold runs. simpl. apply in_or_app. left. exact Hj.
Qed.

Lemma Forall2_status_refl (l : list item) : Forall2 status_step l l.
Proof. induction l; constructor; [left; reflexivity | assumption]. Qed.

(** Sorting permutes the items. *)
Lemma insert_by_key_perm {A : Type} (x : sort_key * A) (l : list (sort_key * A)) :
  Permutation (insert_by_key x l) (x :: l).
Proof.
  induction l as [|y l IH]; simpl; [reflexivity|].
  destruct (key_leb (fst x) (fst y)); [reflexivity|].
  rewrite IH. apply perm_swap.
Qed.

Lemma sort_by_key_perm {A : Type} (l : list (sort_key * A)) : Permutation (sort_by_key l) l.
Proof.
  induction l as [|x l IH]; simpl; [reflexivity|].
  rewrite insert_by_key_perm. constructor. exact IH.
Qed.

Lemma keyed_snd (l : list item) :
  forall keyed,
    mapM (fun it => k <- item_sort_key it ;; Ok (k, it)) l = Ok keyed -> map snd keyed = l.
Proof.
  induction l as [|it l IH]; intros keyed H; simpl in H.
  - inversion H. reflexivity.
  - destruct (item_sort_key it) as [k|e]; simpl in H; [|discriminate H].
    destruct (mapM _ l) as [ks|e]; simpl in H; [|discriminate H].
    inversion H; subst. simpl. rewrite (IH ks eq_refl). reflexivity.
Qed.

Lemma sort_items_perm (l sorted : list item) :
  sort_items l = Ok sorted -> Permutation l sorted.
Proof.
  unfold sort_items. intro H.
  destruct (mapM _ l) as [keyed|e] eqn:E; simpl in H; [|discriminate H].
  inversion H; subst. rewrite <- (keyed_snd _ _ E) at 1.
  apply Permutation_map, Permutation_sym, sort_by_key_perm.
Qed.

Lemma interpolate_step_status (info info' : step_info) :
  interpolate_step info = Ok info' ->
  exists sorted, Permutation (items info) sorted /\ Forall2 status_step sorted (items info').
Proof.
  unfold interpolate_step. intro H.
  assert (Hskip : Ok info = Ok info' ->
            exists sorted, Permutation (items info) sorted /\ Forall2 status_step sorted (items info')).
  { intro E. inversion E; subst. exists (items info').
    split; [reflexivity | apply Forall2_status_refl]. }
  destruct (axis_center info); [|exact (Hskip H)].
  destruct (calculated_radius info) as [radius|]; [|exact (Hskip H)].
  destruct (calculated_z info) as [z_value|]; [|exact (Hskip H)].
  destruct (sort_items (items info)) as [sorted|e] eqn:Es; simpl in H; [|discriminate H].
  inversion H; subst. simpl. exists sorted. split; [apply sort_items_perm; exact Es|].
  apply fold_process_segment_status; [|apply Forall2_status_refl].
  destruct (find_segments_ok sorted) as [Hu _]. exact Hu.
Qed.

Lemma mapM_Forall2 {A B : Type} (f : A -> result B) (l : list A) :
  forall l', mapM f l = Ok l' -> Forall2 (fun a b => f a = Ok b) l l'.
Proof.
  induction l as [|a l IH]; intros l' H; simpl in H.
  - inversion H. constructor.
  - destruct (f a) as [b|e] eqn:Ea; simpl in H; [|discriminate H].
    destruct (mapM f l) as [bs|e]; simpl in H; [|discriminate H].
    inversion H; subst. constructor; [exact Ea | apply IH; reflexivity].
Qed.

(** ** What a segment writes *)

Lemma assign_other (radius z_value : Qc) (run : list nat) (i : nat) :
  ~ In i run ->
  forall thetas store,
    nth_error (assign radius z_value run thetas store) i = nth_error store i.
Proof.
  induction run as [|j run IH]; intros Hi thetas store; [reflexivity|].
  destruct thetas as [|theta thetas]; [reflexivity|]. simpl.
  rewrite IH by (intro H; apply Hi; right; exact H).
  apply nth_error_update_nth_other. intro E. apply Hi. left. exact E.
Qed.

Lemma process_segment_other (radius z_value : Qc) (store : list item) (seg : segment) (i : nat) :
  ~ In i (snd seg) ->
  nth_error (process_segment radius z_value store seg) i = nth_error store i.
Proof.
  destruct seg as [[s e] run]. simpl. intro Hi. unfold process_segment.
  destruct (theta_at store s); [|reflexivity].
  destruct (theta_at store e); [|reflexivity].
  destruct (Qcltb _ _); [reflexivity|].
  apply assign_other. exact Hi.
Qed.

Lemma fold_process_segment_other (radius z_value : Qc) (segs : list segment) (i : nat) :
  ~ In i (runs segs) ->
  forall store,
    nth_error (fold_left (process_segment radius z_value) segs store) i = nth_error store i.
Proof.
  induction segs as [|seg segs IH]; intros Hi store; [reflexivity|].
  unfold runs in Hi. simpl in Hi. rewrite in_app_iff in Hi. simpl.
  rewrite IH by (intro H; apply Hi; right; exact H).
  apply process_segment_other. intro H. apply Hi. left. exact H.
Qed.

Lemma anchor_not_uncalibrated (l : list item) (i : nat) :
  anchor_at l i -> uncalibrated_at l i -> False.
Proof.
  intros [it [Hit Ha]] [it' [Hit' Hu]]. rewrite Hit in Hit'. inversion Hit'; subst it'.
  apply is_uncalibrated_status in Hu.
  unfold is_anchor, status_is in Ha. rewrite Hu in Ha. discriminate Ha.
Qed.

Lemma assign_ext (radius z_value : Qc) (run : list nat) (i : nat) :
  forall thetas store1 store2,
    In i run ->
    (forall j, In j run -> nth_error store1 j = nth_error store2 j) ->
    nth_error (assign radius z_value run thetas store1) i
    = nth_error (assign radius z_value run thetas store2) i.
Proof.
  induction run as [|j run IH]; intros thetas store1 store2 Hi Hsame; [destruct Hi|].
  destruct thetas as [|theta thetas]; simpl; [apply Hsame; exact Hi|].
  destruct (in_dec Nat.eq_dec i run) as [Hin|Hnin].
  - apply IH; [exact Hin|].
    intros k Hk. rewrite !nth_error_update_nth.
    rewrite Hsame by (right; exact Hk). reflexivity.
  - destruct Hi as [->|Hi]; [|contradiction].
    rewrite !assign_other by exact Hnin.
    rewrite !nth_error_update_nth_same. rewrite Hsame by (left; reflexivity). reflexivity.
Qed.

(** ** Reading a key of every item *)

Lemma mapM_getitem_total {A : Type} (key : string) (field : item -> option A) (l : list item) :
  Forall (fun it => has (field it) = true) l ->
  exists v, mapM (fun it => getitem key (field it)) l = Ok v.
Proof.
  induction 1 as [|it l Hit H IH]; [exists []; reflexivity|].
  destruct IH as [v IH]. simpl. rewrite IH.
  destruct (field it) as [a|]; [|discriminate Hit]. simpl. eexists. reflexivity.
Qed.

(** ** The floored modulo is unique *)

Lemma Qfloor_unique (q : Q) (k : Z) :
  (inject_Z k <= q)%Q -> (q < inject_Z (k + 1))%Q -> Qfloor q = k.
Proof.
  intros Hlo Hhi.
  pose proof (Qfloor_le q) as Flo. pose proof (Qlt_floor q) as Fhi.
  assert (H1 : (Qfloor q < k + 1)%Z).
  { rewrite Zlt_Qlt. eapply Qle_lt_trans; [exact Flo | exact Hhi]. }
  assert (H2 : (k < Qfloor q + 1)%Z).
  { rewrite Zlt_Qlt. eapply Qle_lt_trans; [exact Hlo | exact Fhi]. }
  lia.
Qed.

Lemma py_mod_unique (a m r : Qc) (k : Z) :
  0 < m -> 0 <= r -> r < m -> a = r + m * Qc_of_Z k -> py_mod a m = r.
Proof.
  intros Hm Hr0 Hrm Ea. unfold py_mod.
  assert (Hm' : (0 < this m)%Q) by exact Hm.
  assert (Ea' : (this a == this r + this m * inject_Z k)%Q).
  { rewrite Ea. to_Q. reflexivity. }
  assert (Hr0' : (0 <= this r)%Q) by exact Hr0.
  assert (Hrm' : (this r < this m)%Q) by exact Hrm.
  assert (Ef : Qfloor (this a / this m) = k).
  { apply Qfloor_unique.
    - apply Qle_shift_div_l; [exact Hm'|]. rewrite Ea'. nra.
    - apply Qlt_shift_div_r; [exact Hm'|]. rewrite Ea', inject_Z_plus.
      change (inject_Z 1) with 1%Q. nra. }
  rewrite Ef, Ea. ring.
Qed.

Lemma Qc_of_Z_plus (x y : Z) : Qc_of_Z (x + y) = Qc_of_Z x + Qc_of_Z y.
Proof.
  apply Qc_is_canon. rewrite this_plus, !this_of_Z. rewrite inject_Z_plus. reflexivity.
Qed.

(** ** Rounding to the nearest double *)

Lemma pow2_pos (e : Z) : (0 < pow2 e)%Q.
Proof. apply Qpower_0_lt. reflexivity. Qed.

Lemma pow2_le (a b : Z) : (a <= b)%Z -> (pow2 a <= pow2 b)%Q.
Proof. intro H. apply Qpower_le_compat_l; [exact H | discriminate]. Qed.

Lemma pow2_lt_inv (a b : Z) : (pow2 a < pow2 b)%Q -> (a < b)%Z.
Proof. intro H. apply (Qpower_lt_compat_l_inv (2 # 1)); [exact H | reflexivity]. Qed.

Lemma pow2_minus (a b : Z) : (pow2 (a - b) == pow2 a / pow2 b)%Q.
Proof. apply Qpower_minus. discriminate. Qed.

Lemma pow2_Z (e : Z) : (0 <= e)%Z -> (pow2 e == inject_Z (2 ^ e))%Q.
Proof. intro H. unfold pow2. rewrite Zpower_Qpower by exact H. reflexivity. Qed.

Lemma round_half_even_bounds (q : Q) :
  (Qfloor q <= round_half_even q <= Qfloor q + 1)%Z.
Proof.
  unfold round_half_even. destruct (_ ?= _)%Q; [destruct (Z.even _)| |]; lia.
Qed.

Lemma round_half_even_cases (q : Q) :
  ((q - inject_Z (Qfloor q) < 1 # 2)%Q /\ round_half_even q = Qfloor q) \/
  ((q - inject_Z (Qfloor q) == 1 # 2)%Q /\
   round_half_even q = if Z.even (Qfloor q) then Qfloor q else (Qfloor q + 1)%Z) \/
  ((1 # 2 < q - inject_Z (Qfloor q))%Q /\ round_half_even q = (Qfloor q + 1)%Z).
Proof.
  unfold round_half_even.
  destruct (q - inject_Z (Qfloor q) ?= 1 # 2)%Q eqn:C.
  - right. left. split; [apply (proj2 (Qeq_alt _ _)); exact C | reflexivity].
  - left. split; [apply (proj2 (Qlt_alt _ _)); exact C | reflexivity].
  - right. right. split; [apply (proj2 (Qgt_alt _ _)); exact C | reflexivity].
Qed.

Lemma round_half_even_mono (x y : Q) : (x <= y)%Q -> (round_half_even x <= round_half_even y)%Z.
Proof.
  intro H. pose proof (Qfloor_resp_le _ _ H) as Hf.
  destruct (Z.eq_dec (Qfloor x) (Qfloor y)) as [E|N].
  - destruct (round_half_even_cases x) as [[Cx ->]|[[Cx ->]|[Cx ->]]];
      destruct (round_half_even_cases y) as [[Cy ->]|[[Cy ->]|[Cy ->]]];
      rewrite <- E in *; try (destruct (Z.even (Qfloor x)); lia); try lia; exfalso; lra.
  - pose proof (round_half_even_bounds x). pose proof (round_half_even_bounds y). lia.
Qed.

Lemma round_half_even_Z (z : Z) : round_half_even (inject_Z z) = z.
Proof.
  unfold round_half_even. rewrite Qfloor_Z.
  assert (E : (inject_Z z - inject_Z z ?= 1 # 2)%Q = Lt).
  { apply (proj1 (Qlt_alt _ _)). lra. }
  rewrite E. reflexivity.
Qed.

Lemma round_half_even_eq (x y : Q) : (x == y)%Q -> round_half_even x = round_half_even y.
Proof.
  intro H. apply Z.le_antisymm; apply round_half_even_mono; rewrite H; apply Qle_refl.
Qed.

Lemma scaled_mono (e : Z) (x y : Q) :
  (x <= y)%Q ->
  (inject_Z (round_half_even (x / pow2 e)) * pow2 e
   <= inject_Z (round_half_even (y / pow2 e)) * pow2 e)%Q.
Proof.
  intro H. pose proof (pow2_pos e) as Hp.
  apply Qmult_le_compat_r; [|apply Qlt_le_weak; exact Hp].
  rewrite <- Zle_Qle. apply round_half_even_mono.
  apply Qmult_le_compat_r; [exact H|].
  apply Qlt_le_weak, Qinv_lt_0_compat. exact Hp.
Qed.

Lemma scaled_fix (e j : Z) :
  (e <= j)%Z ->
  (inject_Z (round_half_even (pow2 j / pow2 e)) * pow2 e == pow2 j)%Q.
Proof.
  intro H. pose proof (pow2_pos e) as Hp.
  assert (E : (pow2 j / pow2 e == inject_Z (2 ^ (j - e)))%Q).
  { rewrite <- pow2_minus. apply pow2_Z. lia. }
  rewrite (round_half_even_eq _ _ E), round_half_even_Z, <- E.
  field. intro H0. rewrite H0 in Hp. exact (Qlt_irrefl _ Hp).
Qed.

Lemma ilog2_spec (q : Q) :
  (0 < q)%Q -> (pow2 (ilog2 q) <= q)%Q /\ (q < pow2 (ilog2 q + 1))%Q.
Proof.
  intro Hq. destruct q as [n d]. unfold ilog2. cbn [Qnum Qden].
  assert (Hn : (0 < n)%Z).
  { unfold Qlt in Hq. simpl in Hq. lia. }
  pose proof (Z.log2_spec n Hn) as [Hn1 Hn2].
  pose proof (Z.log2_spec (Z.pos d) (Pos2Z.is_pos d)) as [Hd1 Hd2].
  pose proof (Z.log2_nonneg n) as Ln. pose proof (Z.log2_nonneg (Z.pos d)) as Ld.
  set (ln := Z.log2 n) in *. set (ld := Z.log2 (Z.pos d)) in *.
  assert (Eq : (n # d == inject_Z n / inject_Z (Z.pos d))%Q) by apply Qmake_Qdiv.
  assert (Hd0 : (0 < inject_Z (Z.pos d))%Q) by (rewrite <- (Zlt_Qlt 0); lia).
  assert (Hup : (n # d < pow2 (ln - ld + 1))%Q).
  { replace (ln - ld + 1)%Z with ((ln + 1) - ld)%Z by lia.
    rewrite pow2_minus, !pow2_Z by lia. rewrite Eq.
    apply Qlt_shift_div_l; [rewrite <- (Zlt_Qlt 0); lia|].
    unfold Qdiv. rewrite <- Qmult_assoc, (Qmult_comm (/ _)), Qmult_assoc.
    apply Qlt_shift_div_r; [exact Hd0|].
    rewrite <- !inject_Z_mult, <- Zlt_Qlt.
    replace (Z.succ ln) with (ln + 1)%Z in Hn2 by lia. nia. }
  assert (Hlo : (pow2 (ln - ld - 1) <= n # d)%Q).
  { replace (ln - ld - 1)%Z with (ln - (ld + 1))%Z by lia.
    rewrite pow2_minus, !pow2_Z by lia. rewrite Eq.
    apply Qle_shift_div_r; [rewrite <- (Zlt_Qlt 0); lia|].
    unfold Qdiv. rewrite <- Qmult_assoc, (Qmult_comm (/ _)), Qmult_assoc.
    apply Qle_shift_div_l; [exact Hd0|].
    rewrite <- !inject_Z_mult, <- Zle_Qle.
    replace (Z.succ ld) with (ld + 1)%Z in Hd2 by lia. nia. }
  destruct (Qle_bool (pow2 (ln - ld)) (n # d)) eqn:C.
  - split; [apply Qle_bool_iff; exact C | exact Hup].
  - split; [exact Hlo|].
    replace (ln - ld - 1 + 1)%Z with (ln - ld)%Z by lia.
    apply Qnot_le_lt. intro H. apply Qle_bool_iff in H. congruence.
Qed.

Lemma ilog2_mono (x y : Q) : (0 < x)%Q -> (x <= y)%Q -> (ilog2 x <= ilog2 y)%Z.
Proof.
  intros Hx Hxy.
  assert (Hy : (0 < y)%Q) by (eapply Qlt_le_trans; eassumption).
  destruct (ilog2_spec x Hx) as [Lx _]. destruct (ilog2_spec y Hy) as [_ Uy].
  assert (H : (ilog2 x < ilog2 y + 1)%Z).
  { apply pow2_lt_inv. eapply Qle_lt_trans; [exact Lx|].
    eapply Qle_lt_trans; [exact Hxy | exact Uy]. }
  lia.
Qed.

Lemma round_magnitude_zero (q : Q) : (q == 0)%Q -> (round_magnitude q == 0)%Q.
Proof.
  intro H. unfold round_magnitude.
  assert (E : (q / pow2 (ulp_exponent q) == inject_Z 0)%Q).
  { unfold Qdiv. rewrite (Qmult_comp _ _ H _ _ (Qeq_refl _)). ring. }
  rewrite (round_half_even_eq _ _ E), round_half_even_Z. ring.
Qed.

Lemma round_magnitude_nonneg (q : Q) : (0 <= q)%Q -> (0 <= round_magnitude q)%Q.
Proof.
  intro H. unfold round_magnitude.
  pose proof (scaled_mono (ulp_exponent q) 0 q H) as M.
  assert (E : (0 / pow2 (ulp_exponent q) == inject_Z 0)%Q) by (unfold Qdiv; ring).
  rewrite (round_half_even_eq _ _ E), round_half_even_Z in M.
  eapply Qle_trans; [|exact M]. apply Qle_lteq. right. ring.
Qed.

Lemma round_magnitude_mono (x y : Q) :
  (0 <= x)%Q -> (x <= y)%Q -> (round_magnitude x <= round_magnitude y)%Q.
Proof.
  intros Hx Hxy.
  assert (Hy : (0 <= y)%Q) by (eapply Qle_trans; eassumption).
  destruct (Qlt_le_dec 0 x) as [Px|Zx].
  2:{ rewrite (round_magnitude_zero x) by (apply Qle_antisym; assumption).
      apply round_magnitude_nonneg. exact Hy. }
  assert (Py : (0 < y)%Q) by (eapply Qlt_le_trans; eassumption).
  pose proof (ilog2_mono x y Px Hxy) as Hk.
  destruct (ilog2_spec x Px) as [_ Ux]. destruct (ilog2_spec y Py) as [Ly _].
  unfold round_magnitude, ulp_exponent.
  set (kx := ilog2 x) in *. set (ky := ilog2 y) in *.
  destruct (Z.eq_dec (Z.max (kx - 52) (-1074)) (Z.max (ky - 52) (-1074))) as [E|N].
  - rewrite E. apply scaled_mono. exact Hxy.
  - set (ex := Z.max (kx - 52) (-1074)) in *. set (ey := Z.max (ky - 52) (-1074)) in *.
    assert (Hlt : (kx < ky)%Z) by lia.
    assert (Eey : ey = (ky - 52)%Z) by lia.
    set (j := Z.max (kx + 1) ex).
    apply Qle_trans with (pow2 j).
    + rewrite <- (scaled_fix ex j) by lia.
      apply scaled_mono. apply Qle_trans with (pow2 (kx + 1)).
      * apply Qlt_le_weak. exact Ux.
      * apply pow2_le. lia.
    + apply Qle_trans with (pow2 ky); [apply pow2_le; lia|].
      rewrite <- (scaled_fix ey ky) at 1 by lia.
      apply scaled_mono. exact Ly.
Qed.

Lemma round_b64_Q_mono (x y : Q) : (x <= y)%Q -> (round_b64_Q x <= round_b64_Q y)%Q.
Proof.
  intro H. unfold round_b64_Q.
  destruct (Qle_bool 0 x) eqn:Cx; destruct (Qle_bool 0 y) eqn:Cy.
  - apply Qle_bool_iff in Cx. apply round_magnitude_mono; assumption.
  - apply Qle_bool_iff in Cx.
    assert (Hy : (0 <= y)%Q) by (eapply Qle_trans; eassumption).
    apply Qle_bool_iff in Hy. congruence.
  - apply Qle_bool_iff in Cy.
    assert (Hx : (0 <= - x)%Q).
    { destruct (Qlt_le_dec x 0) as [l|l]; [lra | apply Qle_bool_iff in l; congruence]. }
    pose proof (round_magnitude_nonneg _ Hx). pose proof (round_magnitude_nonneg _ Cy). lra.
  - assert (Hy : (0 <= - y)%Q).
    { destruct (Qlt_le_dec y 0) as [l|l]; [lra | apply Qle_bool_iff in l; congruence]. }
    assert (Hyx : (- y <= - x)%Q) by lra.
    pose proof (round_magnitude_mono _ _ Hy Hyx). lra.
Qed.

Lemma round_b64_mono (x y : Qc) : x <= y -> round_b64 x <= round_b64 y.
Proof.
  intro H. unfold round_b64, Qcle. simpl. rewrite !Qred_correct.
  apply round_b64_Q_mono. exact H.
Qed.

Lemma round_b64_fixes (x : Qc) : (round_b64_Q (this x) == this x)%Q -> round_b64 x = x.
Proof. intro H. apply Qc_is_canon. unfold round_b64. rewrite this_Q2Qc. exact H. Qed.

Lemma round_b64_0 : round_b64 0 = 0.
Proof. apply round_b64_fixes. vm_compute. reflexivity. Qed.
Lemma round_b64_180 : round_b64 (Qc_of_Z 180) = Qc_of_Z 180.
Proof. apply round_b64_fixes. vm_compute. reflexivity. Qed.
Lemma round_b64_minus_180 : round_b64 (- Qc_of_Z 180) = - Qc_of_Z 180.
Proof. apply round_b64_fixes. vm_compute. reflexivity. Qed.
Lemma round_b64_360 : round_b64 (Qc_of_Z 360) = Qc_of_Z 360.
Proof. apply round_b64_fixes. vm_compute. reflexivity. Qed.

(** ** The remainder on doubles *)

Lemma fmod_bounds (a m : Qc) : 0 < m -> - m < fmod a m /\ fmod a m < m.
Proof.
  intro Hm. unfold fmod.
  assert (Hm' : (0 < this m)%Q) by exact Hm.
  assert (Hm0 : ~ (this m == 0)%Q).
  { intro H0. rewrite H0 in Hm'. exact (Qlt_irrefl _ Hm'). }
  assert (Ediv : (this a / this m * this m == this a)%Q) by (field; exact Hm0).
  destruct (Qle_bool 0 (this a / this m)) eqn:C.
  - destruct (py_mod_bounds a m Hm) as [Hlo Hhi]. unfold py_mod in Hlo, Hhi.
    split; [|exact Hhi].
    apply Qclt_le_trans with 0; [|exact Hlo].
    unfold Qclt. rewrite this_opp. change (this 0) with 0%Q. lra.
  - assert (Hneg : (this a / this m < 0)%Q).
    { apply Qnot_le_lt. intro H. apply Qle_bool_iff in H. congruence. }
    pose proof (Qle_ceiling (this a / this m)) as Hc1.
    pose proof (Qceiling_lt (this a / this m)) as Hc2.
    set (t := Qceiling (this a / this m)) in *.
    unfold Z.sub in Hc2. rewrite inject_Z_plus in Hc2. change (inject_Z (-1)) with (-1 # 1)%Q in Hc2.
    assert (H1 : (this a <= inject_Z t * this m)%Q).
    { rewrite <- Ediv. apply Qmult_le_compat_r; [exact Hc1 | apply Qlt_le_weak; exact Hm']. }
    assert (H2 : ((inject_Z t + (-1 # 1)) * this m < this a)%Q).
    { rewrite <- Ediv. apply Qmult_lt_compat_r; [exact Hm' | exact Hc2]. }
    clearbody t. clear Hc1 Hc2 Ediv Hneg C.
    split; to_Q; nra.
Qed.

(** Without rounding, the remainder on doubles is the floored modulo. *)
Lemma float_rem_exact (a m : Qc) :
  0 < m ->
  (if Qcltb (fmod a m) 0 then fmod a m + m else fmod a m) = py_mod a m.
Proof.
  intro Hm. destruct (fmod_bounds a m Hm) as [Hlo Hhi].
  destruct (Qcltb (fmod a m) 0) eqn:C.
  - apply Qcltb_lt in C. symmetry. revert Hlo Hhi C. unfold fmod.
    set (t := if Qle_bool 0 (this a / this m) then _ else _). intros Hlo Hhi C.
    apply (py_mod_unique a m _ (t - 1) Hm).
    + revert Hlo. to_Q. change (this 0) with 0%Q. intro Hlo. lra.
    + revert C. to_Q. change (this 0) with 0%Q. intro C. lra.
    + assert (E : Qc_of_Z (t - 1) = Qc_of_Z t - 1).
      { apply Qc_is_canon. rewrite this_minus, !this_of_Z.
        unfold Z.sub. rewrite inject_Z_plus. reflexivity. }
      rewrite E. ring.
  - apply Qcltb_ge in C. symmetry. revert Hlo Hhi C. unfold fmod.
    set (t := if Qle_bool 0 (this a / this m) then _ else _). intros Hlo Hhi C.
    apply (py_mod_unique a m _ t Hm); [exact C | exact Hhi | ring].
Qed.

Lemma float_mod_range (a m : Qc) :
  0 < m -> round_b64 0 = 0 -> round_b64 m = m ->
  0 <= float_mod a m /\ float_mod a m <= m.
Proof.
  intros Hm R0 Rm. destruct (fmod_bounds a m Hm) as [Hlo Hhi].
  unfold float_mod. set (r := fmod a m) in *. clearbody r.
  assert (Hm' : Qcltb m 0 = false) by (apply Qcltb_ge, Qclt_le_weak; exact Hm).
  rewrite Hm'.
  destruct (Qc_eq_bool r 0) eqn:E0.
  - apply Qc_eq_bool_correct in E0. subst r.
    split; [apply Qcle_refl | apply Qclt_le_weak; exact Hm].
  - destruct (Qcltb r 0) eqn:C; simpl.
    + apply Qcltb_lt in C. split.
      * rewrite <- R0. apply round_b64_mono.
        revert Hlo. to_Q. change (this 0) with 0%Q. intro Hlo. lra.
      * rewrite <- Rm at 2. apply round_b64_mono.
        revert C. to_Q. change (this 0) with 0%Q. intro C. lra.
    + apply Qcltb_ge in C. split; [exact C | apply Qclt_le_weak; exact Hhi].
Qed.

Lemma kappa_trend_b64_range (kappa_slope kappa_intercept x : Qc) :
  - Qc_of_Z 180 <= kappa_trend_b64 kappa_slope kappa_intercept x /\
  kappa_trend_b64 kappa_slope kappa_intercept x <= Qc_of_Z 180.
Proof.
  unfold kappa_trend_b64.
  set (a := round_b64 (round_b64 (round_b64 (kappa_slope * x) + kappa_intercept) + Qc_of_Z 180)).
  assert (H360 : 0 < Qc_of_Z 360) by reflexivity.
  destruct (float_mod_range a (Qc_of_Z 360) H360 round_b64_0 round_b64_360) as [Hlo Hhi].
  set (r := float_mod a (Qc_of_Z 360)) in *. clearbody r. split.
  - rewrite <- round_b64_minus_180. apply round_b64_mono.
    revert Hlo. to_Q. change (this 0) with 0%Q. intro Hlo. lra.
  - rewrite <- round_b64_180 at 2. apply round_b64_mono.
    revert Hhi. to_Q. change (inject_Z 360) with (360 # 1)%Q.
    change (inject_Z 180) with (180 # 1)%Q. intro Hhi. lra.
Qed.

(** C6.  For every slope, intercept and angle, [kappa_trend] is
    [((slope*x + intercept + 180) mod 360) - 180].  In exact arithmetic that
    is the value of the line moved by a whole number of turns into the
    half-open interval [[-180, 180)].  On doubles, with every operation
    rounded to nearest and none overflowing, the value lies in the closed
    interval [[-180, 180]]; the bound 180 is attained. *)
Theorem kappa_trend_range (kappa_slope kappa_intercept x : Qc) :
  let v := kappa_slope * x + kappa_intercept in
  kappa_trend kappa_slope kappa_intercept x
    = py_mod (v + Qc_of_Z 180) (Qc_of_Z 360) - Qc_of_Z 180 /\
  (exists k : Z, kappa_trend kappa_slope kappa_intercept x = v - Qc_of_Z 360 * Qc_of_Z k) /\
  (- Qc_of_Z 180 <= kappa_trend kappa_slope kappa_intercept x /\
   kappa_trend kappa_slope kappa_intercept x < Qc_of_Z 180) /\
  (- Qc_of_Z 180 <= kappa_trend_b64 kappa_slope kappa_intercept x /\
   kappa_trend_b64 kappa_slope kappa_intercept x <= Qc_of_Z 180) /\
  kappa_trend_b64 0 just_below_minus_180 0 = Qc_of_Z 180.
Proof.
  intro v. unfold kappa_trend. fold v.
  split; [reflexivity|]. split; [|split; [|split]].
  - unfold py_mod.
    exists (Qfloor (this (v + Qc_of_Z 180) / this (Qc_of_Z 360))). ring.
  - assert (H360 : 0 < Qc_of_Z 360) by reflexivity.
    destruct (py_mod_bounds (v + Qc_of_Z 180) _ H360) as [Hlo Hhi].
    set (m := py_mod (v + Qc_of_Z 180) (Qc_of_Z 360)) in *. clearbody m.
    split; to_Q; change (this 0) with 0%Q in *;
      change (inject_Z 180) with (180 # 1)%Q in *;
      change (inject_Z 360) with (360 # 1)%Q in *; lra.
  - apply kappa_trend_b64_range.
  - apply Qc_is_canon. vm_compute. reflexivity.
Qed.

(** ** Sorting by image number and timestamp *)

Lemma ts_leb_total (a b : option Z) : ts_leb a b = false -> ts_leb b a = true.
Proof.
  destruct a as [x|], b as [y|]; simpl; try reflexivity; try discriminate.
  intro H. apply Z.leb_gt in H. apply Z.leb_le. lia.
Qed.

Lemma ts_leb_trans (a b c : option Z) :
  ts_leb a b = true -> ts_leb b c = true -> ts_leb a c = true.
Proof.
  destruct a as [x|], b as [y|], c as [z|]; simpl; try reflexivity; try discriminate.
  intros H1 H2. apply Z.leb_le in H1, H2. apply Z.leb_le. lia.
Qed.

Lemma ts_leb_antisym (a b : option Z) :
  ts_leb a b = true -> ts_leb b a = true -> ts_eqb a b = true.
Proof.
  destruct a as [x|], b as [y|]; simpl; try reflexivity; try discriminate.
  intros H1 H2. apply Z.leb_le in H1, H2. apply Z.eqb_eq. lia.
Qed.

Lemma key_leb_spec (a b : sort_key) :
  key_leb a b = true <->
  (fst a < fst b)%Z \/ (fst a = fst b /\ ts_leb (snd a) (snd b) = true).
Proof.
  unfold key_leb. rewrite orb_true_iff, andb_true_iff, Z.ltb_lt, Z.eqb_eq. reflexivity.
Qed.

Lemma key_leb_total (a b : sort_key) : key_leb a b = false -> key_leb b a = true.
Proof.
  intro H. apply key_leb_spec.
  destruct (Z.lt_trichotomy (fst a) (fst b)) as [Hlt|[Heq|Hgt]].
  - assert (Ht : key_leb a b = true) by (apply key_leb_spec; left; exact Hlt). congruence.
  - right. split; [symmetry; exact Heq|]. apply ts_leb_total.
    destruct (ts_leb (snd a) (snd b)) eqn:E; [|reflexivity].
    assert (Ht : key_leb a b = true) by (apply key_leb_spec; right; split; assumption).
    congruence.
  - left. exact Hgt.
Qed.

Lemma key_leb_trans (a b c : sort_key) :
  key_leb a b = true -> key_leb b c = true -> key_leb a c = true.
Proof.
  rewrite !key_leb_spec. intros [H1|[H1 T1]] [H2|[H2 T2]].
  - left. lia.
  - left. lia.
  - left. lia.
  - right. split; [lia|]. eapply ts_leb_trans; eassumption.
Qed.

Lemma key_eqb_leb (a b : sort_key) : key_eqb a b = true -> key_leb a b = true.
Proof.
  unfold key_eqb. rewrite andb_true_iff, Z.eqb_eq. intros [H1 H2].
  apply key_leb_spec. right. split; [exact H1|].
  destruct (snd a) as [x|], (snd b) as [y|]; simpl in *; try reflexivity; try discriminate.
  apply Z.eqb_eq in H2. apply Z.leb_le. lia.
Qed.

Lemma key_eqb_sym (a b : sort_key) : key_eqb a b = key_eqb b a.
Proof.
  unfold key_eqb. rewrite (Z.eqb_sym (fst a)). f_equal.
  destruct (snd a), (snd b); simpl; try reflexivity. apply Z.eqb_sym.
Qed.

Lemma key_eqb_trans (a b c : sort_key) :
  key_eqb a b = true -> key_eqb b c = true -> key_eqb a c = true.
Proof.
  unfold key_eqb. rewrite !andb_true_iff, !Z.eqb_eq. intros [H1 T1] [H2 T2].
  split; [lia|].
  destruct (snd a), (snd b), (snd c); simpl in *; try reflexivity; try discriminate.
  apply Z.eqb_eq in T1, T2. apply Z.eqb_eq. lia.
Qed.

Lemma insert_by_key_sorted {A : Type} (x : sort_key * A) (l : list (sort_key * A)) :
  StronglySorted keyed_le l -> StronglySorted keyed_le (insert_by_key x l).
Proof.
  induction 1 as [|y l Hl IH Hy]; simpl.
  - constructor; constructor.
  - destruct (key_leb (fst x) (fst y)) eqn:E.
    + constructor; [constructor; assumption|].
      constructor; [exact E|].
      rewrite Forall_forall in *. intros z Hz. unfold keyed_le.
      eapply key_leb_trans; [exact E | apply Hy; exact Hz].
    + constructor; [exact IH|].
      apply (Permutation_Forall (Permutation_sym (insert_by_key_perm x l))).
      constructor; [apply key_leb_total; exact E | exact Hy].
Qed.

Lemma sort_by_key_sorted {A : Type} (l : list (sort_key * A)) :
  StronglySorted keyed_le (sort_by_key l).
Proof.
  induction l as [|x l IH]; simpl; [constructor | apply insert_by_key_sorted; exact IH].
Qed.

(** Insertion does not reorder the entries of one key. *)
Lemma insert_by_key_stable {A : Type} (k : sort_key) (x : sort_key * A) (l : list (sort_key * A)) :
  filter (fun p => key_eqb (fst p) k) (insert_by_key x l)
  = filter (fun p => key_eqb (fst p) k) (x :: l).
Proof.
  induction l as [|y l IH]; [reflexivity|].
  simpl insert_by_key. destruct (key_leb (fst x) (fst y)) eqn:E; [reflexivity|].
  simpl filter at 1. rewrite IH. simpl.
  destruct (key_eqb (fst x) k) eqn:Ex; destruct (key_eqb (fst y) k) eqn:Ey; try reflexivity.
  exfalso. rewrite key_eqb_sym in Ey.
  pose proof (key_eqb_leb _ _ (key_eqb_trans _ _ _ Ex Ey)) as Hle. congruence.
Qed.

Lemma sort_by_key_stable {A : Type} (k : sort_key) (l : list (sort_key * A)) :
  filter (fun p => key_eqb (fst p) k) (sort_by_key l)
  = filter (fun p => key_eqb (fst p) k) l.
Proof.
  induction l as [|x l IH]; [reflexivity|].
  simpl sort_by_key. rewrite insert_by_key_stable. simpl. rewrite IH. reflexivity.
Qed.

Lemma keyed_of_items (l : list item) :
  forall keyed,
    mapM (fun it => k <- item_sort_key it ;; Ok (k, it)) l = Ok keyed ->
    keyed = map (fun it => (key_of it, it)) l /\ Forall (fun it => ImageNumber it <> None) l.
Proof.
  induction l as [|it l IH]; intros keyed H; simpl in H.
  - inversion H. split; [reflexivity | constructor].
  - unfold item_sort_key at 1 in H.
    destruct (ImageNumber it) as [n|] eqn:En; simpl in H; [|discriminate H].
    destruct (mapM _ l) as [ks|e]; simpl in H; [|discriminate H].
    inversion H; subst. destruct (IH ks eq_refl) as [-> Hall].
    split; [|constructor; [congruence | exact Hall]].
    simpl. unfold key_of. rewrite En. reflexivity.
Qed.

Lemma keyed_canonical (l : list item) (keyed : list (sort_key * item)) :
  Permutation keyed (map (fun it => (key_of it, it)) l) ->
  keyed = map (fun it => (key_of it, it)) (map snd keyed).
Proof.
  intro H.
  assert (Hall : Forall (fun p => fst p = key_of (snd p)) keyed).
  { apply (Permutation_Forall (Permutation_sym H)).
    apply Forall_forall. intros p Hp. apply in_map_iff in Hp.
    destruct Hp as [it [<- _]]. reflexivity. }
  clear H. induction Hall as [|[k it] keyed Hk Hall IH]; [reflexivity|].
  simpl in *. subst k. f_equal. exact IH.
Qed.

(** X2.  When the sort of a step returns, its result is a permutation of
    the items, in ascending order of image number and, for equal image
    numbers, of parsed timestamp with the items without one last; items with
    the same key keep their relative order; every item has an image number. *)
Theorem sort_items_sorted_stable (l sorted : list item) :
  sort_items l = Ok sorted ->
  Permutation l sorted /\
  Forall (fun it => ImageNumber it <> None) l /\
  StronglySorted (fun a b => key_leb (key_of a) (key_of b) = true) sorted /\
  (forall k, filter (fun it => key_eqb (key_of it) k) sorted
             = filter (fun it => key_eqb (key_of it) k) l) /\
  (forall a b l1 l2, sorted = l1 ++ a :: l2 -> In b l2 ->
     ImageNumber a = ImageNumber b -> parsed_ts a = None -> parsed_ts b = None).
Proof.
  intro H. pose proof (sort_items_perm _ _ H) as Hperm.
  unfold sort_items in H.
  destruct (mapM _ l) as [keyed|e] eqn:E; simpl in H; [|discriminate H].
  assert (Hs : map snd (sort_by_key keyed) = sorted) by (inversion H; reflexivity).
  clear H. destruct (keyed_of_items _ _ E) as [-> Hall].
  set (keyed := map (fun it => (key_of it, it)) l) in *.
  assert (Hcanon : sort_by_key keyed = map (fun it => (key_of it, it)) sorted).
  { rewrite <- Hs. apply (keyed_canonical l). apply sort_by_key_perm. }
  assert (Hsorted : StronglySorted (fun a b => key_leb (key_of a) (key_of b) = true) sorted).
  { pose proof (sort_by_key_sorted keyed) as Hk. rewrite Hcanon in Hk.
    clear - Hk. induction sorted as [|a sorted IH]; [constructor|].
    simpl in Hk. apply StronglySorted_inv in Hk. destruct Hk as [Hk Ha].
    constructor; [apply IH; exact Hk|].
    rewrite Forall_forall in *. intros b Hb.
    apply (Ha (key_of b, b)). apply in_map_iff. exists b. split; [reflexivity | exact Hb]. }
  split; [exact Hperm|]. split; [exact Hall|]. split; [exact Hsorted|]. split.
  - intro k. pose proof (sort_by_key_stable k keyed) as Hst.
    rewrite Hcanon in Hst. unfold keyed in Hst.
    apply (f_equal (map snd)) in Hst.
    assert (Hf : forall l0 : list item,
              map snd (filter (fun p : sort_key * item => key_eqb (fst p) k)
                              (map (fun it => (key_of it, it)) l0))
              = filter (fun it => key_eqb (key_of it) k) l0).
    { induction l0 as [|a l0 IH]; [reflexivity|]. simpl.
      destruct (key_eqb (key_of a) k); simpl; rewrite IH; reflexivity. }
    rewrite !Hf in Hst. exact Hst.
  - intros a b l1 l2 Es Hb Hn Ha. rewrite Es in Hsorted.
    assert (Hab : key_leb (key_of a) (key_of b) = true).
    { clear - Hsorted Hb. induction l1 as [|c l1 IH]; simpl in Hsorted.
      - apply StronglySorted_inv in Hsorted. destruct Hsorted as [_ Hf].
        rewrite Forall_forall in Hf. apply Hf. exact Hb.
      - apply StronglySorted_inv in Hsorted. destruct Hsorted as [Hs _]. apply IH. exact Hs. }
    apply key_leb_spec in Hab. unfold key_of in Hab. simpl in Hab. rewrite Hn, Ha in Hab.
    destruct Hab as [Hlt|[_ Hts]]; [lia|].
    destruct (parsed_ts b); [discriminate Hts | reflexivity].
Qed.

(** ** Errors and frame of gap interpolation *)

Lemma sort_items_raises (l : list item) :
  (forall e, sort_items l = Raise e ->
     e = KeyError "ImageNumber" /\ Exists (fun it => ImageNumber it = None) l) /\
  (Exists (fun it => ImageNumber it = None) l -> sort_items l = Raise (KeyError "ImageNumber")).
Proof.
  unfold sort_items.
  assert (Hm : (forall e, mapM (fun it => k <- item_sort_key it ;; Ok (k, it)) l = Raise e ->
                  e = KeyError "ImageNumber" /\ Exists (fun it => ImageNumber it = None) l) /\
               (Exists (fun it => ImageNumber it = None) l ->
                  mapM (fun it => k <- item_sort_key it ;; Ok (k, it)) l
                  = Raise (KeyError "ImageNumber"))).
  { induction l as [|it l [IH1 IH2]]; simpl.
    - split; [intros e H; discriminate H | intro H; inversion H].
    - unfold item_sort_key at 1 3. destruct (ImageNumber it) as [n|] eqn:En; simpl.
      + destruct (mapM _ l) as [ks|e'] eqn:Em; simpl.
        * split; [intros e H; discriminate H|].
          intro H. inversion H as [? ? Hh|? ? Ht]; subst; [congruence|].
          specialize (IH2 Ht). discriminate IH2.
        * split.
          -- intros e H. inversion H; subst. destruct (IH1 e eq_refl) as [-> Hex].
             split; [reflexivity | right; exact Hex].
          -- intro H. inversion H as [? ? Hh|? ? Ht]; subst; [congruence|].
             exact (IH2 Ht).
      + split; [|reflexivity].
        intros e H. inversion H; subst. split; [reflexivity | left; exact En]. }
  destruct Hm as [Hm1 Hm2]. split.
  - intros e H. destruct (mapM _ l) as [ks|e'] eqn:Em; simpl in H; [discriminate H|].
    inversion H; subst. apply Hm1. reflexivity.
  - intro H. rewrite (Hm2 H). reflexivity.
Qed.

Lemma interpolate_step_raises_iff (info : step_info) (e : exn) :
  interpolate_step info = Raise e <->
  (e = KeyError "ImageNumber" /\ has_context info /\
   Exists (fun it => ImageNumber it = None) (items info)).
Proof.
  unfold interpolate_step, has_context.
  destruct (sort_items_raises (items info)) as [S1 S2].
  destruct (axis_center info) as [c|];
    [|split; [intro H0; discriminate H0 | intros (_ & (H1 & _) & _); congruence]].
  destruct (calculated_radius info) as [radius|];
    [|split; [intro H0; discriminate H0 | intros (_ & (_ & H1 & _) & _); congruence]].
  destruct (calculated_z info) as [z_value|];
    [|split; [intro H0; discriminate H0 | intros (_ & (_ & _ & H1) & _); congruence]].
  split.
  - intro H. destruct (sort_items (items info)) as [sorted|e'] eqn:E; simpl in H;
      [discriminate H|].
    inversion H; subst. destruct (S1 e eq_refl) as [-> Hex].
    repeat split; try discriminate. exact Hex.
  - intros (-> & _ & Hex). rewrite (S2 Hex). reflexivity.
Qed.

(** X3.  Gap interpolation of a step raises [KeyError] and nothing else, for
    the first missing key among the [x] of the axis centre, its [y], and
    the image number of some item; it raises only for a step that has its
    axis centre, radius and height.  A step without one of the three is
    returned as it is, whatever its items and its axis centre hold. *)
Theorem interpolate_raw_step_raises (step : raw_step) :
  (forall e, interpolate_raw_step step = Raise e ->
     has_raw_context step /\
     ((e = KeyError "x" /\ center_x_of step = None) \/
      (e = KeyError "y" /\ center_x_of step <> None /\ center_y_of step = None) \/
      (e = KeyError "ImageNumber" /\ center_x_of step <> None /\ center_y_of step <> None /\
       Exists (fun it => ImageNumber it = None) (raw_items step)))) /\
  (has_raw_context step -> center_x_of step = None ->
     interpolate_raw_step step = Raise (KeyError "x")) /\
  (has_raw_context step -> center_x_of step <> None -> center_y_of step = None ->
     interpolate_raw_step step = Raise (KeyError "y")) /\
  (has_raw_context step -> center_x_of step <> None -> center_y_of step <> None ->
     Exists (fun it => ImageNumber it = None) (raw_items step) ->
     interpolate_raw_step step = Raise (KeyError "ImageNumber")) /\
  (has_raw_context step -> center_x_of step <> None -> center_y_of step <> None ->
     Forall (fun it => ImageNumber it <> None) (raw_items step) ->
     exists step', interpolate_raw_step step = Ok step') /\
  (~ has_raw_context step -> interpolate_raw_step step = Ok step).
Proof.
  unfold interpolate_raw_step, has_raw_context, center_x_of, center_y_of.
  destruct (raw_axis_center step) as [[x y]|];
    [|repeat split; try (intros; discriminate); try reflexivity;
      intros (H & _); congruence].
  destruct (raw_calculated_radius step) as [radius|];
    [|repeat split; try (intros; discriminate); try reflexivity;
      intros (_ & H & _); congruence].
  destruct (raw_calculated_z step) as [z_value|];
    [|repeat split; try (intros; discriminate); try reflexivity;
      intros (_ & _ & H); congruence].
  assert (Hctx : Some (x, y) <> None /\ Some radius <> None /\ Some z_value <> None)
    by (repeat split; discriminate).
  destruct x as [cx|]; simpl.
  2:{ split; [intros e H; inversion H; subst; split; [exact Hctx | left; tauto]|].
      split; [reflexivity|]. repeat split; try reflexivity; intros; congruence. }
  destruct y as [cy|]; simpl.
  2:{ split; [intros e H; inversion H; subst; split; [exact Hctx|];
              right; left; repeat split; discriminate || reflexivity|].
      split; [intros; discriminate|]. split; [reflexivity|].
      repeat split; try reflexivity; intros; congruence. }
  set (info := {| items := raw_items step; axis_center := Some (cx, cy);
                  calculated_radius := Some radius; calculated_z := Some z_value |}).
  pose proof (fun e => interpolate_step_raises_iff info e) as Hr.
  split; [|split; [|split; [|split; [|split]]]].
  - intros e H. split; [exact Hctx|]. right. right.
    destruct (interpolate_step info) as [info'|e'] eqn:E; simpl in H; [discriminate H|].
    inversion H; subst e'. destruct (proj1 (Hr e) eq_refl) as (-> & _ & Hex).
    repeat split; try discriminate. exact Hex.
  - intros _ H. discriminate H.
  - intros _ _ H. discriminate H.
  - intros _ _ _ Hex.
    rewrite (proj2 (Hr (KeyError "ImageNumber"))); [reflexivity|].
    split; [reflexivity|]. split; [|exact Hex].
    unfold has_context. simpl. repeat split; discriminate.
  - intros _ _ _ Hall.
    destruct (interpolate_step info) as [info'|e'] eqn:E; simpl; [eexists; reflexivity|].
    exfalso. destruct (proj1 (Hr e') eq_refl) as (_ & _ & Hex).
    apply Exists_exists in Hex. destruct Hex as [it [Hin Hn]].
    rewrite Forall_forall in Hall. exact (Hall it Hin Hn).
  - intro H. exfalso. apply H. exact Hctx.
Qed.

Lemma set_estimated_over (theta theta' radius z_value : Qc) (it : item) :
  set_estimated theta radius z_value (set_estimated theta' radius z_value it)
  = set_estimated theta radius z_value it.
Proof.
  unfold set_estimated.
  destruct (angle_to_xy L theta radius) as [[x y] w].
  destruct (angle_to_xy L theta' radius) as [[x' y'] w']. reflexivity.
Qed.

Lemma set_estimated_identity (theta radius z_value : Qc) (it : item) :
  same_identity it (set_estimated theta radius z_value it).
Proof.
  unfold same_identity, set_estimated.
  destruct (angle_to_xy L theta radius) as [[x y] w]. simpl. repeat split; reflexivity.
Qed.

Lemma interpolated_from_identity (radius z_value : Qc) (a b : item) :
  interpolated_from radius z_value a b -> same_identity a b.
Proof.
  intros [->|[_ [theta ->]]].
  - unfold same_identity. repeat split; reflexivity.
  - apply set_estimated_identity.
Qed.

Lemma Forall2_update_nth_rel {A B : Type} (R : A -> B -> Prop) (f : B -> B) :
  forall (l : list A) (l' : list B) (i : nat),
    Forall2 R l l' ->
    (forall a b, nth_error l i = Some a -> nth_error l' i = Some b -> R a b -> R a (f b)) ->
    Forall2 R l (update_nth i f l').
Proof.
  intros l l' i H. revert i. induction H as [|a b l l' Hab H IH]; intros i Hf.
  - destruct i; constructor.
  - destruct i as [|i]; simpl.
    + constructor; [apply Hf; [reflexivity | reflexivity | exact Hab] | exact H].
    + constructor; [exact Hab | apply IH; intros a' b' Ha' Hb'; apply Hf; assumption].
Qed.

Lemma Forall2_refl_eq {A : Type} (R : A -> A -> Prop) (l : list A) :
  (forall a, R a a) -> Forall2 R l l.
Proof. intro H. induction l; constructor; [apply H | assumption]. Qed.

Lemma assign_frame (base : list item) (radius z_value : Qc) (run : list nat) :
  (forall j, In j run -> uncalibrated_at base j) ->
  forall thetas store,
    Forall2 (interpolated_from radius z_value) base store ->
    Forall2 (interpolated_from radius z_value) base (assign radius z_value run thetas store).
Proof.
  induction run as [|i run IH]; intros Hrun thetas store H; [exact H|].
  destruct thetas as [|theta thetas]; [exact H|]. simpl.
  apply IH; [intros j Hj; apply Hrun; right; exact Hj|].
  apply Forall2_update_nth_rel; [exact H|].
  intros a b Ha _ Hab. right.
  destruct (Hrun i (or_introl eq_refl)) as [it [Hit Hu]].
  rewrite Hit in Ha. inversion Ha; subst it. split; [exact Hu|].
  exists theta. destruct Hab as [->|[_ [theta' ->]]]; [reflexivity|].
  apply set_estimated_over.
Qed.

Lemma fold_process_segment_frame (base : list item) (radius z_value : Qc) (segs : list segment) :
  (forall j, In j (runs segs) -> uncalibrated_at base j) ->
  forall store,
    Forall2 (interpolated_from radius z_value) base store ->
    Forall2 (interpolated_from radius z_value) base
            (fold_left (process_segment radius z_value) segs store).
Proof.
  induction segs as [|[[s e] run] segs IH]; intros Hrun store H; [exact H|].
  simpl. apply IH.
  - intros j Hj. apply Hrun. unfold runs. simpl. apply in_or_app. right. exact Hj.
  - unfold process_segment.
    destruct (theta_at store s); [|exact H].
    destruct (theta_at store e); [|exact H].
    destruct (Qcltb _ _); [exact H|].
    apply assign_frame; [|exact H].
    intros j Hj. apply Hrun. unfold runs. simpl. apply in_or_app. left. exact Hj.
Qed.

(** X4.  Gap interpolation returns the step's context as it was and as many
    items as it was given.  Against the sorted input, position by position,
    an output item is the input item itself unless that was uncalibrated,
    in which case it may be the input item with angular position, X, Y, Z
    and status written; image number, timestamp, sequence and the three
    orientation angles are never written. *)
Theorem gap_interpolation_frame (info info' : step_info) :
  interpolate_step info = Ok info' ->
  axis_center info' = axis_center info /\
  calculated_radius info' = calculated_radius info /\
  calculated_z info' = calculated_z info /\
  length (items info') = length (items info) /\
  exists sorted,
    Permutation (items info) sorted /\
    Forall2 (fun a b =>
               (b = a \/
                (is_uncalibrated a = true /\
                 exists theta radius z_value,
                   calculated_radius info = Some radius /\
                   calculated_z info = Some z_value /\
                   b = set_estimated theta radius z_value a)) /\
               same_identity a b)
            sorted (items info').
Proof.
  unfold interpolate_step. intro H.
  assert (Hskip : Ok info = Ok info' ->
            axis_center info' = axis_center info /\
            calculated_radius info' = calculated_radius info /\
            calculated_z info' = calculated_z info /\
            length (items info') = length (items info) /\
            exists sorted,
              Permutation (items info) sorted /\
              Forall2 (fun a b =>
                         (b = a \/
                          (is_uncalibrated a = true /\
                           exists theta radius z_value,
                             calculated_radius info = Some radius /\
                             calculated_z info = Some z_value /\
                             b = set_estimated theta radius z_value a)) /\
                         same_identity a b)
                      sorted (items info')).
  { intro E. inversion E; subst info'. repeat split; try reflexivity.
    exists (items info). split; [reflexivity|].
    apply Forall2_refl_eq. intro a. split; [left; reflexivity|].
    unfold same_identity. repeat split; reflexivity. }
  destruct (axis_center info) as [c|] eqn:Ec; [|exact (Hskip H)].
  destruct (calculated_radius info) as [radius|] eqn:Er; [|exact (Hskip H)].
  destruct (calculated_z info) as [z_value|] eqn:Ez; [|exact (Hskip H)].
  clear Hskip.
  destruct (sort_items (items info)) as [sorted|e] eqn:Es; simpl in H; [|discriminate H].
  inversion H; subst info'. simpl. clear H.
  pose proof (sort_items_perm _ _ Es) as Hperm.
  assert (Hfr : Forall2 (interpolated_from radius z_value) sorted
                  (fold_left (process_segment radius z_value) (find_segments sorted) sorted)).
  { apply fold_process_segment_frame.
    - destruct (find_segments_ok sorted) as [Hu _]. exact Hu.
    - apply Forall2_refl_eq. intro a. left. reflexivity. }
  repeat split; try assumption.
  - rewrite <- (Forall2_length Hfr). symmetry. apply Permutation_length. exact Hperm.
  - exists sorted. split; [exact Hperm|].
    eapply Forall2_impl; [|exact Hfr]. intros a b Hab. split.
    + destruct Hab as [->|[Hu [theta ->]]]; [left; reflexivity|].
      right. split; [exact Hu|]. exists theta, radius, z_value. repeat split; reflexivity.
    + eapply interpolated_from_identity. exact Hab.
Qed.

(** ** The final store at the run of a segment *)

Lemma NoDup_run_of (segs : list segment) (s e : nat) (run : list nat) :
  NoDup (runs segs) -> In (s, e, run) segs -> NoDup run.
Proof.
  intros Hnd Hin. destruct (in_split _ _ Hin) as [pre [post ->]].
  unfold runs in Hnd. rewrite flat_map_app in Hnd. simpl in Hnd.
  apply NoDup_app_remove_l in Hnd. apply NoDup_app_remove_r in Hnd. exact Hnd.
Qed.

(** After all segments, the run items of one segment are what that segment
    alone writes into the sorted list. *)
Lemma fold_process_segment_own (sorted : list item) (radius z_value : Qc)
    (s e : nat) (run : list nat) :
  In (s, e, run) (find_segments sorted) ->
  forall i, In i run ->
    nth_error (fold_left (process_segment radius z_value) (find_segments sorted) sorted) i
    = nth_error (process_segment radius z_value sorted (s, e, run)) i.
Proof.
  intros Hin i Hi.
  destruct (find_segments_ok sorted) as (Hu & Ha & Hnd).
  destruct (Ha _ _ _ Hin) as [Has Hae].
  destruct (in_split _ _ Hin) as [pre [post Esplit]].
  rewrite Esplit in *. unfold runs in Hnd, Hu. rewrite flat_map_app in Hnd, Hu.
  simpl in Hnd, Hu. rewrite fold_left_app. cbn [fold_left].
  assert (Hpre : forall j, anchor_at sorted j \/ In j run -> ~ In j (runs pre)).
  { intros j [Hj|Hj] Hjp.
    - apply (anchor_not_uncalibrated sorted j Hj). apply Hu. apply in_or_app. left. exact Hjp.
    - apply (NoDup_app_disjoint _ _ Hnd j Hjp). apply in_or_app. left. exact Hj. }
  assert (Hpost : ~ In i (runs post)).
  { apply NoDup_app_remove_l in Hnd. exact (NoDup_app_disjoint _ _ Hnd i Hi). }
  rewrite fold_process_segment_other by exact Hpost.
  set (store1 := fold_left _ pre sorted).
  assert (Hsame : forall j, anchor_at sorted j \/ In j run ->
                    nth_error store1 j = nth_error sorted j).
  { intros j Hj. apply fold_process_segment_other. apply Hpre. exact Hj. }
  unfold process_segment, theta_at.
  rewrite (Hsame s (or_introl Has)), (Hsame e (or_introl Hae)).
  destruct (nth_error sorted s) as [its|]; [|apply Hsame; right; exact Hi].
  destruct (Angular_position its) as [a|]; [|apply Hsame; right; exact Hi].
  destruct (nth_error sorted e) as [ite|]; [|apply Hsame; right; exact Hi].
  destruct (Angular_position ite) as [b|]; [|apply Hsame; right; exact Hi].
  destruct (Qcltb _ _); [apply Hsame; right; exact Hi|].
  apply assign_ext; [exact Hi|].
  intros j Hj. apply Hsame. right. exact Hj.
Qed.

Lemma assign_nth (radius z_value : Qc) (run : list nat) :
  NoDup run ->
  forall k i thetas store,
    nth_error run k = Some i ->
    length thetas = length run ->
    nth_error (assign radius z_value run thetas store) i
    = option_map (set_estimated (nth k thetas 0) radius z_value) (nth_error store i).
Proof.
  induction 1 as [|j run Hj Hnd IH]; intros k i thetas store Hk Hlen.
  - destruct k; discriminate Hk.
  - destruct thetas as [|theta thetas]; [discriminate Hlen|].
    simpl in Hlen. injection Hlen as Hlen. simpl assign.
    destruct k as [|k]; simpl in Hk.
    + injection Hk as ->. rewrite assign_other by exact Hj.
      apply nth_error_update_nth_same.
    + rewrite (IH k i thetas _ Hk Hlen).
      rewrite nth_error_update_nth_other; [reflexivity|].
      intro E. subst j. apply Hj. eapply nth_error_In. exact Hk.
Qed.

(** X5.  A closed segment with an endpoint angle missing, or with endpoint
    angles less than 0.01 apart, is skipped: after the step each of its run
    items is the item it was, still uncalibrated. *)
Theorem skipped_segment_unchanged (info : step_info) (c : Qc * Qc)
    (radius z_value : Qc) (sorted : list item) (s e : nat) (run : list nat) :
  axis_center info = Some c ->
  calculated_radius info = Some radius ->
  calculated_z info = Some z_value ->
  sort_items (items info) = Ok sorted ->
  In (s, e, run) (find_segments sorted) ->
  (theta_at sorted s = None \/ theta_at sorted e = None \/
   exists th0 th1, theta_at sorted s = Some th0 /\ theta_at sorted e = Some th1 /\
                   Qcabs (th0 - th1) < Q2Qc (1 # 100)) ->
  exists info',
    interpolate_step info = Ok info' /\
    forall i, In i run ->
      nth_error (items info') i = nth_error sorted i /\
      uncalibrated_at (items info') i.
Proof.
  intros Hc Hr Hz Hsort Hin Hskip.
  unfold interpolate_step. rewrite Hc, Hr, Hz, Hsort. simpl.
  eexists. split; [reflexivity|]. simpl. intros i Hi.
  assert (E : nth_error (fold_left (process_segment radius z_value)
                           (find_segments sorted) sorted) i
              = nth_error sorted i).
  { rewrite (fold_process_segment_own sorted radius z_value s e run Hin i Hi).
    unfold process_segment.
    destruct Hskip as [Hs|[He|[th0 [th1 [Hs [He Hnear]]]]]].
    - rewrite Hs. reflexivity.
    - rewrite He. destruct (theta_at sorted s); reflexivity.
    - rewrite Hs, He. apply Qcltb_lt in Hnear. rewrite Hnear. reflexivity. }
  split; [exact E|].
  destruct (find_segments_ok sorted) as (Hu & _ & _).
  destruct (Hu i) as [it [Hit Hunc]].
  { unfold runs. apply in_flat_map. exists (s, e, run). split; [exact Hin | exact Hi]. }
  exists it. split; [rewrite E; exact Hit | exact Hunc].
Qed.

(** ** What a filled segment writes, whatever the filter returns *)

Lemma process_segment_with_exact (radius z_value : Qc) (store : list item) (seg : segment) :
  process_segment_with savgol_filter_3_2 radius z_value store seg
  = process_segment radius z_value store seg.
Proof. reflexivity. Qed.

Lemma interpolate_step_with_exact (info : step_info) :
  interpolate_step_with savgol_filter_3_2 info = interpolate_step info.
Proof. reflexivity. Qed.

Lemma theta_values_raw_length (th0 th1 : Qc) (n : nat) :
  length (theta_values_raw th0 th1 n) = n.
Proof.
  unfold theta_values_raw. destruct (Qcltb _ _).
  - apply repeat_length.
  - rewrite np_linspace_interior, length_map, length_seq. reflexivity.
Qed.

Lemma theta_values_with_length (filter : list Qc -> list Qc) (th0 th1 : Qc) (n : nat) :
  (forall x, length (filter x) = length x) ->
  length (theta_values_with filter th0 th1 n) = n.
Proof.
  intro Hlen. unfold theta_values_with.
  destruct (3 <=? _)%nat; [rewrite Hlen|]; apply theta_values_raw_length.
Qed.

Lemma theta_values_with_short (filter : list Qc -> list Qc) (th0 th1 : Qc) (n : nat) :
  (n < 3)%nat -> theta_values_with filter th0 th1 n = theta_values_raw th0 th1 n.
Proof.
  intro H. unfold theta_values_with. rewrite theta_values_raw_length.
  apply Nat.leb_gt in H. rewrite H. reflexivity.
Qed.

Lemma theta_values_with_long (filter : list Qc -> list Qc) (th0 th1 : Qc) (n : nat) :
  (3 <= n)%nat ->
  theta_values_with filter th0 th1 n = filter (theta_values_raw th0 th1 n).
Proof.
  intro H. unfold theta_values_with. rewrite theta_values_raw_length.
  apply Nat.leb_le in H. rewrite H. reflexivity.
Qed.

Lemma process_segment_with_other (filter : list Qc -> list Qc) (radius z_value : Qc)
    (store : list item) (seg : segment) (i : nat) :
  ~ In i (snd seg) ->
  nth_error (process_segment_with filter radius z_value store seg) i = nth_error store i.
Proof.
  destruct seg as [[s e] run]. simpl. intro Hi. unfold process_segment_with.
  destruct (theta_at store s); [|reflexivity].
  destruct (theta_at store e); [|reflexivity].
  destruct (Qcltb _ _); [reflexivity|].
  apply assign_other. exact Hi.
Qed.

Lemma fold_process_segment_with_other (filter : list Qc -> list Qc) (radius z_value : Qc)
    (segs : list segment) (i : nat) :
  ~ In i (runs segs) ->
  forall store,
    nth_error (fold_left (process_segment_with filter radius z_value) segs store) i
    = nth_error store i.
Proof.
  induction segs as [|seg segs IH]; intros Hi store; [reflexivity|].
  unfold runs in Hi. simpl in Hi. rewrite in_app_iff in Hi. simpl.
  rewrite IH by (intro H; apply Hi; right; exact H).
  apply process_segment_with_other. intro H. apply Hi. left. exact H.
Qed.

(** After all segments, the run items of a segment whose endpoint angles
    are present and at least 0.01 apart carry the segment's angles. *)
Lemma fold_process_segment_with_at (filter : list Qc -> list Qc) (sorted : list item)
    (radius z_value : Qc) (s e : nat) (run : list nat) (th0 th1 : Qc) :
  In (s, e, run) (find_segments sorted) ->
  theta_at sorted s = Some th0 -> theta_at sorted e = Some th1 ->
  Q2Qc (1 # 100) <= Qcabs (th0 - th1) ->
  forall i, In i run ->
    nth_error (fold_left (process_segment_with filter radius z_value)
                 (find_segments sorted) sorted) i
    = nth_error (assign radius z_value run
                   (theta_values_with filter th0 th1 (length run)) sorted) i.
Proof.
  intros Hin Hs He Hfar i Hi.
  destruct (find_segments_ok sorted) as (Hu & Ha & Hnd).
  destruct (Ha _ _ _ Hin) as [Has Hae].
  destruct (in_split _ _ Hin) as [pre [post Esplit]].
  rewrite Esplit in *. unfold runs in Hnd, Hu. rewrite flat_map_app in Hnd, Hu.
  simpl in Hnd, Hu. rewrite fold_left_app. cbn [fold_left].
  assert (Hpre : forall j, anchor_at sorted j \/ In j run -> ~ In j (runs pre)).
  { intros j [Hj|Hj] Hjp.
    - apply (anchor_not_uncalibrated sorted j Hj). apply Hu. apply in_or_app. left. exact Hjp.
    - apply (NoDup_app_disjoint _ _ Hnd j Hjp). apply in_or_app. left. exact Hj. }
  assert (Hpost : ~ In i (runs post)).
  { apply NoDup_app_remove_l in Hnd. exact (NoDup_app_disjoint _ _ Hnd i Hi). }
  rewrite fold_process_segment_with_other by exact Hpost.
  set (store1 := fold_left _ pre sorted).
  assert (Hsame : forall j, anchor_at sorted j \/ In j run ->
                    nth_error store1 j = nth_error sorted j).
  { intros j Hj. apply fold_process_segment_with_other. apply Hpre. exact Hj. }
  unfold process_segment_with, theta_at.
  rewrite (Hsame s (or_introl Has)), (Hsame e (or_introl Hae)).
  unfold theta_at in Hs, He. rewrite Hs, He.
  apply Qcltb_ge in Hfar. rewrite Hfar.
  apply assign_ext; [exact Hi|].
  intros j Hj. apply Hsame. right. exact Hj.
Qed.

(** What lines 78-82 leave in an item, field by field. *)
Lemma set_estimated_fields (theta radius z_value : Qc) (it : item) :
  let it' := set_estimated theta radius z_value it in
  Angular_position it' = Some theta /\
  Calibration_Status it' = Some "estimated" /\
  item_X it' = Some (fst (fst (angle_to_xy L theta radius))) /\
  item_Y it' = Some (snd (fst (angle_to_xy L theta radius))) /\
  item_Z it' = Some z_value /\
  same_identity it it'.
Proof.
  unfold set_estimated, same_identity.
  destruct (angle_to_xy L theta radius) as [[x y] w]. simpl. repeat split; reflexivity.
Qed.

Lemma interpolate_step_with_run (filter : list Qc -> list Qc) (info : step_info)
    (c : Qc * Qc) (radius z_value : Qc) (sorted : list item)
    (s e : nat) (run : list nat) (th0 th1 : Qc) :
  (forall x, length (filter x) = length x) ->
  axis_center info = Some c ->
  calculated_radius info = Some radius ->
  calculated_z info = Some z_value ->
  sort_items (items info) = Ok sorted ->
  In (s, e, run) (find_segments sorted) ->
  theta_at sorted s = Some th0 ->
  theta_at sorted e = Some th1 ->
  Q2Qc (1 # 100) <= Qcabs (th0 - th1) ->
  exists info',
    interpolate_step_with filter info = Ok info' /\
    forall k i, nth_error run k = Some i ->
      exists it,
        nth_error sorted i = Some it /\
        Calibration_Status it = Some "uncalibrated" /\
        nth_error (items info') i
        = Some (set_estimated (nth k (theta_values_with filter th0 th1 (length run)) 0)
                              radius z_value it).
Proof.
  intros Hlen Hc Hr Hz Hsort Hin Hs He Hfar.
  unfold interpolate_step_with. rewrite Hc, Hr, Hz, Hsort. simpl.
  eexists. split; [reflexivity|]. simpl. intros k i Hk.
  assert (Hi : In i run) by (eapply nth_error_In; exact Hk).
  destruct (find_segments_ok sorted) as (Hu & _ & Hnd).
  destruct (Hu i) as [it [Hit Hunc]].
  { unfold runs. apply in_flat_map. exists (s, e, run). split; [exact Hin | exact Hi]. }
  exists it. split; [exact Hit|].
  split; [apply is_uncalibrated_status; exact Hunc|].
  rewrite (fold_process_segment_with_at filter sorted radius z_value s e run th0 th1
             Hin Hs He Hfar i Hi).
  rewrite (assign_nth radius z_value run (NoDup_run_of _ _ _ _ Hnd Hin) k i _ _ Hk
             (theta_values_with_length filter th0 th1 (length run) Hlen)).
  rewrite Hit. reflexivity.
Qed.

(** C5.  In a step with its geometric context, for a closed segment whose
    endpoint angles [th0], [th1] are present with
    [0.01 <= |th0 - th1| < 1], line 66 makes the constant array of [th0],
    and after the step every run item is the item it was with status
    estimated, Z the step's [calculated_z], X and Y the projection of its
    own angle at the step's radius.  Its angle is [th0] when the run has
    fewer than 3 items, which are not smoothed; in a run of 3 or more it is
    the sample at its place of what the filter returns for the constant
    array, which is [th0] where the filter returns the constant array, as
    the filter in exact arithmetic does. *)
Theorem degenerate_band_propagates_start (filter : list Qc -> list Qc) (info : step_info)
    (c : Qc * Qc) (radius z_value : Qc) (sorted : list item)
    (s e : nat) (run : list nat) (th0 th1 : Qc) :
  (forall x, length (filter x) = length x) ->
  axis_center info = Some c ->
  calculated_radius info = Some radius ->
  calculated_z info = Some z_value ->
  sort_items (items info) = Ok sorted ->
  In (s, e, run) (find_segments sorted) ->
  theta_at sorted s = Some th0 ->
  theta_at sorted e = Some th1 ->
  Q2Qc (1 # 100) <= Qcabs (th0 - th1) ->
  Qcabs (th0 - th1) < 1 ->
  theta_values_raw th0 th1 (length run) = repeat th0 (length run) /\
  savgol_filter_3_2 (repeat th0 (length run)) = repeat th0 (length run) /\
  exists info',
    interpolate_step_with filter info = Ok info' /\
    forall k i, nth_error run k = Some i ->
      exists it it' theta,
        nth_error sorted i = Some it /\
        Calibration_Status it = Some "uncalibrated" /\
        nth_error (items info') i = Some it' /\
        Angular_position it' = Some theta /\
        Calibration_Status it' = Some "estimated" /\
        item_X it' = Some (fst (fst (angle_to_xy L theta radius))) /\
        item_Y it' = Some (snd (fst (angle_to_xy L theta radius))) /\
        item_Z it' = Some z_value /\
        same_identity it it' /\
        ((length run < 3)%nat -> theta = th0) /\
        ((3 <= length run)%nat -> theta = nth k (filter (repeat th0 (length run))) 0) /\
        (filter (repeat th0 (length run)) = repeat th0 (length run) -> theta = th0).
Proof.
  intros Hlen Hc Hr Hz Hsort Hin Hs He Hfar Hnear.
  assert (Hraw : theta_values_raw th0 th1 (length run) = repeat th0 (length run)).
  { unfold theta_values_raw. apply Qcltb_lt in Hnear. rewrite Hnear. reflexivity. }
  split; [exact Hraw|]. split; [apply savgol_filter_3_2_id|].
  destruct (interpolate_step_with_run filter info c radius z_value sorted s e run th0 th1
              Hlen Hc Hr Hz Hsort Hin Hs He Hfar) as [info' [Hstep Hrun]].
  exists info'. split; [exact Hstep|]. intros k i Hk.
  destruct (Hrun k i Hk) as (it & Hit & Hu & Hit').
  set (theta := nth k (theta_values_with filter th0 th1 (length run)) 0) in *.
  assert (Hkn : (k < length run)%nat) by (apply nth_error_Some; congruence).
  assert (Hconst : nth k (repeat th0 (length run)) 0 = th0).
  { apply nth_repeat_lt. exact Hkn. }
  exists it, (set_estimated theta radius z_value it), theta.
  destruct (set_estimated_fields theta radius z_value it) as (F1 & F2 & F3 & F4 & F5 & F6).
  repeat (split; [assumption|]).
  split; [|split].
  - intro Hshort. unfold theta. rewrite theta_values_with_short by exact Hshort.
    rewrite Hraw. exact Hconst.
  - intro Hlong. unfold theta. rewrite theta_values_with_long by exact Hlong.
    rewrite Hraw. reflexivity.
  - intro Hfix. unfold theta, theta_values_with. rewrite Hraw.
    destruct (3 <=? _)%nat; [rewrite Hfix|]; exact Hconst.
Qed.

(** X6.  A closed segment whose endpoint angles [th0], [th1] are present and
    at least 0.01 apart is filled, whatever the filter returns: after the
    step the item behind the [k]-th reference of the run is the item it was
    with status estimated, Z the step's [calculated_z], X and Y the
    projection of its own angle, and its angle the [k]-th of the segment's
    angles.  In a run of 1 or 2 items, which are not smoothed, that angle
    is [th0] when the endpoints are less than 1 apart and
    [th0 + (k+1)(th1 - th0)/(n+1)] otherwise; in a longer run it is the
    [k]-th sample of what the filter returns for those values. *)
Theorem filled_segment_values (filter : list Qc -> list Qc) (info : step_info)
    (c : Qc * Qc) (radius z_value : Qc) (sorted : list item)
    (s e : nat) (run : list nat) (th0 th1 : Qc) :
  (forall x, length (filter x) = length x) ->
  axis_center info = Some c ->
  calculated_radius info = Some radius ->
  calculated_z info = Some z_value ->
  sort_items (items info) = Ok sorted ->
  In (s, e, run) (find_segments sorted) ->
  theta_at sorted s = Some th0 ->
  theta_at sorted e = Some th1 ->
  Q2Qc (1 # 100) <= Qcabs (th0 - th1) ->
  exists info',
    interpolate_step_with filter info = Ok info' /\
    forall k i, nth_error run k = Some i ->
      exists it it' theta,
        nth_error sorted i = Some it /\
        Calibration_Status it = Some "uncalibrated" /\
        nth_error (items info') i = Some it' /\
        Angular_position it' = Some theta /\
        Calibration_Status it' = Some "estimated" /\
        item_X it' = Some (fst (fst (angle_to_xy L theta radius))) /\
        item_Y it' = Some (snd (fst (angle_to_xy L theta radius))) /\
        item_Z it' = Some z_value /\
        same_identity it it' /\
        ((length run < 3)%nat -> Qcabs (th0 - th1) < 1 -> theta = th0) /\
        ((length run < 3)%nat -> 1 <= Qcabs (th0 - th1) ->
           theta = th0 + Qc_of_nat (S k) * (th1 - th0) / Qc_of_nat (S (length run))) /\
        ((3 <= length run)%nat ->
           theta = nth k (filter (theta_values_raw th0 th1 (length run))) 0).
Proof.
  intros Hlen Hc Hr Hz Hsort Hin Hs He Hfar.
  destruct (interpolate_step_with_run filter info c radius z_value sorted s e run th0 th1
              Hlen Hc Hr Hz Hsort Hin Hs He Hfar) as [info' [Hstep Hrun]].
  exists info'. split; [exact Hstep|]. intros k i Hk.
  destruct (Hrun k i Hk) as (it & Hit & Hu & Hit').
  set (theta := nth k (theta_values_with filter th0 th1 (length run)) 0) in *.
  assert (Hkn : (k < length run)%nat) by (apply nth_error_Some; congruence).
  exists it, (set_estimated theta radius z_value it), theta.
  destruct (set_estimated_fields theta radius z_value it) as (F1 & F2 & F3 & F4 & F5 & F6).
  repeat (split; [assumption|]).
  split; [|split].
  - intros Hshort Hnear. unfold theta. rewrite theta_values_with_short by exact Hshort.
    unfold theta_values_raw. apply Qcltb_lt in Hnear. rewrite Hnear.
    apply nth_repeat_lt. exact Hkn.
  - intros Hshort Hwide. unfold theta. rewrite theta_values_with_short by exact Hshort.
    rewrite (theta_values_raw_spaced _ _ _ Hwide).
    rewrite nth_map_seq by exact Hkn. simpl Nat.add.
    field. apply Qc_of_nat_S_neq_0.
  - intro Hlong. unfold theta. rewrite theta_values_with_long by exact Hlong. reflexivity.
Qed.

(** ** Shape of the closed segments *)

Lemma anchor_at_middle (pre l : list item) (it : item) :
  anchor_at (pre ++ it :: l) (length pre) <-> is_anchor it = true.
Proof.
  unfold anchor_at. rewrite nth_error_middle. split.
  - intros [it' [E H]]. inversion E; subst. exact H.
  - intro H. exists it. split; [reflexivity | exact H].
Qed.

Lemma no_anchor_between_step (full : list item) (p i : nat) :
  no_anchor_between full p i -> ~ anchor_at full i -> no_anchor_between full p (S i).
Proof.
  intros H Hi a Hpa Ha. destruct (Nat.eq_dec a i) as [->|Hne]; [exact Hi|].
  apply H; lia.
Qed.

Lemma first_anchor_step (full : list item) (i : nat) :
  first_anchor full i -> ~ anchor_at full i -> first_anchor full (S i).
Proof.
  intros H Hi a Ha. destruct (Nat.eq_dec a i) as [->|Hne]; [exact Hi|].
  apply H. lia.
Qed.

Lemma scan_shape (l : list item) :
  forall pre i prev cur acc,
    i = length pre ->
    scan_shape_inv (pre ++ l) i prev cur acc ->
    Forall (segment_shape (pre ++ l)) (scan l i prev cur acc).
Proof.
  induction l as [|it l IH]; intros pre i prev cur acc Hi Hinv.
  - simpl. destruct Hinv as (_ & _ & Hacc). exact Hacc.
  - assert (Efull : pre ++ it :: l = (pre ++ [it]) ++ l)
      by (rewrite <- app_assoc; reflexivity).
    assert (Hlen : S i = length (pre ++ [it]))
      by (rewrite length_app; simpl; lia).
    assert (Hanc : anchor_at (pre ++ it :: l) i <-> is_anchor it = true)
      by (subst i; apply anchor_at_middle).
    destruct Hinv as (Hcur & Hprev & Hacc).
    simpl scan. destruct (is_anchor it) eqn:Ea.
    + assert (Hnext : (i < S i)%nat /\ no_anchor_between (pre ++ it :: l) i (S i)).
      { split; [lia|]. intros a H1 H2. lia. }
      destruct prev as [p|].
      * destruct Hprev as [Hpi Hpb]. destruct cur as [|c cs].
        -- rewrite Efull. apply (IH _ _ _ _ _ Hlen). rewrite <- Efull.
           split; [intros j []|]. split; [exact Hnext | exact Hacc].
        -- rewrite Efull. apply (IH _ _ _ _ _ Hlen). rewrite <- Efull.
           split; [intros j []|]. split; [exact Hnext|].
           apply Forall_app. split; [exact Hacc|]. constructor; [|constructor].
           simpl. split; [exact Hpi|]. split; [exact Hpb|]. split; [discriminate|].
           intros j Hj. destruct (Hcur j Hj) as [Hji [Hpj|[Hjp Hfirst]]].
           ++ left. split; assumption.
           ++ right. split; assumption.
      * rewrite Efull. apply (IH _ _ _ _ _ Hlen). rewrite <- Efull.
        split; [|split; [exact Hnext | exact Hacc]].
        intros j Hj. destruct (Hcur j Hj) as [Hji _].
        split; [lia|]. right. split; [exact Hji | exact Hprev].
    + assert (Hni : ~ anchor_at (pre ++ it :: l) i).
      { intro H. apply Hanc in H. congruence. }
      assert (Hprev' : match prev with
                       | Some p => (p < S i)%nat /\ no_anchor_between (pre ++ it :: l) p (S i)
                       | None => first_anchor (pre ++ it :: l) (S i)
                       end).
      { destruct prev as [p|].
        - destruct Hprev as [Hpi Hpb]. split; [lia|].
          apply no_anchor_between_step; assumption.
        - apply first_anchor_step; assumption. }
      destruct (is_uncalibrated it) eqn:Hunc.
      * rewrite Efull. apply (IH _ _ _ _ _ Hlen). rewrite <- Efull.
        split; [|split; [exact Hprev' | exact Hacc]].
        intros j Hj. apply in_app_or in Hj. destruct Hj as [Hj|[E|[]]].
        -- destruct (Hcur j Hj) as [Hji Hplace]. split; [lia | exact Hplace].
        -- subst j. split; [lia|]. destruct prev as [p|]; [|exact I].
           left. destruct Hprev as [Hpi _]. exact Hpi.
      * rewrite Efull. apply (IH _ _ _ _ _ Hlen). rewrite <- Efull.
        split; [|split; [exact Hprev' | exact Hacc]].
        intros j Hj. destruct (Hcur j Hj) as [Hji Hplace]. split; [lia | exact Hplace].
Qed.

Lemma find_segments_shape (l : list item) : Forall (segment_shape l) (find_segments l).
Proof.
  unfold find_segments. apply (scan_shape l [] 0 None [] []); [reflexivity|].
  split; [intros j []|]. split; [|constructor].
  intros a Ha. lia.
Qed.

Lemma closed_segment_shape_aux (l : list item) (s e : nat) (run : list nat) :
  In (s, e, run) (find_segments l) ->
  (s < e)%nat /\ anchor_at l e /\ forall j, In j run -> run_place l s e j.
Proof.
  intro Hin.
  destruct (find_segments_ok l) as (_ & Ha & _).
  destruct (Ha _ _ _ Hin) as [_ Hae].
  pose proof (find_segments_shape l) as Hshape.
  rewrite Forall_forall in Hshape. specialize (Hshape _ Hin). simpl in Hshape.
  destruct Hshape as (Hse & _ & _ & Hplace).
  split; [exact Hse|]. split; [exact Hae | exact Hplace].
Qed.

(** X7.  Every closed segment of the scan is bounded by two consecutive
    anchors [s < e] of the list, its run is not empty and holds uncalibrated
    items only, no reference twice, and a run item lies between the two
    anchors unless it precedes [s] and [s] is the first anchor of the
    list. *)
Theorem closed_segment_shape (l : list item) (s e : nat) (run : list nat) :
  In (s, e, run) (find_segments l) ->
  (s < e)%nat /\ anchor_at l s /\ anchor_at l e /\ no_anchor_between l s e /\
  run <> [] /\ NoDup run /\
  forall j, In j run -> uncalibrated_at l j /\ run_place l s e j.
Proof.
  intro Hin.
  destruct (find_segments_ok l) as (Hu & Ha & Hnd).
  destruct (Ha _ _ _ Hin) as [Has Hae].
  pose proof (find_segments_shape l) as Hshape.
  rewrite Forall_forall in Hshape. specialize (Hshape _ Hin). simpl in Hshape.
  destruct Hshape as (Hse & Hbetween & Hne & Hplace).
  repeat split; try assumption.
  - exact (NoDup_run_of _ _ _ _ Hnd Hin).
  - apply Hu. unfold runs. apply in_flat_map. exists (s, e, run). split; assumption.
  - apply Hplace. assumption.
Qed.

(** X8.  After gap interpolation of a step with context, an item of the
    sorted list with no anchor after it is the item it was (a trailing run
    is left alone), and when the list has no two anchors the output is the
    sorted list. *)
Theorem trailing_run_unchanged (info : step_info) (c : Qc * Qc)
    (radius z_value : Qc) (sorted : list item) :
  axis_center info = Some c ->
  calculated_radius info = Some radius ->
  calculated_z info = Some z_value ->
  sort_items (items info) = Ok sorted ->
  exists info',
    interpolate_step info = Ok info' /\
    (forall i, (forall a, (i < a)%nat -> ~ anchor_at sorted a) ->
       nth_error (items info') i = nth_error sorted i) /\
    ((forall a b, anchor_at sorted a -> anchor_at sorted b -> a = b) ->
       items info' = sorted).
Proof.
  intros Hc Hr Hz Hsort.
  unfold interpolate_step. rewrite Hc, Hr, Hz, Hsort. simpl.
  eexists. split; [reflexivity|]. simpl. split.
  - intros i Hlast. apply fold_process_segment_other.
    unfold runs. rewrite in_flat_map. intros [[[s e] run] [Hin Hi]]. simpl in Hi.
    destruct (closed_segment_shape_aux sorted s e run Hin) as (Hse & Hae & Hplace).
    apply (Hlast e); [|exact Hae].
    destruct (Hplace i Hi) as [[_ H]|[H _]]; lia.
  - intro Hone. destruct (find_segments sorted) as [|[[s e] run] segs] eqn:E; [reflexivity|].
    exfalso.
    assert (Hin : In (s, e, run) (find_segments sorted)) by (rewrite E; left; reflexivity).
    destruct (find_segments_ok sorted) as (_ & Ha & _).
    destruct (Ha _ _ _ Hin) as [Has Hae].
    destruct (closed_segment_shape_aux sorted s e run Hin) as (Hse & _ & _).
    specialize (Hone s e Has Hae). lia.
Qed.

(** ** Grouping by sequence identifier *)

Lemma lookup_add_same (k : string) (i : nat) (sequences : list (string * list nat)) :
  lookup_refs k (group_add k i sequences) = lookup_refs k sequences ++ [i].
Proof.
  induction sequences as [|[k' l] rest IH]; simpl.
  - rewrite String.eqb_refl. reflexivity.
  - destruct (String.eqb k' k) eqn:E; simpl; rewrite E; [reflexivity | exact IH].
Qed.

Lemma lookup_add_other (k k0 : string) (i : nat) (sequences : list (string * list nat)) :
  k0 <> k -> lookup_refs k0 (group_add k i sequences) = lookup_refs k0 sequences.
Proof.
  intro Hne. induction sequences as [|[k' l] rest IH]; simpl.
  - apply String.eqb_neq in Hne. rewrite String.eqb_sym, Hne. reflexivity.
  - destruct (String.eqb k' k) eqn:E; simpl.
    + apply String.eqb_eq in E. subst k'.
      assert (E0 : String.eqb k k0 = false) by (apply String.eqb_neq; congruence).
      rewrite E0. reflexivity.
    + destruct (String.eqb k' k0); [reflexivity | exact IH].
Qed.

Lemma keys_group_add (k k0 : string) (i : nat) (sequences : list (string * list nat)) :
  In k0 (map fst (group_add k i sequences)) <-> k0 = k \/ In k0 (map fst sequences).
Proof.
  induction sequences as [|[k' l] rest IH]; simpl.
  - split; [intros [H|[]]; left; congruence | intros [H|[]]; left; congruence].
  - destruct (String.eqb k' k) eqn:E; simpl.
    + apply String.eqb_eq in E. subst k'. split; [tauto|].
      intros [H|H]; [left; congruence | exact H].
    + rewrite IH. tauto.
Qed.

Lemma groups_ok_add (k : string) (i : nat) (sequences : list (string * list nat)) :
  groups_ok sequences -> groups_ok (group_add k i sequences).
Proof.
  induction sequences as [|[k' l] rest IH]; intros [Hnd Hne]; simpl.
  - split; [repeat constructor; intros [] | repeat constructor; discriminate].
  - simpl in Hnd. apply NoDup_cons_iff in Hnd. destruct Hnd as [Hk Hnd].
    inversion Hne as [|? ? Hl Hrest]; subst.
    destruct (String.eqb k' k) eqn:E; simpl.
    + split; [constructor; assumption|].
      constructor; [|exact Hrest]. simpl. destruct l; discriminate.
    + destruct (IH (conj Hnd Hrest)) as [Hnd' Hne'].
      split; [|constructor; assumption].
      constructor; [|exact Hnd'].
      rewrite keys_group_add. simpl. intros [H|H]; [|exact (Hk H)].
      apply String.eqb_neq in E. exact (E H).
Qed.

Lemma lookup_refs_In (sequences : list (string * list nat)) (k : string) (l : list nat) :
  NoDup (map fst sequences) -> In (k, l) sequences -> lookup_refs k sequences = l.
Proof.
  induction sequences as [|[k' l'] rest IH]; intros Hnd Hin; [destruct Hin|].
  simpl in Hnd. apply NoDup_cons_iff in Hnd. destruct Hnd as [Hk Hnd]. simpl.
  destruct Hin as [E|Hin].
  - inversion E; subst. rewrite String.eqb_refl. reflexivity.
  - destruct (String.eqb k' k) eqn:E; [|apply IH; assumption].
    apply String.eqb_eq in E. subst k'. exfalso. apply Hk.
    apply in_map_iff. exists (k, l). split; [reflexivity | exact Hin].
Qed.

Lemma In_lookup_refs (sequences : list (string * list nat)) (k : string) :
  In k (map fst sequences) -> In (k, lookup_refs k sequences) sequences.
Proof.
  induction sequences as [|[k' l'] rest IH]; intro Hin; [destruct Hin|]. simpl.
  destruct (String.eqb k' k) eqn:E.
  - apply String.eqb_eq in E. subst k'. left. reflexivity.
  - right. apply IH. destruct Hin as [H|H]; [|exact H].
    simpl in H. apply String.eqb_neq in E. congruence.
Qed.

Lemma indices_of_cons (k : string) (it : item) (l : list item) (start : nat) :
  indices_of k (it :: l) start
  = (if String.eqb (seq_id it) k then [start] else []) ++ indices_of k l (S start).
Proof.
  unfold indices_of. simpl. destruct (String.eqb (seq_id it) k); reflexivity.
Qed.

Lemma group_from_lookup (k : string) (l : list item) :
  forall i sequences,
    lookup_refs k (group_from l i sequences) = lookup_refs k sequences ++ indices_of k l i.
Proof.
  induction l as [|it l IH]; intros i sequences; simpl.
  - unfold indices_of. simpl. rewrite app_nil_r. reflexivity.
  - rewrite IH, indices_of_cons. destruct (String.eqb (seq_id it) k) eqn:E.
    + apply String.eqb_eq in E. rewrite E, lookup_add_same, <- app_assoc. reflexivity.
    + apply String.eqb_neq in E. rewrite lookup_add_other by congruence. reflexivity.
Qed.

Lemma group_from_keys (k : string) (l : list item) :
  forall i sequences,
    In k (map fst (group_from l i sequences))
    <-> In k (map fst sequences) \/ exists it, In it l /\ seq_id it = k.
Proof.
  induction l as [|it l IH]; intros i sequences; simpl.
  - split; [intro H; left; exact H | intros [H|[it [[] _]]]; exact H].
  - rewrite IH, keys_group_add. split.
    + intros [[H|H]|[it' [H1 H2]]].
      * right. exists it. split; [left; reflexivity | congruence].
      * left. exact H.
      * right. exists it'. split; [right; exact H1 | exact H2].
    + intros [H|[it' [[H1|H1] H2]]].
      * left. right. exact H.
      * left. left. congruence.
      * right. exists it'. split; assumption.
Qed.

Lemma group_from_ok (l : list item) :
  forall i sequences, groups_ok sequences -> groups_ok (group_from l i sequences).
Proof.
  induction l as [|it l IH]; intros i sequences H; simpl; [exact H|].
  apply IH. apply groups_ok_add. exact H.
Qed.

Lemma In_indices_of (k : string) (l : list item) :
  forall start i,
    In i (indices_of k l start)
    <-> (start <= i)%nat /\ exists it, nth_error l (i - start) = Some it /\ seq_id it = k.
Proof.
  induction l as [|it l IH]; intros start i.
  - unfold indices_of. simpl. split; [intros [] | intros [_ [it [H _]]]].
    destruct (i - start)%nat; discriminate H.
  - rewrite indices_of_cons, in_app_iff, IH. split.
    + intros [H|[Hle [it' [Hn Hk]]]].
      * destruct (String.eqb (seq_id it) k) eqn:E; [|destruct H].
        destruct H as [<-|[]]. split; [lia|]. exists it.
        rewrite Nat.sub_diag. split; [reflexivity | apply String.eqb_eq; exact E].
      * split; [lia|]. exists it'. split; [|exact Hk].
        replace (i - start)%nat with (S (i - S start)) by lia. exact Hn.
    + intros [Hle [it' [Hn Hk]]].
      destruct (Nat.eq_dec i start) as [->|Hne].
      * left. rewrite Nat.sub_diag in Hn. simpl in Hn. inversion Hn; subst it'.
        apply String.eqb_eq in Hk. rewrite Hk. left. reflexivity.
      * right. split; [lia|]. exists it'. split; [|exact Hk].
        replace (i - start)%nat with (S (i - S start)) in Hn by lia. exact Hn.
Qed.

(** X9.  The grouping of a step's items makes one entry per sequence
    identifier that occurs (items without one under ["Unknown"]), and the
    entry of an identifier holds the references to exactly the items that
    carry it, in list order; no entry is empty and no reference is in two
    entries. *)
Theorem group_sequences_partition (l : list item) :
  NoDup (map fst (group_sequences l)) /\
  NoDup (flat_map snd (group_sequences l)) /\
  (forall k refs, In (k, refs) (group_sequences l) ->
     refs = indices_of k l 0 /\ refs <> [] /\
     forall i, In i refs <-> exists it, nth_error l i = Some it /\ seq_id it = k) /\
  (forall it, In it l -> In (seq_id it, indices_of (seq_id it) l 0) (group_sequences l)).
Proof.
  assert (Hok : groups_ok (group_sequences l)).
  { apply group_from_ok. split; constructor. }
  destruct Hok as [Hnd Hne].
  assert (Hlook : forall k, lookup_refs k (group_sequences l) = indices_of k l 0).
  { intro k. unfold group_sequences. rewrite group_from_lookup. reflexivity. }
  split; [exact Hnd|]. split; [apply group_sequences_NoDup|]. split.
  - intros k refs Hin.
    assert (E : refs = indices_of k l 0).
    { rewrite <- Hlook. symmetry. apply lookup_refs_In; assumption. }
    split; [exact E|]. split.
    + rewrite Forall_forall in Hne. exact (Hne _ Hin).
    + intro i. rewrite E, In_indices_of, Nat.sub_0_r. split.
      * intros [_ H]. exact H.
      * intro H. split; [lia | exact H].
  - intros it Hit. rewrite <- Hlook. apply In_lookup_refs.
    unfold group_sequences. apply group_from_keys. right. exists it. split; [exact Hit | reflexivity].
Qed.

(** ** Frame of orientation propagation *)

Lemma apply_orientation_correction_frame (base : list item) (sequence_items : list nat)
    (o p k : trend) :
  forall store store',
    Forall2 reoriented base store ->
    apply_orientation_correction sequence_items o p k store = Ok store' ->
    Forall2 reoriented base store'.
Proof.
  induction sequence_items as [|i0 rest IH]; intros store store' Hb H.
  - simpl in H. inversion H; subst. exact Hb.
  - simpl in H. destruct (nth_error store i0) as [it0|] eqn:E0; [|exact (IH _ _ Hb H)].
    destruct (is_correctable it0) eqn:Hc; [|exact (IH _ _ Hb H)].
    destruct (Angular_position it0) as [x|]; simpl in H; [|discriminate H].
    refine (IH _ _ _ H).
    apply Forall2_update_nth_rel; [exact Hb|].
    intros a b Ha Hbi Hab.
    rewrite E0 in Hbi. inversion Hbi; subst b. right.
    destruct Hab as [->|[Hca [o' [p' [k' ->]]]]].
    + split; [exact Hc|]. exists (o x), (p x), (k x). reflexivity.
    + split; [exact Hca|]. exists (o x), (p x), (k x). reflexivity.
Qed.

Lemma process_sequence_reoriented (base store store' : list item) (sequence_items : list nat) :
  Forall2 reoriented base store ->
  process_sequence store sequence_items = Ok store' ->
  Forall2 reoriented base store'.
Proof.
  unfold process_sequence. intros Hb H.
  destruct (length _ <? 3)%nat; [inversion H; subst; exact Hb|].
  destruct (compute_sinusoidal_offsets _) as [[[[o p] k]|]|e]; simpl in H; try discriminate H.
  eapply apply_orientation_correction_frame; eassumption.
Qed.

Lemma process_sequences_reoriented (base : list item) (sequences : list (string * list nat)) :
  forall store store',
    Forall2 reoriented base store ->
    process_sequences sequences store = Ok store' ->
    Forall2 reoriented base store'.
Proof.
  induction sequences as [|[k l] rest IH]; intros store store' Hb H.
  - simpl in H. inversion H; subst. exact Hb.
  - simpl in H. destruct (process_sequence store l) as [store1|e] eqn:E1; simpl in H;
      [|discriminate H].
    apply (IH store1 store'); [|exact H].
    eapply process_sequence_reoriented; eassumption.
Qed.

Lemma propagate_step_reoriented (l l' : list item) :
  propagate_step l = Ok l' -> Forall2 reoriented l l'.
Proof.
  unfold propagate_step. intro H.
  apply (process_sequences_reoriented l (group_sequences l) l l'); [|exact H].
  apply Forall2_refl_eq. intro a. left. reflexivity.
Qed.

(** X10.  When orientation propagation of a step returns, it returns as
    many items as it was given, in the same order; an item that is neither
    visually calibrated nor estimated (an original, an uncalibrated item)
    is returned as it was, and any other item is returned as it was except
    possibly for Omega, Phi and Kappa. *)
Theorem orientation_propagation_frame (l l' : list item) :
  propagate_step l = Ok l' ->
  length l' = length l /\
  Forall2 (fun a b =>
             reoriented a b /\
             (is_correctable a = false -> b = a) /\
             ImageNumber b = ImageNumber a /\ Timestamp b = Timestamp a /\
             Sequence b = Sequence a /\ Calibration_Status b = Calibration_Status a /\
             Angular_position b = Angular_position a /\
             item_X b = item_X a /\ item_Y b = item_Y a /\ item_Z b = item_Z a)
          l l'.
Proof.
  intro H. pose proof (propagate_step_reoriented _ _ H) as Hr.
  split; [symmetry; exact (Forall2_length Hr)|].
  eapply Forall2_impl; [|exact Hr]. intros a b Hab. split; [exact Hab|].
  destruct Hab as [->|[Hc [o [p [k ->]]]]].
  - repeat split; reflexivity.
  - split; [intro Hn; congruence|]. simpl. repeat split; reflexivity.
Qed.

(** ** Statuses, item by item *)

Lemma Forall2_compose {A B C : Type} (R : A -> B -> Prop) (S : B -> C -> Prop)
    (T : A -> C -> Prop) :
  (forall a b c, R a b -> S b c -> T a c) ->
  forall l1 l2 l3, Forall2 R l1 l2 -> Forall2 S l2 l3 -> Forall2 T l1 l3.
Proof.
  intros HT l1 l2 l3 H12. revert l3.
  induction H12 as [|a b l1 l2 Hab H12 IH]; intros l3 H23.
  - inversion H23. constructor.
  - inversion H23 as [|b' c l2' l3' Hbc H23' E1 E2]; subst.
    constructor; [exact (HT _ _ _ Hab Hbc) | apply IH; exact H23'].
Qed.

Lemma interpolated_from_status (radius z_value : Qc) (a b : item) :
  interpolated_from radius z_value a b ->
  same_object a b /\ status_step a b /\
  (Calibration_Status a <> Some "uncalibrated" -> b = a).
Proof.
  intro H. pose proof (interpolated_from_identity _ _ _ _ H) as (H1 & H2 & H3 & _).
  split; [unfold same_object; tauto|].
  destruct H as [->|[Hu [theta ->]]].
  - split; [left; reflexivity | intros _; reflexivity].
  - apply is_uncalibrated_status in Hu. split.
    + right. split; [exact Hu | apply set_estimated_status].
    + intro Hn. contradiction.
Qed.

Lemma interpolate_step_items (info info' : step_info) :
  interpolate_step info = Ok info' ->
  exists sorted,
    (sort_items (items info) = Ok sorted \/ sorted = items info) /\
    Permutation (items info) sorted /\
    Forall2 (fun a b =>
               same_object a b /\ status_step a b /\
               (Calibration_Status a <> Some "uncalibrated" -> b = a))
            sorted (items info').
Proof.
  unfold interpolate_step. intro H.
  assert (Hskip : Ok info = Ok info' ->
            exists sorted,
              (sort_items (items info) = Ok sorted \/ sorted = items info) /\
              Permutation (items info) sorted /\
              Forall2 (fun a b =>
                         same_object a b /\ status_step a b /\
                         (Calibration_Status a <> Some "uncalibrated" -> b = a))
                      sorted (items info')).
  { intro E. inversion E; subst info'. exists (items info).
    split; [right; reflexivity|]. split; [reflexivity|].
    apply Forall2_refl_eq. intro a. unfold same_object.
    split; [tauto|]. split; [left; reflexivity | intros _; reflexivity]. }
  destruct (axis_center info) as [c|]; [|exact (Hskip H)].
  destruct (calculated_radius info) as [radius|]; [|exact (Hskip H)].
  destruct (calculated_z info) as [z_value|]; [|exact (Hskip H)].
  clear Hskip.
  destruct (sort_items (items info)) as [sorted|e] eqn:Es; simpl in H; [|discriminate H].
  inversion H; subst info'. simpl. clear H.
  exists sorted. split; [left; reflexivity|].
  split; [apply sort_items_perm; exact Es|].
  eapply Forall2_impl; [intros a b Hab; exact (interpolated_from_status radius z_value a b Hab)|].
  apply fold_process_segment_frame.
  - destruct (find_segments_ok sorted) as [Hu _]. exact Hu.
  - apply Forall2_refl_eq. intro a. left. reflexivity.
Qed.

Lemma propagate_step_items (l l' : list item) :
  propagate_step l = Ok l' ->
  Forall2 (fun a b =>
             same_object a b /\ Calibration_Status b = Calibration_Status a /\
             Angular_position b = Angular_position a /\
             item_X b = item_X a /\ item_Y b = item_Y a /\ item_Z b = item_Z a)
          l l'.
Proof.
  intro H. pose proof (propagate_step_reoriented _ _ H) as Hr.
  eapply Forall2_impl; [|exact Hr]. intros a b Hab. unfold same_object.
  destruct Hab as [->|[Hc [o [p [k ->]]]]]; simpl; repeat split; reflexivity.
Qed.

(** C3.  Item by item: gap interpolation returns the items of the step in
    sorted order, and each output item is the input item at its place (same
    image number, timestamp and sequence) with the status it had, except
    that an uncalibrated item may have become estimated; an item that was
    not uncalibrated (original and visually calibrated ones in particular)
    is returned unchanged in every field.  Orientation propagation returns
    every item at its place with the status it had.  Over both stages the
    only transition is uncalibrated to estimated. *)
Theorem status_only_uncalibrated_to_estimated :
  (forall info info', interpolate_step info = Ok info' ->
     exists sorted,
       (sort_items (items info) = Ok sorted \/ sorted = items info) /\
       Permutation (items info) sorted /\
       Forall2 (fun a b =>
                  same_object a b /\
                  (Calibration_Status b = Calibration_Status a \/
                   (Calibration_Status a = Some "uncalibrated" /\
                    Calibration_Status b = Some "estimated")) /\
                  (Calibration_Status a <> Some "uncalibrated" -> b = a))
               sorted (items info')) /\
  (forall l l', propagate_step l = Ok l' ->
     Forall2 (fun a b =>
                same_object a b /\ Calibration_Status b = Calibration_Status a /\
                Angular_position b = Angular_position a /\
                item_X b = item_X a /\ item_Y b = item_Y a /\ item_Z b = item_Z a)
             l l') /\
  (forall data data', pipeline data = Ok data' ->
     Forall2 (fun s s' =>
                fst s' = fst s /\
                exists sorted,
                  Permutation (items (snd s)) sorted /\
                  Forall2 (fun a c =>
                             same_object a c /\
                             (Calibration_Status c = Calibration_Status a \/
                              (Calibration_Status a = Some "uncalibrated" /\
                               Calibration_Status c = Some "estimated")) /\
                             (Calibration_Status a <> Some "uncalibrated" ->
                              Calibration_Status c = Calibration_Status a /\
                              Angular_position c = Angular_position a /\
                              item_X c = item_X a /\ item_Y c = item_Y a /\
                              item_Z c = item_Z a))
                          sorted (items (snd s')))
             data data').
Proof.
  split; [exact interpolate_step_items|].
  split; [exact propagate_step_items|].
  unfold pipeline. intros data data'' H.
  destruct (interpolate_positions data) as [data'|e] eqn:E1; simpl in H; [|discriminate H].
  apply mapM_Forall2 in E1. apply mapM_Forall2 in H.
  revert data'' H. induction E1 as [|s s' l l' Hs E1 IH]; intros data'' H.
  - inversion H. constructor.
  - inversion H as [|x s'' y l'' Hs' H' Ex Ey]; subst. constructor; [|apply IH; exact H'].
    destruct (interpolate_step (snd s)) as [info'|e] eqn:Ei; simpl in Hs; [|discriminate Hs].
    inversion Hs; subst s'. simpl in Hs'.
    destruct (propagate_step (items info')) as [l2|e] eqn:Ep; simpl in Hs'; [|discriminate Hs'].
    inversion Hs'; subst s''. split; [reflexivity|]. simpl.
    destruct (interpolate_step_items _ _ Ei) as (sorted & _ & Hperm & H1).
    exists sorted. split; [exact Hperm|].
    refine (Forall2_compose _ _ _ _ _ _ _ H1 (propagate_step_items _ _ Ep)).
    intros a b c (Hab & Hst & Heq) (Hbc & Hsc & Ha & Hx & Hy & Hz).
    unfold same_object in *. split; [|split].
    + destruct Hab as (A1 & A2 & A3). destruct Hbc as (B1 & B2 & B3).
      repeat split; congruence.
    + rewrite Hsc. exact Hst.
    + intro Hn. rewrite (Heq Hn) in *. repeat split; assumption.
Qed.

(** ** Each sequence is corrected as if it were alone *)

Lemma apply_orientation_correction_ext (P : nat -> Prop) (sequence_items : list nat)
    (o p k : trend) :
  (forall i, In i sequence_items -> P i) ->
  forall store1 store2 store1',
    (forall i, P i -> nth_error store1 i = nth_error store2 i) ->
    apply_orientation_correction sequence_items o p k store1 = Ok store1' ->
    exists store2',
      apply_orientation_correction sequence_items o p k store2 = Ok store2' /\
      forall i, P i -> nth_error store1' i = nth_error store2' i.
Proof.
  induction sequence_items as [|i0 rest IH]; intros HP store1 store2 store1' Hsame H.
  - simpl in H. inversion H; subst. exists store2. split; [reflexivity | exact Hsame].
  - assert (HP' : forall i, In i rest -> P i) by (intros i Hi; apply HP; right; exact Hi).
    simpl in H |- *. rewrite <- (Hsame i0 (HP i0 (or_introl eq_refl))).
    destruct (nth_error store1 i0) as [it0|]; [|exact (IH HP' _ _ _ Hsame H)].
    destruct (is_correctable it0); [|exact (IH HP' _ _ _ Hsame H)].
    destruct (Angular_position it0) as [x|]; simpl in H |- *; [|discriminate H].
    refine (IH HP' _ _ _ _ H).
    intros i Hi. rewrite !nth_error_update_nth, (Hsame i Hi). reflexivity.
Qed.

Lemma process_sequence_ext (sequence_items : list nat) (store1 store2 store1' : list item) :
  (forall i, In i sequence_items -> nth_error store1 i = nth_error store2 i) ->
  process_sequence store1 sequence_items = Ok store1' ->
  exists store2',
    process_sequence store2 sequence_items = Ok store2' /\
    forall i, In i sequence_items -> nth_error store1' i = nth_error store2' i.
Proof.
  intros Hsame H. unfold process_sequence in *.
  rewrite (deref_ext store1 store2 sequence_items)
    by (intros i Hi; symmetry; apply Hsame; exact Hi).
  destruct (length _ <? 3)%nat.
  { inversion H; subst. exists store2. split; [reflexivity | exact Hsame]. }
  destruct (compute_sinusoidal_offsets _) as [[[[o p] k]|]|e]; simpl in H |- *;
    try discriminate H.
  apply (apply_orientation_correction_ext (fun i => In i sequence_items) sequence_items o p k
           (fun i Hi => Hi) store1 store2 store1' Hsame H).
Qed.

(** X11.  When orientation propagation of a step returns, what it returns
    for the items of a sequence is what correcting that sequence alone on
    the input would return for them: no sequence reads or writes an item of
    another. *)
Theorem sequences_corrected_independently (l l' : list item)
    (sid : string) (sequence_items : list nat) :
  propagate_step l = Ok l' ->
  In (sid, sequence_items) (group_sequences l) ->
  exists alone,
    process_sequence l sequence_items = Ok alone /\
    (forall i, In i sequence_items -> nth_error l' i = nth_error alone i) /\
    (forall i, ~ In i sequence_items -> nth_error alone i = nth_error l i).
Proof.
  intros H Hin. unfold propagate_step in H.
  pose proof (group_sequences_NoDup l) as Hnd.
  destruct (in_split _ _ Hin) as [pre [post Esplit]]. rewrite Esplit in H, Hnd.
  rewrite flat_map_app in Hnd. simpl in Hnd.
  assert (Hpre : forall i, In i sequence_items -> ~ In i (flat_map snd pre)).
  { intros i Hi. apply (NoDup_app_disjoint_r _ _ Hnd). apply in_or_app. left. exact Hi. }
  assert (Hpost : forall i, In i sequence_items -> ~ In i (flat_map snd post)).
  { intros i Hi. apply NoDup_app_remove_l in Hnd. exact (NoDup_app_disjoint _ _ Hnd i Hi). }
  rewrite process_sequences_app in H.
  destruct (process_sequences pre l) as [store1|e] eqn:E1; simpl in H; [|discriminate H].
  destruct (process_sequence store1 sequence_items) as [store2|e] eqn:E2; simpl in H;
    [|discriminate H].
  destruct (process_sequences_frame _ _ _ E1) as [F1 _].
  destruct (process_sequences_frame _ _ _ H) as [F3 _].
  destruct (process_sequence_ext sequence_items store1 l store2) as [alone [Ea Hagree]];
    [intros i Hi; apply F1; apply Hpre; exact Hi | exact E2 |].
  exists alone. split; [exact Ea|]. split.
  - intros i Hi. rewrite (F3 i (Hpost i Hi)). apply Hagree. exact Hi.
  - intros i Hi. destruct (process_sequence_frame _ _ _ Ea) as [F _]. apply F. exact Hi.
Qed.

(** ** Sorting and deduplicating the anchor samples *)

Lemma insert_sample_perm (x : sample) (l : list sample) :
  Permutation (insert_sample x l) (x :: l).
Proof.
  induction l as [|y l IH]; simpl; [reflexivity|].
  destruct (Qcltb (fst y) (fst x)); [|reflexivity].
  rewrite IH. apply perm_swap.
Qed.

Lemma sort_samples_perm (l : list sample) : Permutation (sort_samples l) l.
Proof.
  induction l as [|x l IH]; simpl; [reflexivity|].
  rewrite insert_sample_perm. constructor. exact IH.
Qed.

Lemma insert_sample_sorted (x : sample) (l : list sample) :
  StronglySorted sample_le l -> StronglySorted sample_le (insert_sample x l).
Proof.
  induction 1 as [|y l Hl IH Hy]; simpl.
  - constructor; constructor.
  - destruct (Qcltb (fst y) (fst x)) eqn:E.
    + constructor; [exact IH|].
      apply (Permutation_Forall (Permutation_sym (insert_sample_perm x l))).
      constructor; [|exact Hy].
      apply Qcltb_lt in E. apply Qclt_le_weak. exact E.
    + apply Qcltb_ge in E.
      constructor; [constructor; assumption|].
      constructor; [exact E|].
      rewrite Forall_forall in *. intros z Hz. unfold sample_le.
      eapply Qcle_trans; [exact E | apply Hy; exact Hz].
Qed.

Lemma sort_samples_sorted (l : list sample) : StronglySorted sample_le (sort_samples l).
Proof.
  induction l as [|x l IH]; simpl; [constructor | apply insert_sample_sorted; exact IH].
Qed.

Lemma unique_samples_cons2 (x y : sample) (r : list sample) :
  unique_samples (x :: y :: r)
  = x :: (if Qc_eq_bool (fst x) (fst y) then tl (unique_samples (y :: r))
          else unique_samples (y :: r)).
Proof. reflexivity. Qed.

Lemma Qc_eq_bool_false (x y : Qc) : Qc_eq_bool x y = false -> x <> y.
Proof. unfold Qc_eq_bool. destruct (Qc_eq_dec x y); [discriminate | intros _; assumption]. Qed.

Lemma unique_samples_sorted (l : list sample) :
  StronglySorted sample_le l ->
  StronglySorted sample_lt (unique_samples l) /\
  (forall s, In s (unique_samples l) -> In s l) /\
  (forall s, In s l -> exists s', In s' (unique_samples l) /\ fst s' = fst s) /\
  hd_error (unique_samples l) = hd_error l.
Proof.
  induction l as [|x l IH]; intro Hs.
  - simpl. repeat split; try constructor; intros s [].
  - apply StronglySorted_inv in Hs. destruct Hs as [Hs Hx].
    destruct l as [|y r].
    + simpl. repeat split.
      * constructor; constructor.
      * intros s H. exact H.
      * intros s [<-|[]]. exists x. split; [left; reflexivity | reflexivity].
    + destruct (IH Hs) as (Hu & Hin & Hcov & Hhd).
      rewrite unique_samples_cons2.
      destruct (unique_samples (y :: r)) as [|y' t] eqn:Eu; [discriminate Hhd|].
      simpl in Hhd. injection Hhd as ->.
      apply StronglySorted_inv in Hu. destruct Hu as [Ht Hy].
      assert (Hxy : fst x <= fst y).
      { rewrite Forall_forall in Hx. apply Hx. left. reflexivity. }
      destruct (Qc_eq_bool (fst x) (fst y)) eqn:E.
      * apply Qc_eq_bool_correct in E. simpl tl. repeat split.
        -- constructor; [exact Ht|]. unfold sample_lt in *. rewrite E. exact Hy.
        -- intros s [<-|H]; [left; reflexivity|]. right. apply Hin. right. exact H.
        -- intros s [<-|H]; [exists x; split; [left; reflexivity | reflexivity]|].
           destruct (Hcov s H) as [s' [[<-|Hs'] Es']].
           ++ exists x. split; [left; reflexivity | congruence].
           ++ exists s'. split; [right; exact Hs' | exact Es'].
      * apply Qc_eq_bool_false in E. repeat split.
        -- constructor; [constructor; assumption|].
           assert (Hlt : fst x < fst y).
           { destruct (Qcle_lt_or_eq _ _ Hxy) as [H|H]; [exact H | contradiction]. }
           constructor; [exact Hlt|].
           rewrite Forall_forall in *. intros s Hs'. unfold sample_lt in *.
           eapply Qclt_trans; [exact Hlt | apply Hy; exact Hs'].
        -- intros s [<-|H]; [left; reflexivity|]. right. apply Hin. exact H.
        -- intros s [<-|H]; [exists x; split; [left; reflexivity | reflexivity]|].
           destruct (Hcov s H) as [s' [Hs' Es']].
           exists s'. split; [right; exact Hs' | exact Es'].
Qed.

(** X12.  The anchor samples that reach the fits have strictly increasing
    angular positions; each is one of the samples read, with its own Omega,
    Phi and Kappa, and every angular position read is represented. *)
Theorem anchor_samples_strictly_increasing (l : list sample) :
  let columns := unique_samples (sort_samples l) in
  StronglySorted sample_lt columns /\
  (forall s, In s columns -> In s l) /\
  (forall s, In s l -> exists s', In s' columns /\ fst s' = fst s) /\
  (l <> [] -> columns <> []).
Proof.
  intro columns. unfold columns.
  destruct (unique_samples_sorted _ (sort_samples_sorted l)) as (Hu & Hin & Hcov & _).
  pose proof (sort_samples_perm l) as Hperm.
  split; [exact Hu|]. split; [|split].
  - intros s Hs. apply (Permutation_in _ Hperm). apply Hin. exact Hs.
  - intros s Hs. apply Hcov. apply (Permutation_in _ (Permutation_sym Hperm)). exact Hs.
  - intros Hne E. destruct l as [|s l]; [congruence|].
    destruct (Hcov s) as [s' [Hs' _]].
    + apply (Permutation_in _ (Permutation_sym Hperm)). left. reflexivity.
    + rewrite E in Hs'. destruct Hs'.
Qed.

(** ** Keys that orientation propagation reads without a guard *)

Lemma mapM_getitem_raises {A : Type} (key : string) (field : item -> option A) (l : list item) :
  Exists (fun it => field it = None) l ->
  mapM (fun it => getitem key (field it)) l = Raise (KeyError key).
Proof.
  induction l as [|it l IH]; intro H; [inversion H|]. simpl.
  destruct (field it) as [a|] eqn:E; simpl; [|reflexivity].
  inversion H as [? ? Hh|? ? Ht]; subst; [congruence|].
  rewrite (IH Ht). reflexivity.
Qed.

Lemma mapM_getitem_returns {A : Type} (key : string) (field : item -> option A) (l : list item) :
  Forall (fun it => field it <> None) l ->
  exists v, mapM (fun it => getitem key (field it)) l = Ok v.
Proof.
  intro H. apply mapM_getitem_total.
  eapply Forall_impl; [|exact H]. intros it Hit. simpl in Hit.
  destruct (field it); [reflexivity | congruence].
Qed.

(** X13.  On three or more anchors the trend fit reads four keys of every
    anchor, one key after the other over all anchors: an anchor without
    angular position raises [KeyError "Angular position"]; when all have
    one, an anchor without Omega raises [KeyError "Omega"]; then Phi, then
    Kappa.  No numerical routine has been called by then. *)
Theorem unguarded_keys_raise (l : list item) :
  (3 <= length l)%nat ->
  (Exists (fun it => Angular_position it = None) l ->
     compute_sinusoidal_offsets l = Raise (KeyError "Angular position")) /\
  (Forall (fun it => Angular_position it <> None) l ->
   Exists (fun it => Omega it = None) l ->
     compute_sinusoidal_offsets l = Raise (KeyError "Omega")) /\
  (Forall (fun it => Angular_position it <> None) l ->
   Forall (fun it => Omega it <> None) l ->
   Exists (fun it => Phi it = None) l ->
     compute_sinusoidal_offsets l = Raise (KeyError "Phi")) /\
  (Forall (fun it => Angular_position it <> None) l ->
   Forall (fun it => Omega it <> None) l ->
   Forall (fun it => Phi it <> None) l ->
   Exists (fun it => Kappa it = None) l ->
     compute_sinusoidal_offsets l = Raise (KeyError "Kappa")).
Proof.
  intro Hlen. unfold compute_sinusoidal_offsets, read_columns.
  destruct (length l <? 3)%nat eqn:E; [apply Nat.ltb_lt in E; lia|].
  split; [|split; [|split]].
  - intro Ha. rewrite (mapM_getitem_raises "Angular position" Angular_position l Ha).
    reflexivity.
  - intros Ha Ho.
    destruct (mapM_getitem_returns "Angular position" Angular_position l Ha) as [a ->].
    rewrite (mapM_getitem_raises "Omega" Omega l Ho). reflexivity.
  - intros Ha Ho Hp.
    destruct (mapM_getitem_returns "Angular position" Angular_position l Ha) as [a ->].
    destruct (mapM_getitem_returns "Omega" Omega l Ho) as [o ->].
    rewrite (mapM_getitem_raises "Phi" Phi l Hp). reflexivity.
  - intros Ha Ho Hp Hk.
    destruct (mapM_getitem_returns "Angular position" Angular_position l Ha) as [a ->].
    destruct (mapM_getitem_returns "Omega" Omega l Ho) as [o ->].
    destruct (mapM_getitem_returns "Phi" Phi l Hp) as [p ->].
    rewrite (mapM_getitem_raises "Kappa" Kappa l Hk). reflexivity.
Qed.

(** ** What is contained and what escapes *)

Lemma mapM_raises_iff {A B : Type} (f : A -> result B) (l : list A) (e : exn) :
  mapM f l = Raise e -> Exists (fun a => f a = Raise e) l.
Proof.
  induction l as [|a l IH]; simpl; [discriminate|].
  destruct (f a) as [b|e'] eqn:Ea; simpl.
  - destruct (mapM f l) as [bs|e'']; simpl; [discriminate|].
    intro H. inversion H; subst. right. apply IH. reflexivity.
  - intro H. inversion H; subst. left. exact Ea.
Qed.

Lemma mapM_app_raises {A B : Type} (f : A -> result B) (pre post : list A) (a : A)
    (pre' : list B) (e : exn) :
  mapM f pre = Ok pre' -> f a = Raise e -> mapM f (pre ++ a :: post) = Raise e.
Proof.
  revert pre'. induction pre as [|x pre IH]; intros pre' Hpre Ha; simpl.
  - rewrite Ha. reflexivity.
  - simpl in Hpre. destruct (f x) as [b|e']; simpl in *; [|discriminate Hpre].
    destruct (mapM f pre) as [bs|e']; simpl in Hpre; [|discriminate Hpre].
    rewrite (IH bs eq_refl Ha). reflexivity.
Qed.

Lemma apply_orientation_correction_raises (sequence_items : list nat) (o p k : trend) :
  forall store i it,
    In i sequence_items -> nth_error store i = Some it ->
    (Calibration_Status it = Some "visually calibrated" \/
     Calibration_Status it = Some "estimated") ->
    Angular_position it = None ->
    apply_orientation_correction sequence_items o p k store
    = Raise (KeyError "Angular position").
Proof.
  induction sequence_items as [|i0 rest IH]; intros store i it Hin Hi Hst Hx; [destruct Hin|].
  pose proof (proj2 (is_correctable_status it) Hst) as Hc.
  simpl. destruct (Nat.eq_dec i0 i) as [->|Hne].
  - rewrite Hi, Hc, Hx. reflexivity.
  - destruct Hin as [E|Hin]; [contradiction|].
    destruct (nth_error store i0) as [it0|] eqn:E0; [|exact (IH _ i it Hin Hi Hst Hx)].
    destruct (is_correctable it0); [|exact (IH _ i it Hin Hi Hst Hx)].
    destruct (Angular_position it0) as [x|]; simpl; [|reflexivity].
    apply (IH _ i it Hin); [|exact Hst | exact Hx].
    rewrite nth_error_update_nth_other by exact Hne. exact Hi.
Qed.

(** The one call of the sinusoidal fit decides the outcome: parameters, the
    spline after [RuntimeError], or the exception itself. *)
Lemma fit_sinusoidal_trend_outcome (angular_positions values : list Qc) :
  (3 <= length angular_positions)%nat ->
  let p0 := (np_std L values,
             Qc_of_Z 2 * np_pi L / (py_max angular_positions - py_min angular_positions + 1),
             0, np_mean values) in
    match curve_fit L sinusoidal angular_positions values p0 5000 with
    | Ok (A, B, C, D) =>
        fit_sinusoidal_trend angular_positions values = Ok (fun x => sinusoidal x A B C D)
    | Raise RuntimeError =>
        fit_sinusoidal_trend angular_positions values
        = UnivariateSpline L angular_positions values 3 (Q2Qc (1 # 2))
    | Raise e => fit_sinusoidal_trend angular_positions values = Raise e
    end.
Proof.
  intro H. unfold fit_sinusoidal_trend.
  apply Nat.ltb_ge in H. rewrite H.
  cbv zeta.
  destruct (curve_fit L _ _ _ _ _) as [[[[A B] C] D]|[key| | |]]; reflexivity.
Qed.

(** On steps whose axis centre has both coordinates the passes over the
    JSON steps are the passes over [step_info]. *)
Lemma interpolate_raw_step_of (info : step_info) :
  interpolate_raw_step (raw_of info) = (info' <- interpolate_step info ;; Ok (raw_of info')).
Proof.
  destruct info as [l [[cx cy]|] [radius|] [z_value|]];
    unfold interpolate_raw_step, interpolate_step, raw_of; simpl; try reflexivity.
  destruct (sort_items l) as [sorted|e]; reflexivity.
Qed.

Lemma mapM_map {A B C : Type} (f : B -> result C) (g : A -> B) (l : list A) :
  mapM f (map g l) = mapM (fun a => f (g a)) l.
Proof.
  induction l as [|a l IH]; simpl; [reflexivity|]. rewrite IH. reflexivity.
Qed.

Lemma mapM_then_map {A B C : Type} (f : A -> result B) (h : A -> result C) (g : B -> C)
    (l : list A) :
  (forall a, h a = (b <- f a ;; Ok (g b))) ->
  mapM h l = (bs <- mapM f l ;; Ok (map g bs)).
Proof.
  intro H. induction l as [|a l IH]; simpl; [reflexivity|].
  rewrite H, IH. destruct (f a) as [b|e]; simpl; [|reflexivity].
  destruct (mapM f l) as [bs|e]; reflexivity.
Qed.

Lemma interpolate_raw_positions_of (data : dataset) :
  interpolate_raw_positions (raw_data_of data)
  = (data' <- interpolate_positions data ;; Ok (raw_data_of data')).
Proof.
  unfold interpolate_raw_positions, interpolate_positions, raw_data_of.
  rewrite mapM_map.
  rewrite (mapM_then_map
             (fun kv => info <- interpolate_step (snd kv) ;; Ok (fst kv, info))
             _ (fun kv => (fst kv, raw_of (snd kv)))).
  - destruct (mapM _ data); reflexivity.
  - intro kv. cbn [fst snd]. rewrite interpolate_raw_step_of.
    destruct (interpolate_step (snd kv)); reflexivity.
Qed.

Lemma propagate_raw_orientation_of (data : dataset) :
  propagate_raw_orientation (raw_data_of data)
  = (data' <- propagate_orientation data ;; Ok (raw_data_of data')).
Proof.
  unfold propagate_raw_orientation, propagate_orientation, raw_data_of.
  rewrite mapM_map.
  apply (mapM_then_map _ _ (fun kv => (fst kv, raw_of (snd kv)))).
  intro kv. cbn [fst snd raw_of raw_items raw_axis_center raw_calculated_radius raw_calculated_z].
  destruct (propagate_step (items (snd kv))); reflexivity.
Qed.

Lemma raw_pipeline_of (data : dataset) :
  raw_pipeline (raw_data_of data) = (data' <- pipeline data ;; Ok (raw_data_of data')).
Proof.
  unfold raw_pipeline, pipeline. rewrite interpolate_raw_positions_of.
  destruct (interpolate_positions data) as [data1|e]; simpl; [|reflexivity].
  apply propagate_raw_orientation_of.
Qed.

(** Where an exception of the pipeline comes from. *)
Lemma mapM_getitem_raises_key {A : Type} (key : string) (field : item -> option A)
    (l : list item) (e : exn) :
  mapM (fun it => getitem key (field it)) l = Raise e -> e = KeyError key.
Proof.
  intro H. apply mapM_raises_iff in H. apply Exists_exists in H.
  destruct H as [it [_ Hit]]. destruct (field it); [discriminate Hit|].
  inversion Hit. reflexivity.
Qed.

Lemma read_columns_raises (l : list item) (e : exn) :
  read_columns l = Raise e -> unguarded_key e.
Proof.
  unfold read_columns, unguarded_key. intro H.
  destruct (mapM _ l) as [a|e1] eqn:Ea; simpl in H.
  2:{ inversion H; subst. rewrite (mapM_getitem_raises_key _ _ _ _ Ea). tauto. }
  destruct (mapM (fun it => getitem "Omega" (Omega it)) l) as [o|e1] eqn:Eo; simpl in H.
  2:{ inversion H; subst. rewrite (mapM_getitem_raises_key _ _ _ _ Eo). tauto. }
  destruct (mapM (fun it => getitem "Phi" (Phi it)) l) as [p|e1] eqn:Ep; simpl in H.
  2:{ inversion H; subst. rewrite (mapM_getitem_raises_key _ _ _ _ Ep). tauto. }
  destruct (mapM (fun it => getitem "Kappa" (Kappa it)) l) as [k|e1] eqn:Ek; simpl in H.
  2:{ inversion H; subst. rewrite (mapM_getitem_raises_key _ _ _ _ Ek). tauto. }
  discriminate H.
Qed.

Lemma fit_sinusoidal_trend_raises (angular_positions values : list Qc) (e : exn) :
  fit_sinusoidal_trend angular_positions values = Raise e -> library_raises e.
Proof.
  unfold fit_sinusoidal_trend, library_raises. intro H.
  destruct (length angular_positions <? 3)%nat; [discriminate H|].
  destruct (curve_fit L _ _ _ _ _) as [[[[A B] C] D]|e1] eqn:E; [discriminate H|].
  destruct e1 as [key| | |].
  - inversion H; subst. right. right. left. do 5 eexists. split; [exact E | discriminate].
  - inversion H; subst. right. right. left. do 5 eexists. split; [exact E | discriminate].
  - inversion H; subst. right. right. left. do 5 eexists. split; [exact E | discriminate].
  - right. right. right. do 4 eexists. exact H.
Qed.

Lemma bind_raises {A B : Type} (m : result A) (k : A -> result B) (e : exn) :
  (x <- m ;; k x) = Raise e -> m = Raise e \/ exists a, m = Ok a /\ k a = Raise e.
Proof.
  destruct m as [a|e1]; simpl; intro H; [right; exists a; tauto | left; congruence].
Qed.

Lemma bind_returns {A B : Type} (m : result A) (k : A -> result B) (b : B) :
  (x <- m ;; k x) = Ok b -> exists a, m = Ok a /\ k a = Ok b.
Proof.
  destruct m as [a|e1]; simpl; intro H; [exists a; tauto | discriminate H].
Qed.

Lemma compute_sinusoidal_offsets_outcome (l : list item) :
  (forall e, compute_sinusoidal_offsets l = Raise e -> unguarded_key e \/ library_raises e) /\
  (compute_sinusoidal_offsets l = Ok None -> (length l < 3)%nat).
Proof.
  unfold compute_sinusoidal_offsets.
  destruct (length l <? 3)%nat eqn:El.
  { apply Nat.ltb_lt in El. split; [intros e H; discriminate H | intros _; exact El]. }
  split.
  - intros e H.
    apply bind_raises in H. destruct H as [H|[columns [_ H]]];
      [left; exact (read_columns_raises _ _ H)|].
    apply bind_raises in H. destruct H as [H|[os [_ H]]];
      [right; left; do 3 eexists; exact H|].
    apply bind_raises in H. destruct H as [H|[ps [_ H]]];
      [right; left; do 3 eexists; exact H|].
    apply bind_raises in H. destruct H as [H|[[slope intercept] [_ H]]];
      [right; right; left; do 2 eexists; exact H|].
    apply bind_raises in H. destruct H as [H|[ot [_ H]]];
      [right; exact (fit_sinusoidal_trend_raises _ _ _ H)|].
    apply bind_raises in H. destruct H as [H|[pt [_ H]]];
      [right; exact (fit_sinusoidal_trend_raises _ _ _ H)|].
    discriminate H.
  - intro H.
    apply bind_returns in H. destruct H as [columns [_ H]].
    apply bind_returns in H. destruct H as [os [_ H]].
    apply bind_returns in H. destruct H as [ps [_ H]].
    apply bind_returns in H. destruct H as [[slope intercept] [_ H]].
    apply bind_returns in H. destruct H as [ot [_ H]].
    apply bind_returns in H. destruct H as [pt [_ H]].
    discriminate H.
Qed.

Lemma apply_orientation_correction_raises_key (sequence_items : list nat) (o p k : trend) :
  forall store e,
    apply_orientation_correction sequence_items o p k store = Raise e ->
    e = KeyError "Angular position".
Proof.
  induction sequence_items as [|i0 rest IH]; intros store e H; [discriminate H|].
  simpl in H. destruct (nth_error store i0) as [it0|]; [|exact (IH _ _ H)].
  destruct (is_correctable it0); [|exact (IH _ _ H)].
  destruct (Angular_position it0) as [x|]; simpl in H; [exact (IH _ _ H)|].
  inversion H. reflexivity.
Qed.

Lemma process_sequence_raises (store : list item) (sequence_items : list nat) (e : exn) :
  process_sequence store sequence_items = Raise e -> unguarded_key e \/ library_raises e.
Proof.
  unfold process_sequence. intro H.
  destruct (length _ <? 3)%nat eqn:El; [discriminate H|].
  apply Nat.ltb_ge in El.
  destruct (compute_sinusoidal_offsets_outcome
              (filter (status_is "original") (deref store sequence_items))) as [Hr Hn].
  destruct (compute_sinusoidal_offsets _) as [[[[o p] k]|]|e1]; simpl in H.
  - left. rewrite (apply_orientation_correction_raises_key _ _ _ _ _ _ H).
    unfold unguarded_key. tauto.
  - specialize (Hn eq_refl). lia.
  - inversion H; subst. apply Hr. reflexivity.
Qed.

Lemma propagate_step_raises (l : list item) (e : exn) :
  propagate_step l = Raise e -> unguarded_key e \/ library_raises e.
Proof.
  unfold propagate_step. generalize (group_sequences l). intro sequences.
  generalize l at 1. induction sequences as [|[sid refs] rest IH]; intros store H;
    [discriminate H|].
  simpl in H. destruct (process_sequence store refs) as [store1|e1] eqn:E1; simpl in H.
  - exact (IH _ H).
  - inversion H; subst. exact (process_sequence_raises _ _ _ E1).
Qed.

Lemma interpolate_raw_step_raises_key (step : raw_step) (e : exn) :
  interpolate_raw_step step = Raise e -> unguarded_key e.
Proof.
  unfold interpolate_raw_step, unguarded_key. intro H.
  destruct (raw_axis_center step) as [[x y]|]; [|discriminate H].
  destruct (raw_calculated_radius step) as [radius|]; [|discriminate H].
  destruct (raw_calculated_z step) as [z_value|]; [|discriminate H].
  destruct x as [cx|]; simpl in H; [|inversion H; tauto].
  destruct y as [cy|]; simpl in H; [|inversion H; tauto].
  destruct (interpolate_step _) as [info'|e1] eqn:E; simpl in H; [discriminate H|].
  inversion H; subst. apply interpolate_step_raises_iff in E. destruct E as [-> _]. tauto.
Qed.

Lemma raw_pipeline_raises (data : raw_dataset) (e : exn) :
  raw_pipeline data = Raise e -> unguarded_key e \/ library_raises e.
Proof.
  unfold raw_pipeline. intro H.
  destruct (interpolate_raw_positions data) as [data1|e1] eqn:E1; simpl in H.
  - unfold propagate_raw_orientation in H. apply mapM_raises_iff in H.
    apply Exists_exists in H. destruct H as [kv [_ Hkv]].
    destruct (propagate_step (raw_items (snd kv))) as [l|e2] eqn:E2; simpl in Hkv;
      [discriminate Hkv|].
    inversion Hkv; subst. exact (propagate_step_raises _ _ E2).
  - inversion H; subst. unfold interpolate_raw_positions in E1.
    apply mapM_raises_iff in E1. apply Exists_exists in E1. destruct E1 as [kv [_ Hkv]].
    destruct (interpolate_raw_step (snd kv)) as [s|e2] eqn:E2; simpl in Hkv;
      [discriminate Hkv|].
    inversion Hkv; subst. left. exact (interpolate_raw_step_raises_key _ _ E2).
Qed.

(** C1, as the code has it.  The failures that are contained are those the
    scripts guard: a step without axis centre, radius or height is returned
    as it is and the next steps are processed; a missing, empty or
    unparseable timestamp sorts as the latest time; a closed segment with a
    missing endpoint angle, or with endpoints less than 0.01 apart, is left
    as it is and the next segments are processed; a sequence with fewer
    than 3 originals is left as it is and the next sequences are processed;
    after a [RuntimeError] of the sinusoidal fit the trend is what the
    spline returns or raises.  Nothing else is caught.  Any other exception
    of the sinusoidal fit is the exception of the fit; an exception in a
    sequence ends the step, an exception in a step ends the stage, both at
    once, and an exception of either stage is the exception of the
    pipeline.  The keys read without a guard raise [KeyError]: the image
    number of an item, the [x] and [y] of an axis centre, the angular
    position of an anchor that is fitted and of an item that is
    corrected.  And an exception of the pipeline is one of these: a
    [KeyError] for a key read without a guard, or an exception of a
    numerical routine other than the [RuntimeError] of the sinusoidal
    fit. *)
Theorem contained_and_escaping_failures :
  (forall name info rest,
     axis_center info = None \/ calculated_radius info = None \/ calculated_z info = None ->
     interpolate_step info = Ok info /\
     interpolate_positions ((name, info) :: rest)
     = (rest' <- interpolate_positions rest ;; Ok ((name, info) :: rest'))) /\
  (forall name step rest,
     raw_axis_center step = None \/ raw_calculated_radius step = None \/
     raw_calculated_z step = None ->
     interpolate_raw_step step = Ok step /\
     interpolate_raw_positions ((name, step) :: rest)
     = (rest' <- interpolate_raw_positions rest ;; Ok ((name, step) :: rest'))) /\
  (forall it,
     Timestamp it = None \/ Timestamp it = Some "" \/
     (exists ts, Timestamp it = Some ts /\ strptime L ts = None) ->
     parsed_ts it = None /\
     (forall n, ImageNumber it = Some n -> item_sort_key it = Ok (n, None)) /\
     (forall t, ts_leb t (parsed_ts it) = true)) /\
  (forall radius z_value store s e run segs,
     theta_at store s = None \/ theta_at store e = None \/
     (exists th0 th1, theta_at store s = Some th0 /\ theta_at store e = Some th1 /\
                      Qcabs (th0 - th1) < Q2Qc (1 # 100)) ->
     process_segment radius z_value store (s, e, run) = store /\
     fold_left (process_segment radius z_value) ((s, e, run) :: segs) store
     = fold_left (process_segment radius z_value) segs store) /\
  (forall store sid sequence_items rest,
     (length (filter (status_is "original") (deref store sequence_items)) < 3)%nat ->
     process_sequence store sequence_items = Ok store /\
     process_sequences ((sid, sequence_items) :: rest) store = process_sequences rest store) /\
  (forall angular_positions values,
     (3 <= length angular_positions)%nat ->
     let p0 := (np_std L values,
                Qc_of_Z 2 * np_pi L / (py_max angular_positions - py_min angular_positions + 1),
                0, np_mean values) in
       match curve_fit L sinusoidal angular_positions values p0 5000 with
       | Ok (A, B, C, D) =>
           fit_sinusoidal_trend angular_positions values = Ok (fun x => sinusoidal x A B C D)
       | Raise RuntimeError =>
           fit_sinusoidal_trend angular_positions values
           = UnivariateSpline L angular_positions values 3 (Q2Qc (1 # 2))
       | Raise e => fit_sinusoidal_trend angular_positions values = Raise e
       end) /\
  (forall store sequence_items e,
     (3 <= length (filter (status_is "original") (deref store sequence_items)))%nat ->
     compute_sinusoidal_offsets (filter (status_is "original") (deref store sequence_items))
     = Raise e ->
     process_sequence store sequence_items = Raise e) /\
  (forall pre sid sequence_items post store store1 e,
     process_sequences pre store = Ok store1 ->
     process_sequence store1 sequence_items = Raise e ->
     process_sequences (pre ++ (sid, sequence_items) :: post) store = Raise e) /\
  (forall pre kv post pre' e,
     propagate_orientation pre = Ok pre' ->
     propagate_step (items (snd kv)) = Raise e ->
     propagate_orientation (pre ++ kv :: post) = Raise e) /\
  (forall pre kv post pre' e,
     interpolate_positions pre = Ok pre' ->
     interpolate_step (snd kv) = Raise e ->
     interpolate_positions (pre ++ kv :: post) = Raise e) /\
  (forall pre kv post pre' e,
     interpolate_raw_positions pre = Ok pre' ->
     interpolate_raw_step (snd kv) = Raise e ->
     interpolate_raw_positions (pre ++ kv :: post) = Raise e) /\
  (forall data e, interpolate_positions data = Raise e -> pipeline data = Raise e) /\
  (forall data data' e,
     interpolate_positions data = Ok data' -> propagate_orientation data' = Raise e ->
     pipeline data = Raise e) /\
  (forall data e, interpolate_raw_positions data = Raise e -> raw_pipeline data = Raise e) /\
  (forall data data' e,
     interpolate_raw_positions data = Ok data' -> propagate_raw_orientation data' = Raise e ->
     raw_pipeline data = Raise e) /\
  (forall info,
     has_context info -> Exists (fun it => ImageNumber it = None) (items info) ->
     interpolate_step info = Raise (KeyError "ImageNumber")) /\
  (forall step,
     has_raw_context step -> center_x_of step = None ->
     interpolate_raw_step step = Raise (KeyError "x")) /\
  (forall step,
     has_raw_context step -> center_x_of step <> None -> center_y_of step = None ->
     interpolate_raw_step step = Raise (KeyError "y")) /\
  (forall l,
     (3 <= length l)%nat -> Exists (fun it => Angular_position it = None) l ->
     compute_sinusoidal_offsets l = Raise (KeyError "Angular position")) /\
  (forall sequence_items o p k store i it,
     In i sequence_items -> nth_error store i = Some it ->
     Calibration_Status it = Some "visually calibrated" \/
     Calibration_Status it = Some "estimated" ->
     Angular_position it = None ->
     apply_orientation_correction sequence_items o p k store
     = Raise (KeyError "Angular position")) /\
  (forall data e, raw_pipeline data = Raise e -> unguarded_key e \/ library_raises e) /\
  (forall data e, pipeline data = Raise e -> unguarded_key e \/ library_raises e).
Proof.
  split.
  { intros name info rest H.
    assert (E : interpolate_step info = Ok info).
    { unfold interpolate_step.
      destruct (axis_center info); [|reflexivity].
      destruct (calculated_radius info); [|reflexivity].
      destruct (calculated_z info); [|reflexivity].
      destruct H as [H|[H|H]]; discriminate H. }
    split; [exact E|]. unfold interpolate_positions. cbn [mapM fst snd].
    rewrite E. reflexivity. }
  split.
  { intros name step rest H.
    assert (E : interpolate_raw_step step = Ok step).
    { unfold interpolate_raw_step.
      destruct (raw_axis_center step) as [[x y]|]; [|reflexivity].
      destruct (raw_calculated_radius step); [|reflexivity].
      destruct (raw_calculated_z step); [|reflexivity].
      destruct H as [H|[H|H]]; discriminate H. }
    split; [exact E|]. unfold interpolate_raw_positions. cbn [mapM fst snd].
    rewrite E. reflexivity. }
  split.
  { intros it H.
    assert (E : parsed_ts it = None).
    { unfold parsed_ts. destruct H as [->|[->|[ts [-> Hts]]]]; [reflexivity | reflexivity|].
      destruct (String.eqb ts ""); [reflexivity | exact Hts]. }
    split; [exact E|]. split.
    - intros n Hn. unfold item_sort_key. rewrite Hn, E. reflexivity.
    - intro t. rewrite E. destruct t; reflexivity. }
  split.
  { intros radius z_value store s e run segs H.
    assert (E : process_segment radius z_value store (s, e, run) = store).
    { unfold process_segment.
      destruct H as [Hs|[He|[th0 [th1 [Hs [He Hnear]]]]]].
      - rewrite Hs. reflexivity.
      - rewrite He. destruct (theta_at store s); reflexivity.
      - rewrite Hs, He. apply Qcltb_lt in Hnear. rewrite Hnear. reflexivity. }
    split; [exact E|]. cbn [fold_left]. rewrite E. reflexivity. }
  split.
  { intros store sid sequence_items rest H.
    pose proof (process_sequence_skip _ _ H) as E.
    split; [exact E|]. cbn [process_sequences]. rewrite E. reflexivity. }
  split; [exact fit_sinusoidal_trend_outcome|].
  split.
  { intros store sequence_items e Hlen H. unfold process_sequence.
    apply Nat.ltb_ge in Hlen. rewrite Hlen, H. reflexivity. }
  split.
  { intros pre sid sequence_items post store store1 e Hpre H.
    rewrite process_sequences_app, Hpre. cbn [bind process_sequences].
    rewrite H. reflexivity. }
  split.
  { intros pre kv post pre' e Hpre H. unfold propagate_orientation in *.
    apply (mapM_app_raises _ _ _ _ _ _ Hpre). rewrite H. reflexivity. }
  split.
  { intros pre kv post pre' e Hpre H. unfold interpolate_positions in *.
    apply (mapM_app_raises _ _ _ _ _ _ Hpre). rewrite H. reflexivity. }
  split.
  { intros pre kv post pre' e Hpre H. unfold interpolate_raw_positions in *.
    apply (mapM_app_raises _ _ _ _ _ _ Hpre). rewrite H. reflexivity. }
  split; [intros data e H; unfold pipeline; rewrite H; reflexivity|].
  split; [intros data data' e H1 H2; unfold pipeline; rewrite H1; exact H2|].
  split; [intros data e H; unfold raw_pipeline; rewrite H; reflexivity|].
  split; [intros data data' e H1 H2; unfold raw_pipeline; rewrite H1; exact H2|].
  split.
  { intros info Hctx Hex. apply interpolate_step_raises_iff. tauto. }
  split.
  { intros step (Ha & Hr & Hz) Hx. unfold interpolate_raw_step, center_x_of in *.
    destruct (raw_axis_center step) as [[x y]|]; [|congruence].
    destruct (raw_calculated_radius step); [|congruence].
    destruct (raw_calculated_z step); [|congruence].
    rewrite Hx. reflexivity. }
  split.
  { intros step (Ha & Hr & Hz) Hx Hy.
    unfold interpolate_raw_step, center_x_of, center_y_of in *.
    destruct (raw_axis_center step) as [[x y]|]; [|congruence].
    destruct (raw_calculated_radius step); [|congruence].
    destruct (raw_calculated_z step); [|congruence].
    destruct x as [cx|]; [|congruence]. rewrite Hy. reflexivity. }
  split.
  { intros l Hlen Hex. unfold compute_sinusoidal_offsets, read_columns.
    destruct (length l <? 3)%nat eqn:E; [apply Nat.ltb_lt in E; lia|].
    rewrite (mapM_getitem_raises "Angular position" Angular_position l Hex). reflexivity. }
  split; [intros sequence_items o p k store i it; apply apply_orientation_correction_raises|].
  split; [exact raw_pipeline_raises|].
  intros data e H. apply (raw_pipeline_raises (raw_data_of data)).
  rewrite raw_pipeline_of, H. reflexivity.
Qed.

(** ** Shape of the output *)

Lemma interpolate_step_shape (info info' : step_info) :
  interpolate_step info = Ok info' ->
  axis_center info' = axis_center info /\
  calculated_radius info' = calculated_radius info /\
  calculated_z info' = calculated_z info /\
  length (items info') = length (items info).
Proof.
  intro H. destruct (interpolate_step_status _ _ H) as [sorted [Hperm Hst]].
  assert (Hlen : length (items info') = length (items info)).
  { rewrite <- (Forall2_length Hst). symmetry. apply Permutation_length. exact Hperm. }
  unfold interpolate_step in H.
  destruct (axis_center info) eqn:Ec;
    [|inversion H; subst; rewrite Ec; repeat split; reflexivity].
  destruct (calculated_radius info) eqn:Er;
    [|inversion H; subst; rewrite Ec, Er; repeat split; reflexivity].
  destruct (calculated_z info) eqn:Ez;
    [|inversion H; subst; rewrite Ec, Er, Ez; repeat split; reflexivity].
  destruct (sort_items (items info)); simpl in H; [|discriminate H].
  inversion H; subst info'. simpl. repeat split; reflexivity || exact Hlen.
Qed.

(** X14.  When the two stages return, the output has the steps of the
    input, under the same names and in the same order, each with the
    geometric context and the number of items it had: no step and no item
    is created or deleted. *)
Theorem pipeline_keeps_shape (data data' : dataset) :
  pipeline data = Ok data' -> Forall2 same_shape data data'.
Proof.
  unfold pipeline. intro H.
  destruct (interpolate_positions data) as [data1|e] eqn:E1; simpl in H; [|discriminate H].
  apply mapM_Forall2 in E1. apply mapM_Forall2 in H.
  revert data' H. induction E1 as [|s s1 l l1 Hs E1 IH]; intros data' H.
  - inversion H. constructor.
  - inversion H as [|x s' y l' Hs' H' Ex Ey]; subst. constructor; [|apply IH; exact H'].
    destruct (interpolate_step (snd s)) as [info1|e] eqn:Ei; simpl in Hs; [|discriminate Hs].
    inversion Hs; subst s1. simpl in Hs'.
    destruct (propagate_step (items info1)) as [l2|e] eqn:Ep; simpl in Hs'; [|discriminate Hs'].
    inversion Hs'; subst s'.
    destruct (interpolate_step_shape _ _ Ei) as (H1 & H2 & H3 & H4).
    pose proof (Forall2_length (propagate_step_reoriented _ _ Ep)) as H5.
    unfold same_shape. simpl. repeat split; try assumption. congruence.
Qed.

(** ** Geographic coordinates *)

Lemma add_latlon_item_located (center_lat center_lon s : Qc) (it it' : geo_item) :
  add_latlon_item center_lat center_lon s it = Ok it' ->
  located center_lat center_lon s it it'.
Proof.
  unfold add_latlon_item, located. intro H.
  destruct (camera_position_t it) as [t|] eqn:Et.
  - destruct t as [|x [|y rest]]; simpl in H; try discriminate H.
    inversion H; subst it'. simpl. repeat split; try reflexivity; try (symmetry; exact Et).
    exists x, y, rest. repeat split; reflexivity.
  - inversion H; subst it'. rewrite Et. repeat split; reflexivity.
Qed.

Lemma add_latlon_item_raises (center_lat center_lon s : Qc) (it : geo_item) (e : exn) :
  add_latlon_item center_lat center_lon s it = Raise e <->
  e = ValueError /\ short_position 2 it.
Proof.
  unfold add_latlon_item, short_position.
  destruct (camera_position_t it) as [t|].
  - destruct t as [|x [|y rest]]; simpl.
    + split; [intro H; inversion H; split; [reflexivity|]; exists []; split;
                [reflexivity | simpl; lia]
             | intros [-> _]; reflexivity].
    + split; [intro H; inversion H; split; [reflexivity|]; exists [x]; split;
                [reflexivity | simpl; lia]
             | intros [-> _]; reflexivity].
    + split; [intro H; discriminate H|].
      intros [_ [t [Et Hlen]]]. inversion Et; subst t. simpl in Hlen. lia.
  - split; [intro H; discriminate H | intros [_ [t [Et _]]]; discriminate Et].
Qed.

Lemma mapM_raises_same {A B : Type} (f : A -> result B) (l : list A) (e : exn) :
  (forall a e', f a = Raise e' -> e' = e) ->
  Exists (fun a => f a = Raise e) l -> mapM f l = Raise e.
Proof.
  intros Hsame. induction l as [|a l IH]; intro H; [inversion H|]. simpl.
  destruct (f a) as [b|e'] eqn:Ea; simpl.
  - inversion H as [? ? Hh|? ? Ht]; subst; [congruence|]. rewrite (IH Ht). reflexivity.
  - rewrite (Hsame a e' Ea). reflexivity.
Qed.

Lemma add_latlon_step_located (center_lat center_lon : Qc) (step step' : geo_step) :
  add_latlon_step center_lat center_lon step = Ok step' ->
  geo_axis_center step' = geo_axis_center step /\
  geo_calculated_radius step' = geo_calculated_radius step /\
  Forall2 (located center_lat center_lon (step_scale_factor step))
          (geo_items step) (geo_items step').
Proof.
  unfold add_latlon_step. intro H.
  destruct (mapM _ (geo_items step)) as [l|e] eqn:E; simpl in H; [|discriminate H].
  inversion H; subst step'. simpl. repeat split.
  apply mapM_Forall2 in E. eapply Forall2_impl; [|exact E].
  intros a b Hab. apply add_latlon_item_located. exact Hab.
Qed.

(** X16.  When the conversion returns, the output has the steps of the
    input with their names, axis centre and radius; an item without camera
    position is returned as it was; an item with one keeps its pose, name
    and position and gets latitude [center_lat + y*s] and longitude
    [center_lon + x*s] from the first two coordinates [x], [y] and the scale
    factor [s] of its step. *)
Theorem add_latlon_located (sequences_data data' : geo_dataset) (center_lat center_lon : Qc) :
  add_latlon_to_json sequences_data center_lat center_lon = Ok data' ->
  Forall2 (located_step center_lat center_lon) sequences_data data'.
Proof.
  unfold add_latlon_to_json. intro H. apply mapM_Forall2 in H.
  eapply Forall2_impl; [|exact H]. intros s s' Hs. cbv beta in Hs.
  destruct (add_latlon_step center_lat center_lon (snd s)) as [step'|e] eqn:E; simpl in Hs;
    [|discriminate Hs].
  inversion Hs; subst s'. unfold located_step. simpl.
  destruct (add_latlon_step_located _ _ _ _ E) as (H1 & H2 & H3).
  repeat split; assumption.
Qed.

Lemma add_latlon_step_raises (center_lat center_lon : Qc) (step : geo_step) (e : exn) :
  add_latlon_step center_lat center_lon step = Raise e <->
  e = ValueError /\ Exists (short_position 2) (geo_items step).
Proof.
  unfold add_latlon_step. split.
  - intro H.
    destruct (mapM _ (geo_items step)) as [l|e'] eqn:E; simpl in H; [discriminate H|].
    inversion H; subst e'. apply mapM_raises_iff in E.
    apply Exists_exists in E. destruct E as [it [Hin Hit]].
    apply add_latlon_item_raises in Hit. destruct Hit as [-> Hshort].
    split; [reflexivity|]. apply Exists_exists. exists it. split; assumption.
  - intros [-> Hex].
    rewrite (mapM_raises_same _ _ ValueError); [reflexivity | |].
    + intros a e' Ha. apply add_latlon_item_raises in Ha. destruct Ha as [-> _]. reflexivity.
    + apply Exists_exists in Hex. destruct Hex as [it [Hin Hshort]].
      apply Exists_exists. exists it. split; [exact Hin|].
      apply add_latlon_item_raises. split; [reflexivity | exact Hshort].
Qed.

(** X17.  The conversion raises nothing but [ValueError], and raises it
    exactly when some item has a camera position with fewer than two
    coordinates. *)
Theorem add_latlon_raises (sequences_data : geo_dataset) (center_lat center_lon : Qc) :
  (forall e, add_latlon_to_json sequences_data center_lat center_lon = Raise e ->
     e = ValueError) /\
  ((exists e, add_latlon_to_json sequences_data center_lat center_lon = Raise e) <->
   Exists (short_position 2) (all_geo_items sequences_data)).
Proof.
  unfold add_latlon_to_json.
  set (f := fun kv : string * geo_step =>
              step <- add_latlon_step center_lat center_lon (snd kv) ;; Ok (fst kv, step)).
  assert (Hf : forall kv e, f kv = Raise e <->
                e = ValueError /\ Exists (short_position 2) (geo_items (snd kv))).
  { intros kv e. unfold f.
    rewrite <- (add_latlon_step_raises center_lat center_lon (snd kv) e).
    destruct (add_latlon_step center_lat center_lon (snd kv)) as [st|e']; simpl;
      split; intro H; try discriminate H; inversion H; reflexivity. }
  assert (Hall : forall e, mapM f sequences_data = Raise e ->
            e = ValueError /\ Exists (short_position 2) (all_geo_items sequences_data)).
  { intros e H. apply mapM_raises_iff in H. apply Exists_exists in H.
    destruct H as [kv [Hin Hkv]]. apply Hf in Hkv. destruct Hkv as [-> Hex].
    split; [reflexivity|]. apply Exists_exists in Hex. destruct Hex as [it [Hit Hshort]].
    apply Exists_exists. exists it. split; [|exact Hshort].
    unfold all_geo_items. apply in_flat_map. exists kv. split; assumption. }
  split; [intros e H; apply (Hall e H)|]. split.
  - intros [e H]. apply (Hall e H).
  - intro Hex. exists ValueError. apply mapM_raises_same.
    + intros kv e' Hkv. apply Hf in Hkv. destruct Hkv as [-> _]. reflexivity.
    + apply Exists_exists in Hex. destruct Hex as [it [Hit Hshort]].
      unfold all_geo_items in Hit. apply in_flat_map in Hit. destruct Hit as [kv [Hin Hit]].
      apply Exists_exists. exists kv. split; [exact Hin|]. apply Hf.
      split; [reflexivity|]. apply Exists_exists. exists it. split; assumption.
Qed.

(** ** Converting twice; exporting *)

Lemma add_latlon_item_idem (center_lat center_lon s : Qc) (it it' : geo_item) :
  add_latlon_item center_lat center_lon s it = Ok it' ->
  add_latlon_item center_lat center_lon s it' = Ok it'.
Proof.
  unfold add_latlon_item. intro H.
  destruct (camera_position_t it) as [t|] eqn:Et.
  - destruct t as [|x [|y rest]]; simpl in H; try discriminate H.
    inversion H; subst it'. reflexivity.
  - inversion H; subst it'. rewrite Et. reflexivity.
Qed.

Lemma mapM_idem {A : Type} (f : A -> result A) (l l' : list A) :
  (forall a b, f a = Ok b -> f b = Ok b) -> mapM f l = Ok l' -> mapM f l' = Ok l'.
Proof.
  intros Hf H. apply mapM_Forall2 in H.
  induction H as [|a b l l' Hab H IH]; [reflexivity|].
  simpl. rewrite (Hf a b Hab). simpl. rewrite IH. reflexivity.
Qed.

(** X18.  Converting the output of a conversion again, with the same
    centre, returns it unchanged. *)
Theorem add_latlon_idempotent (sequences_data data' : geo_dataset) (center_lat center_lon : Qc) :
  add_latlon_to_json sequences_data center_lat center_lon = Ok data' ->
  add_latlon_to_json data' center_lat center_lon = Ok data'.
Proof.
  unfold add_latlon_to_json. apply mapM_idem.
  intros [name step] [name' step'] H. simpl in H.
  destruct (add_latlon_step center_lat center_lon step) as [st|e] eqn:E; simpl in H;
    [|discriminate H].
  inversion H; subst name' step'. simpl.
  unfold add_latlon_step in E |- *.
  destruct (mapM _ (geo_items step)) as [l|e] eqn:Em; simpl in E; [|discriminate E].
  inversion E; subst st. simpl.
  assert (Escale : step_scale_factor
                     {| geo_items := l; geo_axis_center := geo_axis_center step;
                        geo_calculated_radius := geo_calculated_radius step |}
                   = step_scale_factor step) by reflexivity.
  rewrite Escale.
  rewrite (mapM_idem _ _ _ (add_latlon_item_idem center_lat center_lon _) Em).
  reflexivity.
Qed.

Lemma export_row_some (it : geo_item) :
  (exists row, export_row it = Some row) <-> ~ short_position 3 it.
Proof.
  unfold export_row, coordinate, short_position.
  destruct (camera_position_t it) as [t|].
  - destruct t as [|x [|y [|z rest]]]; simpl.
    + split; [intros [row H]; discriminate H|].
      intro H. exfalso. apply H. exists []. split; [reflexivity | simpl; lia].
    + split; [intros [row H]; discriminate H|].
      intro H. exfalso. apply H. exists [x]. split; [reflexivity | simpl; lia].
    + split; [intros [row H]; discriminate H|].
      intro H. exfalso. apply H. exists [x; y]. split; [reflexivity | simpl; lia].
    + split; [|intros _; eexists; reflexivity].
      intros _ [t [Et Hlen]]. inversion Et; subst t. simpl in Hlen. lia.
  - split; [|intros _; eexists; reflexivity].
    intros _ [t [Et _]]. discriminate Et.
Qed.

Lemma export_row_width (it : geo_item) (row : list cell) :
  export_row it = Some row -> length row = 11%nat.
Proof.
  unfold export_row.
  destruct (coordinate 0 it); [|discriminate].
  destruct (coordinate 1 it); [|discriminate].
  destruct (coordinate 2 it); [|discriminate].
  intro H. inversion H. reflexivity.
Qed.

Lemma export_rows_some (l : list geo_item) :
  (exists rows, export_rows l = Some rows) <-> ~ Exists (short_position 3) l.
Proof.
  induction l as [|it l IH]; simpl.
  - split; [intros _ H; inversion H | intros _; eexists; reflexivity].
  - split.
    + intros [rows H] Hex.
      destruct (export_row it) as [row|] eqn:Er; [|discriminate H].
      destruct (export_rows l) as [rs|] eqn:El; [|discriminate H].
      inversion Hex as [? ? Hh|? ? Ht]; subst.
      * assert (Hsome : exists row0, export_row it = Some row0) by (exists row; exact Er).
        apply export_row_some in Hsome. exact (Hsome Hh).
      * apply IH; [exists rs; reflexivity | exact Ht].
    + intro Hn.
      assert (Hit : ~ short_position 3 it) by (intro H; apply Hn; left; exact H).
      assert (Hl : ~ Exists (short_position 3) l) by (intro H; apply Hn; right; exact H).
      apply export_row_some in Hit. destruct Hit as [row ->].
      apply IH in Hl. destruct Hl as [rs ->]. eexists. reflexivity.
Qed.

Lemma export_rows_shape (l : list geo_item) :
  forall rows, export_rows l = Some rows ->
    length rows = length l /\ Forall (fun row => length row = 11%nat) rows.
Proof.
  induction l as [|it l IH]; intros rows H; simpl in H.
  - inversion H. split; [reflexivity | constructor].
  - destruct (export_row it) as [row|] eqn:Er; [|discriminate H].
    destruct (export_rows l) as [rs|] eqn:El; [|discriminate H].
    inversion H; subst rows. destruct (IH rs eq_refl) as [Hlen Hall].
    split; [simpl; rewrite Hlen; reflexivity|].
    constructor; [exact (export_row_width _ _ Er) | exact Hall].
Qed.

(** X19.  The export returns unless some camera position has fewer than
    three coordinates, in which case indexing it fails; when it returns it
    has written the header and one row per item of the dataset, every row
    of 11 cells. *)
Theorem export_csv_shape (sequences_data : geo_dataset) :
  ((exists rows, export_csv_with_latlon sequences_data = Some rows) <->
   ~ Exists (short_position 3) (all_geo_items sequences_data)) /\
  (forall rows, export_csv_with_latlon sequences_data = Some rows ->
     hd_error rows = Some csv_header /\
     length rows = S (length (all_geo_items sequences_data)) /\
     Forall (fun row => length row = 11%nat) rows).
Proof.
  unfold export_csv_with_latlon. split.
  - rewrite <- export_rows_some.
    destruct (export_rows (all_geo_items sequences_data)) as [rs|].
    + split; intros _; eexists; reflexivity.
    + split; intros [rows H]; discriminate H.
  - intros rows H.
    destruct (export_rows (all_geo_items sequences_data)) as [rs|] eqn:E; [|discriminate H].
    inversion H; subst rows. destruct (export_rows_shape _ _ E) as [Hlen Hall].
    split; [reflexivity|]. split; [simpl; rewrite Hlen; reflexivity|].
    constructor; [reflexivity | exact Hall].
Qed.

Lemma Forall2_flip_In {A B : Type} (R : A -> B -> Prop) (l : list A) (l' : list B) :
  Forall2 R l l' -> forall b, In b l' -> exists a, In a l /\ R a b.
Proof.
  induction 1 as [|a b l l' Hab H IH]; intros b0 Hb; [destruct Hb|].
  destruct Hb as [<-|Hb].
  - exists a. split; [left; reflexivity | exact Hab].
  - destruct (IH b0 Hb) as [a0 [Ha0 Hr]]. exists a0. split; [right; exact Ha0 | exact Hr].
Qed.

(** X20.  In a converted step, the row exported for an item that has a
    camera position carries in its Latitude and Longitude cells the centre
    moved by the step's scale factor times the row's own Y and X cells. *)
Theorem exported_latlon_of_converted (center_lat center_lon : Qc) (step step' : geo_step)
    (it' : geo_item) (row : list cell) :
  add_latlon_step center_lat center_lon step = Ok step' ->
  In it' (geo_items step') ->
  camera_position_t it' <> None ->
  export_row it' = Some row ->
  exists x y,
    nth_error row 1 = Some (CNum x) /\
    nth_error row 2 = Some (CNum y) /\
    nth_error row 9 = Some (CNum (center_lat + y * step_scale_factor step)) /\
    nth_error row 10 = Some (CNum (center_lon + x * step_scale_factor step)).
Proof.
  intros Hstep Hin Hpos Hrow.
  destruct (add_latlon_step_located _ _ _ _ Hstep) as (_ & _ & Hall).
  destruct (Forall2_flip_In _ _ _ Hall it' Hin) as [it [_ Hloc]].
  destruct Hloc as (_ & _ & Ecam & Hcase).
  destruct (camera_position_t it) as [t|] eqn:Et; [|congruence].
  destruct Hcase as [x [y [rest [-> [Hlat Hlon]]]]].
  exists x, y. unfold export_row, coordinate in Hrow. rewrite Ecam in Hrow. simpl in Hrow.
  destruct rest as [|z rest]; simpl in Hrow; [discriminate Hrow|].
  inversion Hrow; subst row. simpl. rewrite Hlat, Hlon. simpl. repeat split; reflexivity.
Qed.

(** ** The comparison plot *)

Lemma bucket_length (field : item -> option Qc) (status : string) (l : list item) :
  (forall it, plottable it = true -> field it <> None) ->
  length (bucket field status l)
  = length (filter (fun it => plottable it && status_is status it) l).
Proof.
  intro Hf. unfold bucket. induction l as [|it l IH]; [reflexivity|]. simpl.
  rewrite length_app, IH.
  destruct (plottable it) eqn:Ep; simpl; [|reflexivity].
  destruct (status_is status it); simpl; [|reflexivity].
  specialize (Hf it Ep). destruct (field it); [reflexivity | congruence].
Qed.

Lemma plottable_fields (it : item) :
  plottable it = true ->
  Angular_position it <> None /\ Omega it <> None /\ Phi it <> None /\ Kappa it <> None.
Proof.
  unfold plottable. rewrite !andb_true_iff. intros [[[[Ha Ho] Hp] Hk] _].
  destruct (Angular_position it), (Omega it), (Phi it), (Kappa it);
    try discriminate; repeat split; discriminate.
Qed.

Lemma bucket_nonempty (status : string) (l : list item) :
  bucket Angular_position status l <> [] <->
  exists it, In it l /\ plottable it = true /\ status_is status it = true.
Proof.
  unfold bucket. induction l as [|it l IH]; simpl.
  - split; [congruence | intros [it [[] _]]].
  - split.
    + intro H. destruct (plottable it && status_is status it) eqn:E.
      * apply andb_true_iff in E. exists it. split; [left; reflexivity | exact E].
      * simpl in H. apply IH in H. destruct H as [it' [Hin H]].
        exists it'. split; [right; exact Hin | exact H].
    + intros [it' [[E|Hin] [Hp Hs]]].
      * subst it'. rewrite Hp, Hs. simpl.
        destruct (plottable_fields _ Hp) as [Ha _].
        destruct (Angular_position it); [discriminate | congruence].
      * intro H. apply app_eq_nil in H. destruct H as [_ H]. revert H. apply IH.
        exists it'. split; [exact Hin | split; assumption].
Qed.

Lemma has_data_plotted (l : list item) :
  has_data l = true <-> exists it, In it l /\ plotted it = true.
Proof.
  unfold has_data, plotted. rewrite existsb_exists. split.
  - intros [sc [Hsc H]].
    assert (Hne : bucket Angular_position (fst sc) l <> []).
    { destruct (bucket Angular_position (fst sc) l); [discriminate H | discriminate]. }
    apply bucket_nonempty in Hne. destruct Hne as [it [Hin [Hp Hs]]].
    exists it. split; [exact Hin|]. apply andb_true_iff. split; [exact Hp|].
    apply existsb_exists. exists sc. split; assumption.
  - intros [it [Hin H]]. apply andb_true_iff in H. destruct H as [Hp Hs].
    apply existsb_exists in Hs. destruct Hs as [sc [Hsc Hs]].
    exists sc. split; [exact Hsc|].
    assert (Hne : bucket Angular_position (fst sc) l <> []).
    { apply bucket_nonempty. exists it. repeat split; assumption. }
    destruct (bucket Angular_position (fst sc) l); [congruence | reflexivity].
Qed.

Lemma step_figure_nil (sel : option (list string)) (kv : string * step_info) :
  step_figure sel kv = [] <->
  (selected sel (fst kv) = true -> forall it, In it (items (snd kv)) -> plotted it = false).
Proof.
  destruct kv as [name info]. simpl.
  destruct (selected sel name); simpl.
  - destruct (has_data (items info)) eqn:E; simpl.
    + split; [discriminate|]. intro H. exfalso.
      apply has_data_plotted in E. destruct E as [it [Hin Hp]].
      rewrite (H eq_refl it Hin) in Hp. discriminate Hp.
    + split; [|reflexivity]. intros _ _ it Hin.
      destruct (plotted it) eqn:Ep; [|reflexivity].
      assert (Hd : has_data (items info) = true)
        by (apply has_data_plotted; exists it; split; assumption).
      congruence.
  - split; [intros _ H; discriminate H | reflexivity].
Qed.

(** X21.  The plot function returns no figure exactly when no selected
    step holds an item that has the five plotted keys and one of the three
    plotted statuses; an empty selection selects every step, as no
    selection does. *)
Theorem visualize_none_iff (json_data : dataset) (selected_sequences : option (list string)) :
  (visualize_camera_positions json_data selected_sequences = None <->
   forall kv, In kv json_data -> selected selected_sequences (fst kv) = true ->
     forall it, In it (items (snd kv)) -> plotted it = false) /\
  visualize_camera_positions json_data (Some [])
  = visualize_camera_positions json_data None.
Proof.
  split; [|reflexivity].
  unfold visualize_camera_positions.
  induction json_data as [|kv data IH]; simpl.
  - split; [intros _ kv [] | reflexivity].
  - pose proof (step_figure_nil selected_sequences kv) as Hnil.
    destruct (step_figure selected_sequences kv) as [|fig figs] eqn:E; simpl.
    + rewrite IH. split.
      * intros H kv' [<-|Hin]; [apply Hnil; reflexivity | apply H; exact Hin].
      * intros H kv' Hin. apply H. right. exact Hin.
    + split; [discriminate|]. intro H. exfalso.
      assert (Hf : fig :: figs = []) by (apply Hnil; apply H; left; reflexivity).
      discriminate Hf.
Qed.

Lemma status_traces_drawable (l : list item) (sc : string * string) :
  Forall drawable (status_traces l sc) /\
  (length (status_traces l sc) = 0%nat \/ length (status_traces l sc) = 3%nat) /\
  (bucket Angular_position (fst sc) l <> [] -> length (status_traces l sc) = 3%nat).
Proof.
  destruct sc as [status color]. simpl.
  assert (Hlen : forall field,
            (forall it, plottable it = true -> field it <> None) ->
            length (bucket Angular_position status l) = length (bucket field status l)).
  { intros field Hf. rewrite !bucket_length; [reflexivity | exact Hf |].
    intros it Hp. apply (plottable_fields it Hp). }
  destruct (bucket Angular_position status l) as [|a xs] eqn:E.
  - split; [constructor|]. split; [left; reflexivity | congruence].
  - split; [|split; [right; reflexivity | reflexivity]].
    repeat constructor; simpl; try discriminate; try lia.
    + apply (Hlen Omega). intros it Hp. apply (plottable_fields it Hp).
    + apply (Hlen Phi). intros it Hp. apply (plottable_fields it Hp).
    + apply (Hlen Kappa). intros it Hp. apply (plottable_fields it Hp).
Qed.

(** X22.  A figure that the plot function returns has three subplot titles
    and three traces (Omega, Phi, Kappa) for each status that has data,
    hence 3, 6 or 9 traces; every trace has at least one point and as many
    ordinates as abscissae. *)
Theorem visualize_figure_drawable (json_data : dataset)
    (selected_sequences : option (list string)) (fig : figure) :
  visualize_camera_positions json_data selected_sequences = Some fig ->
  length (subplot_titles fig) = 3%nat /\
  (exists n, (1 <= n)%nat /\ (n <= 3)%nat /\ length (traces fig) = (3 * n)%nat) /\
  Forall drawable (traces fig).
Proof.
  unfold visualize_camera_positions. intro H.
  assert (Hin : In fig (flat_map (step_figure selected_sequences) json_data)).
  { destruct (flat_map _ json_data) as [|f fs]; [discriminate H|].
    inversion H; subst. left. reflexivity. }
  apply in_flat_map in Hin. destruct Hin as [[name info] [_ Hfig]].
  unfold step_figure in Hfig.
  destruct (selected selected_sequences name); cbn [negb] in Hfig; [|destruct Hfig].
  destruct (has_data (items info)) eqn:Hd; cbn [negb] in Hfig; [|destruct Hfig].
  destruct Hfig as [<-|[]]. cbn [subplot_titles traces]. split; [reflexivity|].
  set (l := items info) in *.
  change (flat_map (status_traces l) status_colors)
    with (status_traces l ("original", "red")
          ++ status_traces l ("visually calibrated", "blue")
          ++ status_traces l ("estimated", "green") ++ []).
  destruct (status_traces_drawable l ("original", "red")) as (D1 & C1 & N1).
  destruct (status_traces_drawable l ("visually calibrated", "blue")) as (D2 & C2 & N2).
  destruct (status_traces_drawable l ("estimated", "green")) as (D3 & C3 & N3).
  split.
  - rewrite !length_app. change (length (@nil trace)) with 0%nat.
    assert (Hsome : length (status_traces l ("original", "red")) = 3%nat \/
                    length (status_traces l ("visually calibrated", "blue")) = 3%nat \/
                    length (status_traces l ("estimated", "green")) = 3%nat).
    { unfold has_data in Hd. apply existsb_exists in Hd.
      destruct Hd as [sc [Hsc Hne]].
      assert (Hb : bucket Angular_position (fst sc) l <> [])
        by (destruct (bucket Angular_position (fst sc) l); [discriminate Hne | discriminate]).
      destruct Hsc as [<-|[<-|[<-|[]]]].
      - left. exact (N1 Hb).
      - right. left. exact (N2 Hb).
      - right. right. exact (N3 Hb). }
    destruct C1 as [E1 | E1], C2 as [E2 | E2], C3 as [E3 | E3];
      rewrite E1, E2, E3 in *;
      destruct Hsome as [Hs|[Hs|Hs]]; try discriminate Hs;
      first [ exists 1%nat; simpl; lia | exists 2%nat; simpl; lia | exists 3%nat; simpl; lia ].
  - rewrite !Forall_app. repeat split; try assumption. constructor.
Qed.

Lemma bucket_filter_plotted (field : item -> option Qc) (status : string) (l : list item) :
  In status (map fst status_colors) ->
  bucket field status (filter plotted l) = bucket field status l.
Proof.
  intro Hst. unfold bucket. induction l as [|it l IH]; [reflexivity|]. simpl.
  destruct (plotted it) eqn:Ep; simpl; [rewrite IH; reflexivity|].
  rewrite IH.
  destruct (plottable it && status_is status it) eqn:E; [|reflexivity].
  exfalso. apply andb_true_iff in E. destruct E as [Hp Hs].
  unfold plotted in Ep. rewrite Hp in Ep. cbn [andb] in Ep.
  assert (Hex : existsb (fun sc => status_is (fst sc) it) status_colors = true).
  { apply existsb_exists. apply in_map_iff in Hst. destruct Hst as [sc [Esc Hsc]].
    exists sc. split; [exact Hsc | rewrite Esc; exact Hs]. }
  congruence.
Qed.

(** X23.  The figure depends only on the items that have the five plotted
    keys and one of the three plotted statuses: removing every other item
    (the uncalibrated ones among them) from every step leaves the result
    unchanged. *)
Theorem visualize_ignores_unplotted (json_data : dataset)
    (selected_sequences : option (list string)) :
  visualize_camera_positions (map only_plotted json_data) selected_sequences
  = visualize_camera_positions json_data selected_sequences.
Proof.
  unfold visualize_camera_positions. f_equal.
  induction json_data as [|[name info] data IH]; [reflexivity|].
  simpl. rewrite IH. f_equal.
  assert (Hb : forall field status, In status (map fst status_colors) ->
            bucket field status (filter plotted (items info)) = bucket field status (items info))
    by (intros; apply bucket_filter_plotted; assumption).
  assert (H1 : In "original" (map fst status_colors)) by (simpl; tauto).
  assert (H2 : In "visually calibrated" (map fst status_colors)) by (simpl; tauto).
  assert (H3 : In "estimated" (map fst status_colors)) by (simpl; tauto).
  unfold has_data, status_traces. simpl.
  rewrite !(Hb _ _ H1), !(Hb _ _ H2), !(Hb _ _ H3). reflexivity.
Qed.

End Pipeline.

(** * Instances on the sample data *)

Lemma interior_points_10_50 :
  1 <= Qcabs (Qc_of_Z 10 - Qc_of_Z 50) /\
  let ths := theta_values_raw (Qc_of_Z 10) (Qc_of_Z 50) 3 in
  length ths = 3%nat /\
  (forall i, (i < 3)%nat -> Qc_of_Z 10 < nth i ths 0 /\ nth i ths 0 < Qc_of_Z 50) /\
  (forall i j, (i < j)%nat -> (j < 3)%nat -> nth i ths 0 < nth j ths 0).
Proof.
  assert (H : 1 <= Qcabs (Qc_of_Z 10 - Qc_of_Z 50)) by (vm_compute; discriminate).
  split; [exact H|].
  destruct (interior_points_uniform (Qc_of_Z 10) (Qc_of_Z 50) 3 H) as (Hlen & _ & Hinc & _).
  destruct Hinc as [Hin Hmono]; [reflexivity|].
  split; [exact Hlen|]. split; [exact Hin | exact Hmono].
Defined.

Lemma few_samples_mean :
  (length [Qc_of_Z 0; Qc_of_Z 90] < 3)%nat /\
  exists t : Qc -> Qc,
    fit_sinusoidal_trend sample_lib [Qc_of_Z 0; Qc_of_Z 90] [Qc_of_Z 1; Qc_of_Z 3] = Ok t /\
    t (Qc_of_Z 45) = Qc_of_Z 2.
Proof.
  assert (H : (length [Qc_of_Z 0; Qc_of_Z 90] < 3)%nat) by (simpl; lia).
  split; [exact H|].
  destruct (fit_sinusoidal_trend_few_samples sample_lib _ [Qc_of_Z 1; Qc_of_Z 3] H)
    as (t & Ht & _ & _ & _ & Htwo).
  exists t. split; [exact Ht|].
  rewrite (Htwo _ _ eq_refl (Qc_of_Z 45)).
  apply Qc_is_canon. reflexivity.
Defined.

Lemma first_sample_low_length (x : list Qc) : length (first_sample_low x) = length x.
Proof. destruct x; reflexivity. Defined.

Lemma degenerate_band_sample :
  let info := step_of band_items in
  let th0 := Q2Qc 7 in
  let th1 := Q2Qc (15 # 2) in
  sort_items sample_lib (items info) = Ok band_items /\
  In (0%nat, 4%nat, [1%nat; 2%nat; 3%nat]) (find_segments band_items) /\
  Q2Qc (1 # 100) <= Qcabs (th0 - th1) /\
  Qcabs (th0 - th1) < 1 /\
  exists info',
    interpolate_step_with sample_lib first_sample_low info = Ok info' /\
    (exists it',
       nth_error (items info') 2 = Some it' /\
       Angular_position it' = Some th0 /\
       Calibration_Status it' = Some "estimated" /\
       item_Z it' = Some (Qc_of_Z 5)) /\
    (exists it',
       nth_error (items info') 1 = Some it' /\
       Angular_position it' = Some (th0 - Q2Qc (1 # 562949953421312))).
Proof.
  intros info th0 th1.
  assert (Hsort : sort_items sample_lib (items info) = Ok band_items) by reflexivity.
  assert (Hin : In (0%nat, 4%nat, [1%nat; 2%nat; 3%nat]) (find_segments band_items))
    by (left; reflexivity).
  assert (Hfar : Q2Qc (1 # 100) <= Qcabs (th0 - th1)) by (vm_compute; discriminate).
  assert (Hnear : Qcabs (th0 - th1) < 1) by reflexivity.
  split; [exact Hsort|]. split; [exact Hin|]. split; [exact Hfar|]. split; [exact Hnear|].
  destruct (degenerate_band_propagates_start sample_lib first_sample_low info (0, 0)
              (Qc_of_Z 10) (Qc_of_Z 5) band_items 0 4 [1%nat; 2%nat; 3%nat] th0 th1
              first_sample_low_length eq_refl eq_refl eq_refl Hsort Hin eq_refl eq_refl
              Hfar Hnear)
    as (_ & _ & info' & Hstep & Hrun).
  exists info'. split; [exact Hstep|]. split.
  - destruct (Hrun 1%nat 2%nat eq_refl)
      as (it & it' & theta & _ & _ & H2 & H3 & H4 & _ & _ & H7 & _ & _ & Hlong & _).
    exists it'. split; [exact H2|]. split; [|split; [exact H4 | exact H7]].
    rewrite H3, (Hlong (le_n 3)). reflexivity.
  - destruct (Hrun 0%nat 1%nat eq_refl)
      as (it & it' & theta & _ & _ & H2 & H3 & _ & _ & _ & _ & _ & _ & Hlong & _).
    exists it'. split; [exact H2|].
    rewrite H3, (Hlong (le_n 3)). reflexivity.
Defined.

Lemma two_sequences_sample :
  group_sequences two_sequences_items
  = [("A", [0; 2; 4; 6]%nat)] ++ ("B", [1; 3; 5]%nat) :: [] /\
  (length (filter (status_is "original") (deref two_sequences_items [1; 3; 5]%nat)) < 3)%nat /\
  process_sequence sample_lib two_sequences_items [1; 3; 5]%nat = Ok two_sequences_items /\
  propagate_step sample_lib two_sequences_items
  = process_sequences sample_lib [("A", [0; 2; 4; 6]%nat)] two_sequences_items.
Proof.
  assert (Hg : group_sequences two_sequences_items
               = [("A", [0; 2; 4; 6]%nat)] ++ ("B", [1; 3; 5]%nat) :: []) by reflexivity.
  assert (Hfew : (length (filter (status_is "original")
                            (deref two_sequences_items [1; 3; 5]%nat)) < 3)%nat)
    by (vm_compute; lia).
  split; [exact Hg|]. split; [exact Hfew|].
  destruct (few_originals_sequence_untouched sample_lib two_sequences_items
              [("A", [0; 2; 4; 6]%nat)] [] "B" [1; 3; 5]%nat Hg Hfew) as (H1 & H2 & _).
  split; [exact H1 | exact H2].
Defined.

(** ** Where the code departs from the claims *)

(** An original item without angular position passes gap interpolation (its
    segment would be skipped) and makes orientation propagation raise,
    whatever the numerical routines do: the run does not complete.  Nor
    does it on the end-to-end scenario, three anchors in one sequence, when
    the sinusoidal fit refuses three samples. *)
Lemma missing_angle_escapes :
  (exists data', interpolate_positions sample_lib [("S1", step_of missing_angle_items)] = Ok data') /\
  pipeline sample_lib [("S1", step_of missing_angle_items)]
  = Raise (KeyError "Angular position") /\
  (forall L : numlib,
     pipeline L [("S1", step_of missing_angle_items)] = Raise (KeyError "Angular position")) /\
  pipeline strict_lib scenario_data = Raise TypeError /\
  ~ (forall data : dataset, exists data', pipeline sample_lib data = Ok data').
Proof.
  assert (E : forall L : numlib,
            pipeline L [("S1", step_of missing_angle_items)]
            = Raise (KeyError "Angular position")) by (intro L; reflexivity).
  split; [eexists; reflexivity|]. split; [apply E|]. split; [exact E|].
  split; [vm_compute; reflexivity|].
  intro H. destruct (H [("S1", step_of missing_angle_items)]) as [data' Hd].
  rewrite E in Hd. discriminate Hd.
Qed.

(** Between anchors at 7 and 7.5 a run of three items goes through the
    filter.  Its first item has the angle 7 only if the filter returns 7 as
    the first sample for the constant array 7, 7, 7; with a filter that
    returns the neighbouring double 6.999999999999998 there, as a binary64
    least-squares fit does, the item has that angle and not 7. *)
Lemma degenerate_band_not_exact :
  let info := step_of band_items in
  let th0 := Q2Qc 7 in
  In (0%nat, 4%nat, [1%nat; 2%nat; 3%nat]) (find_segments band_items) /\
  theta_at band_items 0 = Some th0 /\
  theta_at band_items 4 = Some (Q2Qc (15 # 2)) /\
  Q2Qc (1 # 100) <= Qcabs (th0 - Q2Qc (15 # 2)) /\
  Qcabs (th0 - Q2Qc (15 # 2)) < 1 /\
  (forall filter : list Qc -> list Qc,
     (forall x, length (filter x) = length x) ->
     nth 0 (filter [th0; th0; th0]) 0 <> th0 ->
     exists info' it',
       interpolate_step_with sample_lib filter info = Ok info' /\
       nth_error (items info') 1 = Some it' /\
       Angular_position it' <> Some th0) /\
  exists info' it',
    interpolate_step_with sample_lib first_sample_low info = Ok info' /\
    nth_error (items info') 1 = Some it' /\
    Angular_position it' = Some (Q2Qc (3940649673949183 # 562949953421312)) /\
    Angular_position it' <> Some th0.
Proof.
  intros info th0.
  assert (Hin : In (0%nat, 4%nat, [1%nat; 2%nat; 3%nat]) (find_segments band_items))
    by (left; reflexivity).
  assert (Hfar : Q2Qc (1 # 100) <= Qcabs (th0 - Q2Qc (15 # 2))) by (vm_compute; discriminate).
  split; [exact Hin|]. split; [reflexivity|]. split; [reflexivity|].
  split; [exact Hfar|]. split; [reflexivity|].
  assert (Hgen : forall filter : list Qc -> list Qc,
            (forall x, length (filter x) = length x) ->
            exists info' it',
              interpolate_step_with sample_lib filter info = Ok info' /\
              nth_error (items info') 1 = Some it' /\
              Angular_position it' = Some (nth 0 (filter [th0; th0; th0]) 0)).
  { intros filter Hlen.
    destruct (interpolate_step_with_run sample_lib filter info (0, 0) (Qc_of_Z 10) (Qc_of_Z 5)
                band_items 0 4 [1%nat; 2%nat; 3%nat] th0 (Q2Qc (15 # 2))
                Hlen eq_refl eq_refl eq_refl eq_refl Hin eq_refl eq_refl Hfar)
      as (info' & Hstep & Hrun).
    destruct (Hrun 0%nat 1%nat eq_refl) as (it & _ & _ & Hit').
    exists info', (set_estimated sample_lib
                     (nth 0 (theta_values_with filter th0 (Q2Qc (15 # 2)) 3) 0)
                     (Qc_of_Z 10) (Qc_of_Z 5) it).
    split; [exact Hstep|]. split; [exact Hit'|]. reflexivity. }
  split.
  - intros filter Hlen Hoff. destruct (Hgen filter Hlen) as (info' & it' & H1 & H2 & H3).
    exists info', it'. split; [exact H1|]. split; [exact H2|].
    rewrite H3. intro E. apply Hoff. congruence.
  - destruct (Hgen first_sample_low first_sample_low_length) as (info' & it' & H1 & H2 & H3).
    exists info', it'. split; [exact H1|]. split; [exact H2|].
    assert (E : nth 0 (first_sample_low [th0; th0; th0]) 0
                = Q2Qc (3940649673949183 # 562949953421312)).
    { apply Qc_is_canon. reflexivity. }
    rewrite H3, E. split; [reflexivity|].
    intro F. apply (f_equal (option_map this)) in F. vm_compute in F. discriminate F.
Qed.

(** On doubles the Kappa trend leaves the half-open interval.  The literal
    [-180.00000000000003] is the double [-(180 + 2^-45)]; adding 180 gives
    [-2^-45] exactly, the remainder adds 360 to it, and [360 - 2^-45] lies
    half way between two doubles and rounds to 360, so the result is 180.
    In exact arithmetic it would be [180 - 2^-45]. *)
Lemma kappa_trend_reaches_180 :
  round_b64 (Q2Qc (-18000000000000003 # 100000000000000)) = just_below_minus_180 /\
  round_b64 (just_below_minus_180 + Qc_of_Z 180) = Q2Qc (-1 # 35184372088832) /\
  float_mod (Q2Qc (-1 # 35184372088832)) (Qc_of_Z 360) = Qc_of_Z 360 /\
  kappa_trend_b64 0 just_below_minus_180 0 = Qc_of_Z 180 /\
  ~ kappa_trend_b64 0 just_below_minus_180 0 < Qc_of_Z 180 /\
  kappa_trend 0 just_below_minus_180 0 = Q2Qc (6333186975989759 # 35184372088832).
Proof.
  assert (E : kappa_trend_b64 0 just_below_minus_180 0 = Qc_of_Z 180)
    by (apply Qc_is_canon; vm_compute; reflexivity).
  split; [apply Qc_is_canon; vm_compute; reflexivity|].
  split; [apply Qc_is_canon; vm_compute; reflexivity|].
  split; [apply Qc_is_canon; vm_compute; reflexivity|].
  split; [exact E|].
  split; [rewrite E; intro H; exact (Qclt_not_eq _ _ H eq_refl)|].
  apply Qc_is_canon. vm_compute. reflexivity.
Qed.

(** C2.  The scan appends an uncalibrated item to the run whether or not an
    anchor has been seen, and the first anchor does not reset the run: the
    item before the first anchor is part of the first closed segment and is
    given the angle 45 between the anchors at 0 and 90, and the status
    estimated. *)
Theorem leading_run_is_interpolated :
  find_segments leading_run_items = [(1%nat, 2%nat, [0%nat])] /\
  exists info',
    interpolate_step sample_lib (step_of leading_run_items) = Ok info' /\
    map summary (items info')
    = [ (Some 1%Z, Some "estimated", Some 45%Q);
        (Some 2%Z, Some "original", Some 0%Q);
        (Some 3%Z, Some "original", Some 90%Q) ].
Proof.
  split; [reflexivity|].
  eexists. split; [reflexivity|]. vm_compute. reflexivity.
Qed.

(** ** Instances of the further properties *)

Lemma sort_items_sample :
  sort_items sample_lib unsorted_items
  = Ok [ bare_item 1 "A" "original"; bare_item 2 "A" "uncalibrated";
         bare_item 3 "A" "uncalibrated" ] /\
  Permutation unsorted_items
    [ bare_item 1 "A" "original"; bare_item 2 "A" "uncalibrated";
      bare_item 3 "A" "uncalibrated" ].
Proof.
  assert (H : sort_items sample_lib unsorted_items
              = Ok [ bare_item 1 "A" "original"; bare_item 2 "A" "uncalibrated";
                     bare_item 3 "A" "uncalibrated" ]) by reflexivity.
  split; [exact H|].
  exact (proj1 (sort_items_sorted_stable sample_lib _ _ H)).
Defined.

Lemma gap_interpolation_frame_sample :
  exists info',
    interpolate_step sample_lib (step_of end_to_end_items) = Ok info' /\
    length (items info') = length end_to_end_items.
Proof.
  destruct (interpolate_step sample_lib (step_of end_to_end_items)) as [info'|e] eqn:E;
    [|vm_compute in E; discriminate E].
  exists info'. split; [reflexivity|].
  exact (proj1 (proj2 (proj2 (proj2
           (gap_interpolation_frame sample_lib (step_of end_to_end_items) info' E))))).
Defined.

Lemma skipped_segment_sample :
  In (0%nat, 2%nat, [1%nat]) (find_segments skipped_items) /\
  theta_at skipped_items 2 = None /\
  exists info',
    interpolate_step sample_lib (step_of skipped_items) = Ok info' /\
    forall i, In i [1%nat] ->
      nth_error (items info') i = nth_error skipped_items i /\
      uncalibrated_at (items info') i.
Proof.
  assert (Hin : In (0%nat, 2%nat, [1%nat]) (find_segments skipped_items))
    by (left; reflexivity).
  split; [exact Hin|]. split; [reflexivity|].
  exact (skipped_segment_unchanged sample_lib (step_of skipped_items) (0, 0)
           (Qc_of_Z 10) (Qc_of_Z 5) skipped_items 0 2 [1%nat]
           eq_refl eq_refl eq_refl eq_refl Hin (or_intror (or_introl eq_refl))).
Defined.

Lemma filled_segment_sample :
  In (0%nat, 3%nat, [1%nat; 2%nat]) (find_segments end_to_end_items) /\
  Q2Qc (1 # 100) <= Qcabs (Q2Qc 0 - Q2Qc 90) /\
  exists info',
    interpolate_step_with sample_lib first_sample_low (step_of end_to_end_items) = Ok info' /\
    option_map Angular_position (nth_error (items info') 1) = Some (Some (Q2Qc 30)) /\
    option_map Angular_position (nth_error (items info') 2) = Some (Some (Q2Qc 60)) /\
    option_map Calibration_Status (nth_error (items info') 2) = Some (Some "estimated").
Proof.
  assert (Hin : In (0%nat, 3%nat, [1%nat; 2%nat]) (find_segments end_to_end_items))
    by (left; reflexivity).
  assert (Hfar : Q2Qc (1 # 100) <= Qcabs (Q2Qc 0 - Q2Qc 90)) by (vm_compute; discriminate).
  assert (Hwide : 1 <= Qcabs (Q2Qc 0 - Q2Qc 90)) by (vm_compute; discriminate).
  split; [exact Hin|]. split; [exact Hfar|].
  destruct (filled_segment_values sample_lib first_sample_low (step_of end_to_end_items) (0, 0)
              (Qc_of_Z 10) (Qc_of_Z 5) end_to_end_items 0 3 [1%nat; 2%nat] (Q2Qc 0) (Q2Qc 90)
              first_sample_low_length eq_refl eq_refl eq_refl eq_refl Hin eq_refl eq_refl Hfar)
    as (info' & Hstep & Hrun).
  exists info'. split; [exact Hstep|].
  destruct (Hrun 0%nat 1%nat eq_refl)
    as (it1 & it1' & theta1 & _ & _ & A2 & A3 & _ & _ & _ & _ & _ & _ & Aspaced & _).
  destruct (Hrun 1%nat 2%nat eq_refl)
    as (it2 & it2' & theta2 & _ & _ & B2 & B3 & B4 & _ & _ & _ & _ & _ & Bspaced & _).
  rewrite A2, B2. simpl. rewrite A3, B3, B4.
  rewrite (Aspaced (le_n 3) Hwide), (Bspaced (le_n 3) Hwide).
  split; [|split; [|reflexivity]]; do 2 f_equal; apply Qc_is_canon; reflexivity.
Defined.

Lemma closed_segment_shape_sample :
  In (1%nat, 2%nat, [0%nat]) (find_segments leading_run_items) /\
  (1 < 2)%nat /\ NoDup [0%nat] /\
  forall j, In j [0%nat] -> run_place leading_run_items 1 2 j.
Proof.
  assert (Hin : In (1%nat, 2%nat, [0%nat]) (find_segments leading_run_items))
    by (left; reflexivity).
  split; [exact Hin|].
  destruct (closed_segment_shape leading_run_items 1 2 [0%nat] Hin)
    as (H1 & _ & _ & _ & _ & H6 & H7).
  split; [exact H1|]. split; [exact H6|].
  intros j Hj. exact (proj2 (H7 j Hj)).
Defined.

Lemma trailing_run_sample :
  exists info',
    interpolate_step sample_lib (step_of end_to_end_items) = Ok info' /\
    nth_error (items info') 4 = nth_error end_to_end_items 4.
Proof.
  destruct (trailing_run_unchanged sample_lib (step_of end_to_end_items) (0, 0)
              (Qc_of_Z 10) (Qc_of_Z 5) end_to_end_items eq_refl eq_refl eq_refl eq_refl)
    as [info' [Hstep [Hlast _]]].
  exists info'. split; [exact Hstep|].
  apply Hlast. intros a Ha [it [Hit _]].
  assert (Hnone : nth_error end_to_end_items a = None) by (apply nth_error_None; simpl; lia).
  rewrite Hnone in Hit. discriminate Hit.
Defined.

Lemma orientation_frame_sample :
  exists l',
    propagate_step sample_lib two_sequences_items = Ok l' /\
    length l' = length two_sequences_items.
Proof.
  destruct (propagate_step sample_lib two_sequences_items) as [l'|e] eqn:E;
    [|vm_compute in E; discriminate E].
  exists l'. split; [reflexivity|].
  exact (proj1 (orientation_propagation_frame sample_lib two_sequences_items l' E)).
Defined.

Lemma sequences_independent_sample :
  In ("A", [0; 2; 4; 6]%nat) (group_sequences two_sequences_items) /\
  exists l' alone,
    propagate_step sample_lib two_sequences_items = Ok l' /\
    process_sequence sample_lib two_sequences_items [0; 2; 4; 6]%nat = Ok alone /\
    forall i, In i [0; 2; 4; 6]%nat -> nth_error l' i = nth_error alone i.
Proof.
  assert (Hin : In ("A", [0; 2; 4; 6]%nat) (group_sequences two_sequences_items))
    by (left; reflexivity).
  split; [exact Hin|].
  destruct (propagate_step sample_lib two_sequences_items) as [l'|e] eqn:E;
    [|vm_compute in E; discriminate E].
  destruct (sequences_corrected_independently sample_lib two_sequences_items l'
              "A" [0; 2; 4; 6]%nat E Hin) as [alone [Ha [Hsame _]]].
  exists l', alone. split; [reflexivity|]. split; [exact Ha | exact Hsame].
Defined.

Lemma unguarded_keys_sample :
  (3 <= length missing_angle_items)%nat /\
  compute_sinusoidal_offsets sample_lib missing_angle_items
  = Raise (KeyError "Angular position").
Proof.
  assert (Hlen : (3 <= length missing_angle_items)%nat) by (simpl; lia).
  split; [exact Hlen|].
  apply (proj1 (unguarded_keys_raise sample_lib missing_angle_items Hlen)).
  right. left. reflexivity.
Defined.

Lemma pipeline_shape_sample :
  exists data',
    pipeline sample_lib scenario_data = Ok data' /\
    Forall2 same_shape scenario_data data'.
Proof.
  destruct (pipeline sample_lib scenario_data) as [data'|e] eqn:E;
    [|vm_compute in E; discriminate E].
  exists data'. split; [reflexivity|].
  exact (pipeline_keeps_shape sample_lib scenario_data data' E).
Defined.

Lemma add_latlon_sample :
  exists data',
    add_latlon_to_json geo_sample (Qc_of_Z 40) (Qc_of_Z (-3)) = Ok data' /\
    Forall2 (located_step (Qc_of_Z 40) (Qc_of_Z (-3))) geo_sample data'.
Proof.
  destruct (add_latlon_to_json geo_sample (Qc_of_Z 40) (Qc_of_Z (-3))) as [data'|e] eqn:E;
    [|vm_compute in E; discriminate E].
  exists data'. split; [reflexivity|].
  exact (add_latlon_located geo_sample data' (Qc_of_Z 40) (Qc_of_Z (-3)) E).
Defined.

Lemma add_latlon_idempotent_sample :
  exists data',
    add_latlon_to_json geo_sample (Qc_of_Z 40) (Qc_of_Z (-3)) = Ok data' /\
    add_latlon_to_json data' (Qc_of_Z 40) (Qc_of_Z (-3)) = Ok data'.
Proof.
  destruct (add_latlon_to_json geo_sample (Qc_of_Z 40) (Qc_of_Z (-3))) as [data'|e] eqn:E;
    [|vm_compute in E; discriminate E].
  exists data'. split; [reflexivity|].
  exact (add_latlon_idempotent geo_sample data' (Qc_of_Z 40) (Qc_of_Z (-3)) E).
Defined.

Lemma exported_latlon_sample :
  exists step' it' row,
    add_latlon_step (Qc_of_Z 40) (Qc_of_Z (-3)) geo_sample_step = Ok step' /\
    In it' (geo_items step') /\
    camera_position_t it' <> None /\
    export_row it' = Some row /\
    exists x y,
      nth_error row 1 = Some (CNum x) /\
      nth_error row 2 = Some (CNum y) /\
      nth_error row 9 = Some (CNum (Qc_of_Z 40 + y * step_scale_factor geo_sample_step)) /\
      nth_error row 10 = Some (CNum (Qc_of_Z (-3) + x * step_scale_factor geo_sample_step)).
Proof.
  destruct (add_latlon_step (Qc_of_Z 40) (Qc_of_Z (-3)) geo_sample_step) as [step'|e] eqn:E;
    [|vm_compute in E; discriminate E].
  destruct (add_latlon_step_located _ _ _ _ E) as (_ & _ & Hall).
  remember (geo_items step') as gs eqn:Egs.
  remember (geo_items geo_sample_step) as g0 eqn:Eg0.
  destruct Hall as [|a it' la lb Hloc Hrest]; [discriminate Eg0|].
  injection Eg0 as Ea _. subst a.
  assert (Hin : In it' (geo_items step')) by (rewrite <- Egs; left; reflexivity).
  destruct Hloc as (Hpose & Hname & Hcam & Hcase).
  assert (Hpos : camera_position_t it' <> None) by (rewrite Hcam; simpl; discriminate).
  destruct (export_row it') as [row|] eqn:Er.
  - exists step', it', row.
    split; [reflexivity|]. split; [exact Hin|]. split; [exact Hpos|]. split; [exact Er|].
    exact (exported_latlon_of_converted (Qc_of_Z 40) (Qc_of_Z (-3)) geo_sample_step step'
             it' row E Hin Hpos Er).
  - exfalso. unfold export_row, coordinate in Er. rewrite Hcam in Er.
    simpl in Er. discriminate Er.
Defined.

Lemma visualize_figure_sample :
  exists fig,
    visualize_camera_positions [("S1", step_of two_sequences_items)] None = Some fig /\
    length (subplot_titles fig) = 3%nat /\
    Forall drawable (traces fig).
Proof.
  destruct (visualize_camera_positions [("S1", step_of two_sequences_items)] None)
    as [fig|] eqn:E; [|vm_compute in E; discriminate E].
  exists fig. split; [reflexivity|].
  destruct (visualize_figure_drawable _ _ fig E) as (H1 & _ & H3).
  split; [exact H1 | exact H3].
Defined.

Lemma corrector_sample :
  exists store' it',
    apply_orientation_correction [1; 3; 5]%nat
      (fun x => x + 1) (fun x => x + Qc_of_Z 2) (fun x => - x) two_sequences_items = Ok store' /\
    nth_error store' 3 = Some it' /\
    Omega it' = Some (Q2Qc 31) /\ Phi it' = Some (Q2Qc 32) /\ Kappa it' = Some (Q2Qc (-30)) /\
    Angular_position it' = Some (Q2Qc 30) /\
    nth_error store' 1 = nth_error two_sequences_items 1 /\
    nth_error store' 4 = nth_error two_sequences_items 4.
Proof.
  destruct (corrector_touches_only_correctable (fun x => x + 1) (fun x => x + Qc_of_Z 2)
              (fun x => - x) [1; 3; 5]%nat two_sequences_items) as [Hret Hframe].
  destruct Hret as [store' Hs].
  { repeat constructor; simpl; intros _; discriminate. }
  destruct (Hframe store' Hs) as [_ Hitems].
  destruct (proj1 (Hitems 3%nat _ eq_refl) (or_intror (or_introl eq_refl))
                  (or_intror eq_refl))
    as (x & it' & Hx & Hit' & Ho & Hp & Hk & _ & _ & _ & _ & Ha & _).
  injection Hx as <-.
  exists store', it'. split; [exact Hs|]. split; [exact Hit'|].
  split; [rewrite Ho; f_equal; apply Qc_is_canon; reflexivity|].
  split; [rewrite Hp; f_equal; apply Qc_is_canon; reflexivity|].
  split; [rewrite Hk; f_equal; apply Qc_is_canon; reflexivity|].
  split; [exact Ha|]. split.
  - apply (proj2 (Hitems 1%nat _ eq_refl)). right. split; discriminate.
  - apply (proj2 (Hitems 4%nat _ eq_refl)). left. simpl. intuition discriminate.
Defined.

Lemma contained_failures_sample :
  interpolate_step sample_lib no_center_step = Ok no_center_step /\
  (exists rest',
     interpolate_positions sample_lib [("S1", step_of end_to_end_items)] = Ok rest' /\
     interpolate_positions sample_lib
       [("S0", no_center_step); ("S1", step_of end_to_end_items)]
     = Ok (("S0", no_center_step) :: rest')) /\
  interpolate_raw_step sample_lib no_x_step = Raise (KeyError "x") /\
  raw_pipeline sample_lib [("S0", no_x_step)] = Raise (KeyError "x").
Proof.
  destruct (contained_and_escaping_failures sample_lib)
    as (Hskip & _ & _ & _ & _ & _ & _ & _ & _ & _ & Habort & _ & _ & Hpipe & _ & _ & Hx & _).
  destruct (Hskip "S0" no_center_step [("S1", step_of end_to_end_items)] (or_introl eq_refl))
    as [H1 H2].
  assert (Hno : interpolate_raw_step sample_lib no_x_step = Raise (KeyError "x")).
  { apply Hx; [|reflexivity]. repeat split; discriminate. }
  split; [exact H1|]. split; [|split; [exact Hno|]].
  - destruct (interpolate_positions sample_lib [("S1", step_of end_to_end_items)])
      as [rest'|e] eqn:E; [|vm_compute in E; discriminate E].
    exists rest'. split; [reflexivity|]. rewrite H2. reflexivity.
  - apply Hpipe. exact (Habort [] ("S0", no_x_step) [] [] (KeyError "x") eq_refl Hno).
Defined.

(** ** The doubles of the kernel *)

(** The same trace on the doubles of the kernel: the three additions of
    lines 77-78 at that input, each equal to what [round_b64] gives. *)
Module Doubles.
Import PrimFloat.
#[local] Set Warnings "-inexact-float".

Lemma kernel_doubles_reach_180 :
  let c := (-0x1.6800000000001p+7)%float in
  let a := PrimFloat.add c 180%float in
  let r := PrimFloat.add a 360%float in
  option_map Qred (Q_of_double c) = Some (this just_below_minus_180) /\
  option_map Qred (Q_of_double a) = Some (this (round_b64 (just_below_minus_180 + Qc_of_Z 180))) /\
  option_map Qred (Q_of_double r) = Some (this (Qc_of_Z 360)) /\
  option_map Qred (Q_of_double (PrimFloat.sub r 180%float))
  = Some (this (kappa_trend_b64 0 just_below_minus_180 0)) /\
  PrimFloat.ltb (PrimFloat.sub r 180%float) 180%float = false.
Proof. vm_compute. repeat split; reflexivity. Qed.

(** [round_b64] against the kernel on some sums, products and quotients:
    ordinary values, ties, subnormal results, cancellations. *)
Lemma round_b64_agrees_with_kernel :
  forallb (agree add Qplus)
    [ (0.1, 0.2); (0.1, 180); (7, 0.5); (1e16, 1); (9007199254740992, 3);
      (-180.00000000000003, 180); (0x1p-1074, 0x1p-1074); (1e-310, -3e-311);
      (0x1.fffffffffffffp-1023, 0x1p-1074); (-360, 0x1p-45); (1e300, -1e284) ]%float = true /\
  forallb (agree mul Qmult)
    [ (0.1, 3); (0.1, 0.1); (1e-200, 1e-120); (0x1p-1000, 0x1.8p-75);
      (-0.3, 111000); (1.0000000000000002, 1.0000000000000002) ]%float = true /\
  forallb (agree div Qdiv)
    [ (1, 3); (10, 111000); (90, 7); (0x1p-1060, 111000); (-2, 0.7) ]%float = true.
Proof. vm_compute. repeat split; reflexivity. Qed.

End Doubles.
